(** * flot.versionno: PEP 440 version normalisation

    A shallow embedding of [src/flot/versionno.py]: the regular expression
    [VERSION_PERMISSIVE] run by a backtracking matcher with named groups,
    the table [pre_spellings] and the function [normalize_version].

    Python strings are modelled as lists of characters whose code point is
    below 256 (type [ascii]); [str.lower], [str.isdigit] and the class [\s]
    are written out as Python defines them on that range.  [int] and [str]
    carry the interpreter's limit on the number of digits of a conversion
    between a string and an integer, at its default of 4300 digits.  The
    logging calls of the source are left out: they do not influence the
    value returned or the exception raised. *)

From Stdlib Require Import List Ascii String Bool Arith NArith Lia.
From Stdlib Require Decimal DecimalFacts DecimalN.
Import ListNotations.

(** ** Characters and strings *)

Definition str := list ascii.

Definition chars (s : string) : list ascii := list_ascii_of_string s.

Coercion chars : string >-> list.

Open Scope string_scope.
Open Scope list_scope.

Definition code (a : ascii) : N := N_of_ascii a.

Definition in_range (lo hi : N) (a : ascii) : bool :=
  ((lo <=? code a) && (code a <=? hi))%N.

(** [[0-9]] *)
Definition is_digit (a : ascii) : bool := in_range 48 57 a.

(** [[a-z0-9]] *)
Definition is_alnum (a : ascii) : bool := in_range 97 122 a || is_digit a.

(** [[-_\.]] *)
Definition is_sep (a : ascii) : bool :=
  (code a =? 45)%N || (code a =? 95)%N || (code a =? 46)%N.

(** [\s] of a [str] pattern: the characters for which [str.isspace] holds. *)
Definition is_space (a : ascii) : bool :=
  in_range 9 13 a || in_range 28 32 a || (code a =? 133)%N || (code a =? 160)%N.

(** One character of [str.lower]: A-Z and the upper-case letters of the
    Latin-1 block move up by 32. *)
Definition lower_char (a : ascii) : ascii :=
  if in_range 65 90 a || in_range 192 214 a || in_range 216 222 a
  then ascii_of_N (code a + 32)
  else a.

Definition lower (s : str) : str := map lower_char s.

(** One character of [str.isdigit]: 0-9 and the superscripts 1, 2, 3. *)
Definition isdigit_char (a : ascii) : bool :=
  is_digit a || (code a =? 178)%N || (code a =? 179)%N || (code a =? 185)%N.

(** [s.isdigit()] *)
Definition isdigit (s : str) : bool :=
  match s with
  | [] => false
  | _ => forallb isdigit_char s
  end.

(** [s.replace(a, b)] for one-character [a] and [b]. *)
Definition replace (a b : ascii) (s : str) : str :=
  map (fun x => if Ascii.eqb x a then b else x) s.

(** [s.split(sep)] for a one-character separator: never the empty list. *)
Fixpoint split (sep : ascii) (s : str) : list str :=
  match s with
  | [] => [[]]
  | a :: s' =>
      if Ascii.eqb a sep then [] :: split sep s'
      else match split sep s' with
           | [] => [[a]]
           | w :: ws => (a :: w) :: ws
           end
  end.

(** [sep.join(l)] *)
Fixpoint join (sep : str) (l : list str) : str :=
  match l with
  | [] => []
  | [w] => w
  | w :: ws => w ++ sep ++ join sep ws
  end.

(** ** Exceptions *)

Inductive exn : Type :=
| InvalidVersion (orig_version : str)
    (** "Version number {!r} does not match PEP 440 rules".format(orig_version) *)
| KeyError (key : str)
| ValueError
    (** raised by [int] and [str]; its message is not modelled *)
| AttributeError.

Inductive result (A : Type) : Type :=
| Ok (a : A)
| Raise (e : exn).

Arguments Ok {A} a.
Arguments Raise {A} e.

Definition bind {A B : Type} (x : result A) (f : A -> result B) : result B :=
  match x with
  | Ok a => f a
  | Raise e => Raise e
  end.

Notation "x <- e1 ;; e2" := (bind e1 (fun x => e2))
  (at level 61, e1 at next level, right associativity).

(** [[f(x) for x in l]] for a fallible [f]. *)
Fixpoint mapM {A B : Type} (f : A -> result B) (l : list A) : result (list B) :=
  match l with
  | [] => Ok []
  | a :: l' => b <- f a ;; bs <- mapM f l' ;; Ok (b :: bs)
  end.

(** ** [int] and [str] on decimal literals *)

Definition digit_of_char (a : ascii) : option (Decimal.uint -> Decimal.uint) :=
  if (code a =? 48)%N then Some Decimal.D0 else
  if (code a =? 49)%N then Some Decimal.D1 else
  if (code a =? 50)%N then Some Decimal.D2 else
  if (code a =? 51)%N then Some Decimal.D3 else
  if (code a =? 52)%N then Some Decimal.D4 else
  if (code a =? 53)%N then Some Decimal.D5 else
  if (code a =? 54)%N then Some Decimal.D6 else
  if (code a =? 55)%N then Some Decimal.D7 else
  if (code a =? 56)%N then Some Decimal.D8 else
  if (code a =? 57)%N then Some Decimal.D9 else None.

Fixpoint uint_of_chars (s : str) : option Decimal.uint :=
  match s with
  | [] => Some Decimal.Nil
  | a :: s' =>
      match digit_of_char a, uint_of_chars s' with
      | Some d, Some u => Some (d u)
      | _, _ => None
      end
  end.

Fixpoint chars_of_uint (u : Decimal.uint) : str :=
  match u with
  | Decimal.Nil => []
  | Decimal.D0 u => "0"%char :: chars_of_uint u
  | Decimal.D1 u => "1"%char :: chars_of_uint u
  | Decimal.D2 u => "2"%char :: chars_of_uint u
  | Decimal.D3 u => "3"%char :: chars_of_uint u
  | Decimal.D4 u => "4"%char :: chars_of_uint u
  | Decimal.D5 u => "5"%char :: chars_of_uint u
  | Decimal.D6 u => "6"%char :: chars_of_uint u
  | Decimal.D7 u => "7"%char :: chars_of_uint u
  | Decimal.D8 u => "8"%char :: chars_of_uint u
  | Decimal.D9 u => "9"%char :: chars_of_uint u
  end.

(** [sys.get_int_max_str_digits()]: the largest number of digits CPython
    converts between [str] and [int], at its default value; the source does
    not change it. *)
Definition int_max_str_digits : nat := 4300.

(** [int(s)] on a non-empty run of the digits 0-9, the only literals the
    groups of [VERSION_PERMISSIVE] can hand over: [ValueError] when the run
    has more than [int_max_str_digits] digits, leading zeros counted.  The
    signs, blanks and underscores that Python accepts besides are outside
    this domain and answered with [ValueError] here. *)
Definition int (s : str) : result N :=
  match s with
  | [] => Raise ValueError
  | _ => match uint_of_chars s with
         | Some u =>
             if Nat.leb (List.length s) int_max_str_digits
             then Ok (N.of_uint u)
             else Raise ValueError
         | None => Raise ValueError
         end
  end.

(** [str(n)] for a non-negative integer: [ValueError] when [n] has more
    than [int_max_str_digits] digits. *)
Definition str_of_int (n : N) : result str :=
  let w := chars_of_uint (N.to_uint n) in
  if Nat.leb (List.length w) int_max_str_digits then Ok w
  else Raise ValueError.

(** [str(int(s))] *)
Definition str_int (s : str) : result str :=
  n <- int s ;; str_of_int n.

(** ** The backtracking matcher *)

Inductive regex : Type :=
| Eps
| Cls (p : ascii -> bool)
| Cat (r1 r2 : regex)
| Alt (r1 r2 : regex)
| Star (r : regex)
| Group (name : string) (r : regex)
| Eol.

Definition Chr (a : ascii) : regex := Cls (Ascii.eqb a).
Definition Opt (r : regex) : regex := Alt r Eps.
Definition Plus (r : regex) : regex := Cat r (Star r).

Fixpoint Lit (w : str) : regex :=
  match w with
  | [] => Eps
  | a :: w' => Cat (Chr a) (Lit w')
  end.

(** The groups closed so far, most recent first. *)
Definition groups := list (string * str).

Definition cont := str -> groups -> option groups.

(** Greedy repetition of [body]: one more iteration first, the
    continuation second.  An iteration has to consume a character (no
    starred pattern of [VERSION_PERMISSIVE] can match the empty string),
    so [n] iterations are enough for a string of length [n]. *)
Fixpoint star_loop (body : cont -> cont) (k : cont) (n : nat)
  (s : str) (c : groups) {struct n} : option groups :=
  match n with
  | O => k s c
  | S n' =>
      match body (fun s' c' =>
                    if Nat.ltb (List.length s') (List.length s)
                    then star_loop body k n' s' c' else None) s c with
      | Some m => Some m
      | None => k s c
      end
  end.

(** [exec r k s c] matches [r] at the head of [s] with groups [c] and hands
    what is left to the continuation [k]; alternatives are tried in the
    order of the pattern and repetitions are greedy, as in [re].  [Eol] is
    [$] without [re.MULTILINE]: the end of the string, or just before a
    newline that ends the string. *)
Fixpoint exec (r : regex) (k : cont) (s : str) (c : groups) {struct r}
  : option groups :=
  match r with
  | Eps => k s c
  | Cls p =>
      match s with
      | a :: s' => if p a then k s' c else None
      | [] => None
      end
  | Cat r1 r2 => exec r1 (exec r2 k) s c
  | Alt r1 r2 =>
      match exec r1 k s c with
      | Some m => Some m
      | None => exec r2 k s c
      end
  | Star r1 => star_loop (exec r1) k (List.length s) s c
  | Group g r1 =>
      exec r1 (fun s' c' =>
                 k s' ((g, firstn (List.length s - List.length s') s) :: c')) s c
  | Eol =>
      match s with
      | [] => k s c
      | [a] => if (code a =? 10)%N then k s c else None
      | _ => None
      end
  end.

(** [pattern.match(s)]: anchored at the start of [s]. *)
Definition re_match (r : regex) (s : str) : option groups :=
  exec r (fun _ c => Some c) s [].

(** [m.group(name)]: [None] when the group took no part in the match. *)
Fixpoint group (m : groups) (name : string) : option str :=
  match m with
  | [] => None
  | (g, w) :: m' => if String.eqb g name then Some w else group m' name
  end.

(** ** [VERSION_PERMISSIVE]

    The pattern is compiled with [re.VERBOSE]; the unnamed parentheses
    around the pre-release spellings only group. *)

Definition digits : regex := Plus (Cls is_digit).
Definition sep : regex := Cls is_sep.

Definition EPOCH : regex :=
  Opt (Cat (Group "epoch" digits) (Chr "!")).

Definition RELEASE : regex :=
  Group "release" (Cat digits (Star (Cat (Chr ".") digits))).

Definition PRE_L : regex :=
  Alt (Lit "a") (Alt (Lit "b") (Alt (Lit "c") (Alt (Lit "rc")
  (Alt (Lit "alpha") (Alt (Lit "beta") (Alt (Lit "pre") (Lit "preview"))))))).

Definition PRE : regex :=
  Opt (Group "pre"
         (Cat (Opt sep)
         (Cat (Group "pre_l" PRE_L)
         (Cat (Opt sep)
              (Opt (Group "pre_n" digits)))))).

Definition POST_L : regex := Alt (Lit "post") (Alt (Lit "rev") (Lit "r")).

Definition POST : regex :=
  Opt (Group "post"
         (Alt (Cat (Chr "-") (Group "post_n1" digits))
              (Cat (Opt sep)
              (Cat (Group "post_l" POST_L)
              (Cat (Opt sep)
                   (Opt (Group "post_n2" digits))))))).

Definition DEV : regex :=
  Opt (Group "dev"
         (Cat (Opt sep)
         (Cat (Group "dev_l" (Lit "dev"))
         (Cat (Opt sep)
              (Opt (Group "dev_n" digits)))))).

Definition alnums : regex := Plus (Cls is_alnum).

Definition LOCAL : regex :=
  Opt (Cat (Chr "+")
           (Group "local" (Cat alnums (Star (Cat sep alnums))))).

(** The non-capturing group from the epoch to the dev release. *)
Definition CORE : regex :=
  Cat EPOCH (Cat RELEASE (Cat PRE (Cat POST DEV))).

Definition VERSION_PERMISSIVE : regex :=
  Cat (Star (Cls is_space))
 (Cat (Opt (Chr "v"))
 (Cat CORE
 (Cat LOCAL
 (Cat (Star (Cls is_space))
      Eol)))).

(** ** [pre_spellings] *)

Definition pre_spellings : list (str * str) :=
  [ ("a" : str,       "a" : str);
    ("alpha" : str,   "a" : str);
    ("b" : str,       "b" : str);
    ("beta" : str,    "b" : str);
    ("rc" : str,      "rc" : str);
    ("c" : str,       "rc" : str);
    ("pre" : str,     "rc" : str);
    ("preview" : str, "rc" : str) ].

Definition str_eqb (a b : str) : bool :=
  if list_eq_dec ascii_dec a b then true else false.

(** [d[key]] *)
Fixpoint getitem (d : list (str * str)) (key : str) : result str :=
  match d with
  | [] => Raise (KeyError key)
  | (k, v) :: d' => if str_eqb k key then Ok v else getitem d' key
  end.

(** ** [normalize_version] *)

(** [os.environ.get] *)
Definition environ := string -> option str.

(** Truth value of [os.environ.get(name)]: set, and not the empty string. *)
Definition truthy (v : option str) : bool :=
  match v with
  | Some (_ :: _) => true
  | _ => false
  end.

Definition allow_invalid (env : environ) : bool :=
  truthy (env "FLIT_ALLOW_INVALID").

Definition normalize_version (env : environ) (orig_version : str)
  : result str :=
  let version := lower orig_version in
  match re_match VERSION_PERMISSIVE version with
  | None =>
      if truthy (env "FLIT_ALLOW_INVALID") then Ok version
      else Raise (InvalidVersion orig_version)
  | Some m =>
      c_epoch <-
        match group m "epoch" with
        | Some epoch => e <- str_int epoch ;; Ok [e ++ "!"]
        | None => Ok []
        end ;;
      c_release <-
        match group m "release" with
        | Some release =>
            rps <- mapM str_int (split "." release) ;; Ok [join "." rps]
        | None => Raise AttributeError
        end ;;
      c_pre <-
        match group m "pre_l" with
        | Some pre_l =>
            pre_l <- getitem pre_spellings pre_l ;;
            pre_n <- match group m "pre_n" with
                     | None => Ok ("0" : str)
                     | Some pre_n => str_int pre_n
                     end ;;
            Ok [pre_l ++ pre_n]
        | None => Ok []
        end ;;
      c_post <-
        match group m "post_n1" with
        | Some post_n1 => n <- str_int post_n1 ;; Ok [".post" ++ n]
        | None =>
            match group m "post_l" with
            | Some _ =>
                post_n <- match group m "post_n2" with
                          | None => Ok ("0" : str)
                          | Some post_n2 => str_int post_n2
                          end ;;
                n <- str_int post_n ;;
                Ok [".post" ++ n]
            | None => Ok []
            end
        end ;;
      c_dev <-
        match group m "dev_l" with
        | Some _ =>
            dev_n <- match group m "dev_n" with
                     | None => Ok ("0" : str)
                     | Some dev_n => str_int dev_n
                     end ;;
            Ok [".dev" ++ dev_n]
        | None => Ok []
        end ;;
      c_local <-
        match group m "local" with
        | Some local =>
            let local := replace "_" "." (replace "-" "." local) in
            l <- mapM (fun c => if isdigit c then str_int c else Ok c)
                      (split "." local) ;;
            Ok ["+" ++ join "." l]
        | None => Ok []
        end ;;
      Ok (List.concat (c_epoch ++ c_release ++ c_pre ++ c_post ++ c_dev ++ c_local))
  end.

(** * Facts about the matcher *)

Section Matcher.

Lemma exec_none (r : regex) : forall (k : cont) s c,
  (forall s' c', k s' c' = None) -> exec r k s c = None.
Proof.
  induction r as [|p|r1 IH1 r2 IH2|r1 IH1 r2 IH2|r IH|g r IH|];
    intros k s c Hk; simpl.
  - apply Hk.
  - destruct s as [|a s']; [reflexivity|]. destruct (p a); auto.
  - apply IH1. intros. apply IH2. exact Hk.
  - rewrite IH1 by exact Hk. apply IH2. exact Hk.
  - destruct (List.length s) as [|n]; simpl; [apply Hk|].
    rewrite IH; [apply Hk|].
    intros s' c'. destruct (Nat.ltb _ _); [|reflexivity].
    revert s' c'. induction n as [|n IHn]; intros s' c'; simpl; [apply Hk|].
    rewrite IH; [apply Hk|].
    intros s2 c2. destruct (Nat.ltb _ _); auto.
  - apply IH. intros. apply Hk.
  - destruct s as [|a [|b s']]; auto. destruct (code a =? 10)%N; auto.
Qed.

Lemma star_loop_ext (body : cont -> cont) :
  (forall k k' s c, (forall s' c', k s' c' = k' s' c') ->
                    body k s c = body k' s c) ->
  forall n k k' s c, (forall s' c', k s' c' = k' s' c') ->
    star_loop body k n s c = star_loop body k' n s c.
Proof.
  intros Hb n. induction n as [|n IHn]; intros k k' s c Hk; simpl.
  - apply Hk.
  - rewrite Hk.
    rewrite (Hb _ (fun s' c' =>
                     if Nat.ltb (List.length s') (List.length s)
                     then star_loop body k' n s' c' else None)); [reflexivity|].
    intros s' c'. destruct (Nat.ltb _ _); auto.
Qed.

Lemma exec_ext (r : regex) : forall (k k' : cont) s c,
  (forall s' c', k s' c' = k' s' c') -> exec r k s c = exec r k' s c.
Proof.
  induction r as [|p|r1 IH1 r2 IH2|r1 IH1 r2 IH2|r IH|g r IH|];
    intros k k' s c Hk; simpl.
  - apply Hk.
  - destruct s as [|a s']; [reflexivity|]. destruct (p a); auto.
  - apply IH1. intros. apply IH2. exact Hk.
  - rewrite (IH1 k k') by exact Hk. rewrite (IH2 k k') by exact Hk.
    reflexivity.
  - apply star_loop_ext; auto.
  - apply IH. intros. apply Hk.
  - destruct s as [|a [|b s']]; auto. destruct (code a =? 10)%N; auto.
Qed.

(** Fuel beyond the length of the input is never used. *)
Lemma star_loop_fuel (r : regex) (k : cont) : forall n m s c,
  List.length s <= n -> List.length s <= m ->
  star_loop (exec r) k n s c = star_loop (exec r) k m s c.
Proof.
  assert (Hzero : forall m s c, List.length s = 0 ->
            star_loop (exec r) k m s c = k s c).
  { intros [|m] s c Hs; simpl; [reflexivity|].
    rewrite exec_none; [reflexivity|].
    intros s' c'. rewrite Hs.
    destruct (Nat.ltb_spec (List.length s') 0); [lia|reflexivity]. }
  induction n as [|n IHn]; intros m s c Hn Hm.
  - rewrite !Hzero by lia. reflexivity.
  - destruct m as [|m].
    + rewrite (Hzero (S n)) by lia. reflexivity.
    + simpl.
      rewrite (exec_ext r _ (fun s' c' =>
                 if Nat.ltb (List.length s') (List.length s)
                 then star_loop (exec r) k m s' c' else None)); [reflexivity|].
      intros s' c'.
      destruct (Nat.ltb_spec (List.length s') (List.length s));
        [|reflexivity].
      apply IHn; lia.
Qed.

(** The equation of a greedy star. *)
Lemma exec_star (r : regex) (k : cont) s c :
  exec (Star r) k s c =
  match exec r (fun s' c' =>
                  if Nat.ltb (List.length s') (List.length s)
                  then exec (Star r) k s' c' else None) s c with
  | Some m => Some m
  | None => k s c
  end.
Proof.
  simpl. destruct (List.length s) as [|n] eqn:Hs; simpl.
  - rewrite exec_none; [reflexivity|].
    intros s' c'. destruct (Nat.ltb_spec (List.length s') 0);
      [lia|reflexivity].
  - rewrite (exec_ext r _ (fun s' c' =>
               if Nat.ltb (List.length s') (S n)
               then star_loop (exec r) k (List.length s') s' c'
               else None)); [reflexivity|].
    intros s' c'. rewrite Hs.
    destruct (Nat.ltb_spec (List.length s') (S n)); [|reflexivity].
    apply star_loop_fuel; lia.
Qed.

End Matcher.

(** ** What a successful run has matched

    [matches r w rest c c']: the pattern [r] matches exactly the text [w]
    when [rest] follows it, and turns the groups [c] into [c']. *)

Definition newline : ascii := ascii_of_N 10.

Inductive matches : regex -> str -> str -> groups -> groups -> Prop :=
| M_Eps rest c : matches Eps [] rest c c
| M_Cls p a rest c : p a = true -> matches (Cls p) [a] rest c c
| M_Cat r1 r2 w1 w2 rest c c1 c2 :
    matches r1 w1 (w2 ++ rest) c c1 ->
    matches r2 w2 rest c1 c2 ->
    matches (Cat r1 r2) (w1 ++ w2) rest c c2
| M_AltL r1 r2 w rest c c' :
    matches r1 w rest c c' -> matches (Alt r1 r2) w rest c c'
| M_AltR r1 r2 w rest c c' :
    matches r2 w rest c c' -> matches (Alt r1 r2) w rest c c'
| M_Star0 r rest c : matches (Star r) [] rest c c
| M_StarS r w1 w2 rest c c1 c2 :
    w1 <> [] ->
    matches r w1 (w2 ++ rest) c c1 ->
    matches (Star r) w2 rest c1 c2 ->
    matches (Star r) (w1 ++ w2) rest c c2
| M_Group g r w rest c c' :
    matches r w rest c c' -> matches (Group g r) w rest c ((g, w) :: c')
| M_Eol rest c :
    rest = [] \/ rest = [newline] -> matches Eol [] rest c c.

Lemma firstn_consumed (w rest : str) :
  firstn (List.length (w ++ rest) - List.length rest) (w ++ rest) = w.
Proof.
  rewrite length_app, Nat.add_sub. rewrite firstn_app, Nat.sub_diag.
  rewrite firstn_all. simpl. apply app_nil_r.
Qed.

Lemma code_newline (a : ascii) : (code a =? 10)%N = true -> a = newline.
Proof.
  intros H. apply N.eqb_eq in H. unfold code in H.
  rewrite <- (ascii_N_embedding a). rewrite H. reflexivity.
Qed.

Lemma star_loop_sound (r : regex)
  (IH : forall (k : cont) s c m, exec r k s c = Some m ->
          exists w rest c', s = w ++ rest /\ matches r w rest c c' /\
                            k rest c' = Some m) :
  forall n (k : cont) s c m, star_loop (exec r) k n s c = Some m ->
    exists w rest c', s = w ++ rest /\ matches (Star r) w rest c c' /\
                      k rest c' = Some m.
Proof.
  induction n as [|n IHn]; intros k s c m H; simpl in H.
  - exists [], s, c. repeat split; auto. constructor.
  - destruct (exec r _ s c) as [m'|] eqn:E.
    + injection H as ->.
      apply IH in E. destruct E as (w1 & s1 & c1 & -> & Hm1 & Hk).
      destruct (Nat.ltb_spec (List.length s1) (List.length (w1 ++ s1)))
        as [Hlt|]; [|discriminate].
      apply IHn in Hk. destruct Hk as (w2 & rest & c2 & -> & Hm2 & Hk).
      exists (w1 ++ w2), rest, c2. rewrite app_assoc. repeat split; auto.
      econstructor; eauto.
      intros ->. simpl in Hlt. lia.
    + exists [], s, c. repeat split; auto. constructor.
Qed.

(** Soundness of the matcher: an answer comes from a match of the pattern
    on a prefix of the input, continued on what is left. *)
Theorem exec_sound (r : regex) : forall (k : cont) s c m,
  exec r k s c = Some m ->
  exists w rest c', s = w ++ rest /\ matches r w rest c c' /\
                    k rest c' = Some m.
Proof.
  induction r as [|p|r1 IH1 r2 IH2|r1 IH1 r2 IH2|r IH|g r IH|];
    intros k s c m H; simpl in H.
  - exists [], s, c. repeat split; auto. constructor.
  - destruct s as [|a s']; [discriminate|].
    destruct (p a) eqn:Hp; [|discriminate].
    exists [a], s', c. repeat split; auto. constructor; auto.
  - apply IH1 in H. destruct H as (w1 & s1 & c1 & -> & Hm1 & H).
    apply IH2 in H. destruct H as (w2 & rest & c2 & -> & Hm2 & H).
    exists (w1 ++ w2), rest, c2. rewrite app_assoc. repeat split; auto.
    econstructor; eauto.
  - destruct (exec r1 k s c) as [m'|] eqn:E.
    + injection H as ->. apply IH1 in E.
      destruct E as (w & rest & c' & -> & Hm & Hk).
      exists w, rest, c'. repeat split; auto. apply M_AltL; auto.
    + apply IH2 in H. destruct H as (w & rest & c' & -> & Hm & Hk).
      exists w, rest, c'. repeat split; auto. apply M_AltR; auto.
  - eapply star_loop_sound; eauto.
  - apply IH in H. destruct H as (w & rest & c' & -> & Hm & Hk).
    rewrite firstn_consumed in Hk.
    exists w, rest, ((g, w) :: c'). repeat split; auto. constructor; auto.
  - destruct s as [|a [|b s']].
    + exists [], [], c. repeat split; auto. constructor; auto.
    + destruct (code a =? 10)%N eqn:Ha; [|discriminate].
      exists [], [a], c. repeat split; auto. constructor.
      right. f_equal. apply code_newline; auto.
    + discriminate.
Qed.

(** Inversion of [matches], one lemma per constructor of [regex]. *)

Lemma matches_Eps w rest c c' :
  matches Eps w rest c c' -> w = [] /\ c' = c.
Proof. inversion 1; auto. Qed.

Lemma matches_Cls p w rest c c' :
  matches (Cls p) w rest c c' -> exists a, w = [a] /\ p a = true /\ c' = c.
Proof. inversion 1; subst; eauto. Qed.

Lemma matches_Cat r1 r2 w rest c c' :
  matches (Cat r1 r2) w rest c c' ->
  exists w1 w2 c1, w = w1 ++ w2 /\ matches r1 w1 (w2 ++ rest) c c1 /\
                   matches r2 w2 rest c1 c'.
Proof. inversion 1; subst; eauto 7. Qed.

Lemma matches_Alt r1 r2 w rest c c' :
  matches (Alt r1 r2) w rest c c' ->
  matches r1 w rest c c' \/ matches r2 w rest c c'.
Proof. inversion 1; subst; auto. Qed.

Lemma matches_Group g r w rest c c' :
  matches (Group g r) w rest c c' ->
  exists c1, matches r w rest c c1 /\ c' = (g, w) :: c1.
Proof. inversion 1; subst; eauto. Qed.

Lemma matches_Eol w rest c c' :
  matches Eol w rest c c' ->
  w = [] /\ c' = c /\ (rest = [] \/ rest = [newline]).
Proof. inversion 1; subst; auto. Qed.

Lemma matches_Opt r w rest c c' :
  matches (Opt r) w rest c c' ->
  matches r w rest c c' \/ (w = [] /\ c' = c).
Proof.
  intros H. apply matches_Alt in H. destruct H as [H|H]; auto.
  apply matches_Eps in H. auto.
Qed.

Lemma matches_Chr a w rest c c' :
  matches (Chr a) w rest c c' -> w = [a] /\ c' = c.
Proof.
  intros H. apply matches_Cls in H. destruct H as (b & -> & Hb & ->).
  apply Ascii.eqb_eq in Hb. subst. auto.
Qed.

Lemma matches_Lit u : forall w rest c c',
  matches (Lit u) w rest c c' -> w = u /\ c' = c.
Proof.
  induction u as [|a u IH]; intros w rest c c' H; simpl in H.
  - apply matches_Eps in H. exact H.
  - apply matches_Cat in H. destruct H as (w1 & w2 & c1 & -> & H1 & H2).
    apply matches_Chr in H1. destruct H1 as [-> ->].
    apply IH in H2. destruct H2 as [-> ->]. auto.
Qed.

Lemma matches_Star_Cls p w rest c c' :
  matches (Star (Cls p)) w rest c c' -> forallb p w = true /\ c' = c.
Proof.
  intros H. remember (Star (Cls p)) as r eqn:Er.
  induction H; try discriminate.
  - auto.
  - injection Er as ->.
    apply matches_Cls in H0. destruct H0 as (a & -> & Ha & ->).
    destruct (IHmatches2 eq_refl) as [Hw ->].
    simpl. rewrite Ha, Hw. auto.
Qed.

(** A non-empty run of characters of one class. *)
Definition run (p : ascii -> bool) (w : str) : Prop :=
  w <> [] /\ forallb p w = true.

Lemma matches_Plus_Cls p w rest c c' :
  matches (Plus (Cls p)) w rest c c' -> run p w /\ c' = c.
Proof.
  intros H. apply matches_Cat in H.
  destruct H as (w1 & w2 & c1 & -> & H1 & H2).
  apply matches_Cls in H1. destruct H1 as (a & -> & Ha & ->).
  apply matches_Star_Cls in H2. destruct H2 as [Hw ->].
  split; auto. split; [discriminate|]. simpl. rewrite Ha, Hw. auto.
Qed.

(** * The shape of a matched version

    What [VERSION_PERMISSIVE] has matched, piece by piece: the text of every
    piece of the input and the groups the match object holds. *)

Definition is_run (p : ascii -> bool) (w : str) : bool :=
  match w with
  | [] => false
  | _ => forallb p w
  end.

Lemma is_run_spec p w : run p w <-> is_run p w = true.
Proof.
  unfold run. destruct w as [|a w]; simpl.
  - split; [intros [H _]; congruence | discriminate].
  - split; [intros [_ H]; exact H | intros H; split; [discriminate | exact H]].
Qed.

(** An optional separator [[-_\.]?]. *)
Definition is_sep_opt (w : str) : bool :=
  match w with
  | [] => true
  | [a] => is_sep a
  | _ => false
  end.

(** An optional number [[0-9]+]. *)
Definition is_num_opt (o : option str) : bool :=
  match o with
  | None => true
  | Some n => is_run is_digit n
  end.

Definition pre_tags : list str :=
  ["a" : str; "b" : str; "c" : str; "rc" : str;
   "alpha" : str; "beta" : str; "pre" : str; "preview" : str].

Definition post_tags : list str := ["post" : str; "rev" : str; "r" : str].

Definition mem (w : str) (l : list str) : bool := existsb (str_eqb w) l.

Record pre_t : Type := Pre
  { pre_sep1 : str; pre_l : str; pre_sep2 : str; pre_n : option str }.

Inductive post_t : Type :=
| Post1 (post_n1 : str)
| Post2 (post_sep1 post_l post_sep2 : str) (post_n2 : option str).

Record dev_t : Type := Dev
  { dev_sep1 : str; dev_sep2 : str; dev_n : option str }.

Record local_t : Type := Local
  { local_head : str; local_tail : list (ascii * str) }.

Record parsed : Type := Parsed
  { p_epoch : option str;
    p_release : list str;
    p_pre : option pre_t;
    p_post : option post_t;
    p_dev : option dev_t;
    p_local : option local_t }.

Definition opt_text {A : Type} (f : A -> str) (o : option A) : str :=
  match o with
  | Some a => f a
  | None => []
  end.

Definition id_text (w : str) : str := w.

Definition epoch_text (e : str) : str := e ++ "!".

Definition pre_text (p : pre_t) : str :=
  pre_sep1 p ++ pre_l p ++ pre_sep2 p ++ opt_text id_text (pre_n p).

Definition post_text (p : post_t) : str :=
  match p with
  | Post1 n => "-" ++ n
  | Post2 s1 l s2 n => s1 ++ l ++ s2 ++ opt_text id_text n
  end.

Definition dev_text (d : dev_t) : str :=
  dev_sep1 d ++ "dev" ++ dev_sep2 d ++ opt_text id_text (dev_n d).

Definition local_label (l : local_t) : str :=
  local_head l ++ List.concat (map (fun aw => fst aw :: snd aw) (local_tail l)).

Definition local_text (l : local_t) : str := "+" ++ local_label l.

Definition text_of (p : parsed) : str :=
  opt_text epoch_text (p_epoch p) ++ join "." (p_release p) ++
  opt_text pre_text (p_pre p) ++ opt_text post_text (p_post p) ++
  opt_text dev_text (p_dev p) ++ opt_text local_text (p_local p).

Definition opt_groups {A : Type} (f : A -> groups) (o : option A) : groups :=
  match o with
  | Some a => f a
  | None => []
  end.

Definition num_group (name : string) (n : str) : groups := [(name, n)].

Definition pre_groups (p : pre_t) : groups :=
  ("pre", pre_text p) :: opt_groups (num_group "pre_n") (pre_n p) ++
  [("pre_l", pre_l p)].

Definition post_groups (p : post_t) : groups :=
  match p with
  | Post1 n => [("post", post_text p); ("post_n1", n)]
  | Post2 s1 l s2 n =>
      ("post", post_text p) :: opt_groups (num_group "post_n2") n ++
      [("post_l", l)]
  end.

Definition dev_groups (d : dev_t) : groups :=
  ("dev", dev_text d) :: opt_groups (num_group "dev_n") (dev_n d) ++
  [("dev_l", "dev" : str)].

Definition groups_of (p : parsed) : groups :=
  opt_groups (fun l => [("local", local_label l)]) (p_local p) ++
  opt_groups dev_groups (p_dev p) ++
  opt_groups post_groups (p_post p) ++
  opt_groups pre_groups (p_pre p) ++
  ("release", join "." (p_release p)) ::
  opt_groups (num_group "epoch") (p_epoch p).

Definition opt_wf {A : Type} (f : A -> bool) (o : option A) : bool :=
  match o with
  | Some a => f a
  | None => true
  end.

Definition wf_release (l : list str) : bool :=
  match l with
  | [] => false
  | _ => forallb (is_run is_digit) l
  end.

Definition wf_pre (p : pre_t) : bool :=
  is_sep_opt (pre_sep1 p) && mem (pre_l p) pre_tags &&
  is_sep_opt (pre_sep2 p) && is_num_opt (pre_n p).

Definition wf_post (p : post_t) : bool :=
  match p with
  | Post1 n => is_run is_digit n
  | Post2 s1 l s2 n =>
      is_sep_opt s1 && mem l post_tags && is_sep_opt s2 && is_num_opt n
  end.

Definition wf_dev (d : dev_t) : bool :=
  is_sep_opt (dev_sep1 d) && is_sep_opt (dev_sep2 d) && is_num_opt (dev_n d).

Definition wf_local (l : local_t) : bool :=
  is_run is_alnum (local_head l) &&
  forallb (fun aw => is_sep (fst aw) && is_run is_alnum (snd aw))
          (local_tail l).

Definition wf_parsed (p : parsed) : bool :=
  opt_wf (is_run is_digit) (p_epoch p) && wf_release (p_release p) &&
  opt_wf wf_pre (p_pre p) && opt_wf wf_post (p_post p) &&
  opt_wf wf_dev (p_dev p) && opt_wf wf_local (p_local p).

Lemma matches_digits w rest c c' :
  matches digits w rest c c' -> is_run is_digit w = true /\ c' = c.
Proof.
  intros H. apply matches_Plus_Cls in H. destruct H as [H ->].
  split; auto. apply is_run_spec; auto.
Qed.

Lemma matches_alnums w rest c c' :
  matches alnums w rest c c' -> is_run is_alnum w = true /\ c' = c.
Proof.
  intros H. apply matches_Plus_Cls in H. destruct H as [H ->].
  split; auto. apply is_run_spec; auto.
Qed.

Lemma matches_sep w rest c c' :
  matches sep w rest c c' -> exists a, w = [a] /\ is_sep a = true /\ c' = c.
Proof. apply matches_Cls. Qed.

Lemma matches_sep_opt w rest c c' :
  matches (Opt sep) w rest c c' -> is_sep_opt w = true /\ c' = c.
Proof.
  intros H. apply matches_Opt in H. destruct H as [H|[-> ->]]; auto.
  apply matches_sep in H. destruct H as (a & -> & Ha & ->). auto.
Qed.

Lemma matches_num_opt name w rest c c' :
  matches (Opt (Group name digits)) w rest c c' ->
  exists o, is_num_opt o = true /\ w = opt_text id_text o /\
            c' = opt_groups (num_group name) o ++ c.
Proof.
  intros H. apply matches_Opt in H. destruct H as [H|[-> ->]].
  - apply matches_Group in H. destruct H as (c1 & H & ->).
    apply matches_digits in H. destruct H as [H ->].
    exists (Some w). auto.
  - exists None. auto.
Qed.

Lemma matches_EPOCH w rest c c' :
  matches EPOCH w rest c c' ->
  exists o, opt_wf (is_run is_digit) o = true /\ w = opt_text epoch_text o /\
            c' = opt_groups (num_group "epoch") o ++ c.
Proof.
  intros H. apply matches_Opt in H. destruct H as [H|[-> ->]].
  - apply matches_Cat in H. destruct H as (w1 & w2 & c1 & -> & H1 & H2).
    apply matches_Group in H1. destruct H1 as (c2 & H1 & ->).
    apply matches_digits in H1. destruct H1 as [H1 ->].
    apply matches_Chr in H2. destruct H2 as [-> ->].
    exists (Some w1). auto.
  - exists None. auto.
Qed.

Lemma join_cons (sp : str) (w : str) (l : list str) :
  join sp (w :: l) = w ++ List.concat (map (app sp) l).
Proof.
  revert w. induction l as [|x l IH]; intros w.
  - simpl. symmetry. apply List.app_nil_r.
  - change (join sp (w :: x :: l)) with (w ++ sp ++ join sp (x :: l)).
    rewrite IH. simpl. rewrite <- !app_assoc. reflexivity.
Qed.

Lemma matches_release_tail w rest c c' :
  matches (Star (Cat (Chr ".") digits)) w rest c c' ->
  exists l, forallb (is_run is_digit) l = true /\
            w = List.concat (map (app ("." : str)) l) /\ c' = c.
Proof.
  intros H. remember (Star (Cat (Chr ".") digits)) as r eqn:Er.
  induction H; try discriminate.
  - exists []. auto.
  - injection Er as ->.
    destruct (IHmatches2 eq_refl) as (l & Hl & -> & ->).
    apply matches_Cat in H0. destruct H0 as (u1 & u2 & c3 & -> & Hd & Hn).
    apply matches_Chr in Hd. destruct Hd as [-> ->].
    apply matches_digits in Hn. destruct Hn as [Hn ->].
    exists (u2 :: l). simpl. rewrite Hn, Hl. auto.
Qed.

Lemma matches_RELEASE w rest c c' :
  matches RELEASE w rest c c' ->
  exists l, wf_release l = true /\ w = join "." l /\
            c' = ("release", w) :: c.
Proof.
  intros H. apply matches_Group in H. destruct H as (c1 & H & ->).
  apply matches_Cat in H. destruct H as (w1 & w2 & c2 & -> & H1 & H2).
  apply matches_digits in H1. destruct H1 as [H1 ->].
  apply matches_release_tail in H2. destruct H2 as (l & Hl & -> & ->).
  exists (w1 :: l). rewrite join_cons. simpl. rewrite H1, Hl. auto.
Qed.

Lemma str_eqb_eq a b : str_eqb a b = true <-> a = b.
Proof.
  unfold str_eqb. destruct (list_eq_dec ascii_dec a b); split;
    congruence.
Qed.

Lemma matches_PRE_L w rest c c' :
  matches PRE_L w rest c c' -> mem w pre_tags = true /\ c' = c.
Proof.
  intros H. unfold PRE_L in H.
  repeat (apply matches_Alt in H; destruct H as [H|H];
          [apply matches_Lit in H; destruct H as [-> ->];
           split; reflexivity|]).
  apply matches_Lit in H. destruct H as [-> ->]. split; reflexivity.
Qed.

Lemma matches_POST_L w rest c c' :
  matches POST_L w rest c c' -> mem w post_tags = true /\ c' = c.
Proof.
  intros H. unfold POST_L in H.
  repeat (apply matches_Alt in H; destruct H as [H|H];
          [apply matches_Lit in H; destruct H as [-> ->];
           split; reflexivity|]).
  apply matches_Lit in H. destruct H as [-> ->]. split; reflexivity.
Qed.

Lemma matches_PRE w rest c c' :
  matches PRE w rest c c' ->
  exists o, opt_wf wf_pre o = true /\ w = opt_text pre_text o /\
            c' = opt_groups pre_groups o ++ c.
Proof.
  intros H. apply matches_Opt in H. destruct H as [H|[-> ->]].
  - apply matches_Group in H. destruct H as (c1 & H & ->).
    apply matches_Cat in H. destruct H as (s1 & w1 & c2 & -> & H1 & H).
    apply matches_sep_opt in H1. destruct H1 as [H1 ->].
    apply matches_Cat in H. destruct H as (l & w2 & c3 & -> & H2 & H).
    apply matches_Group in H2. destruct H2 as (c4 & H2 & ->).
    apply matches_PRE_L in H2. destruct H2 as [H2 ->].
    apply matches_Cat in H. destruct H as (s2 & w3 & c5 & -> & H3 & H).
    apply matches_sep_opt in H3. destruct H3 as [H3 ->].
    apply matches_num_opt in H. destruct H as (n & Hn & -> & ->).
    exists (Some (Pre s1 l s2 n)). split; [|split].
    + unfold opt_wf, wf_pre. cbn [pre_sep1 pre_l pre_sep2 pre_n].
      rewrite H1, H2, H3, Hn. reflexivity.
    + reflexivity.
    + destruct n; reflexivity.
  - exists None. auto.
Qed.

Lemma matches_POST w rest c c' :
  matches POST w rest c c' ->
  exists o, opt_wf wf_post o = true /\ w = opt_text post_text o /\
            c' = opt_groups post_groups o ++ c.
Proof.
  intros H. apply matches_Opt in H. destruct H as [H|[-> ->]].
  - apply matches_Group in H. destruct H as (c1 & H & ->).
    apply matches_Alt in H. destruct H as [H|H].
    + apply matches_Cat in H. destruct H as (w1 & w2 & c2 & -> & H1 & H2).
      apply matches_Chr in H1. destruct H1 as [-> ->].
      apply matches_Group in H2. destruct H2 as (c3 & H2 & ->).
      apply matches_digits in H2. destruct H2 as [H2 ->].
      exists (Some (Post1 w2)). simpl. auto.
    + apply matches_Cat in H. destruct H as (s1 & w1 & c2 & -> & H1 & H).
      apply matches_sep_opt in H1. destruct H1 as [H1 ->].
      apply matches_Cat in H. destruct H as (l & w2 & c3 & -> & H2 & H).
      apply matches_Group in H2. destruct H2 as (c4 & H2 & ->).
      apply matches_POST_L in H2. destruct H2 as [H2 ->].
      apply matches_Cat in H. destruct H as (s2 & w3 & c5 & -> & H3 & H).
      apply matches_sep_opt in H3. destruct H3 as [H3 ->].
      apply matches_num_opt in H. destruct H as (n & Hn & -> & ->).
      exists (Some (Post2 s1 l s2 n)). split; [|split].
      * unfold opt_wf, wf_post. rewrite H1, H2, H3, Hn. reflexivity.
      * reflexivity.
      * destruct n; reflexivity.
  - exists None. auto.
Qed.

Lemma matches_DEV w rest c c' :
  matches DEV w rest c c' ->
  exists o, opt_wf wf_dev o = true /\ w = opt_text dev_text o /\
            c' = opt_groups dev_groups o ++ c.
Proof.
  intros H. apply matches_Opt in H. destruct H as [H|[-> ->]].
  - apply matches_Group in H. destruct H as (c1 & H & ->).
    apply matches_Cat in H. destruct H as (s1 & w1 & c2 & -> & H1 & H).
    apply matches_sep_opt in H1. destruct H1 as [H1 ->].
    apply matches_Cat in H. destruct H as (l & w2 & c3 & -> & H2 & H).
    apply matches_Group in H2. destruct H2 as (c4 & H2 & ->).
    apply matches_Lit in H2. destruct H2 as [-> ->].
    apply matches_Cat in H. destruct H as (s2 & w3 & c5 & -> & H3 & H).
    apply matches_sep_opt in H3. destruct H3 as [H3 ->].
    apply matches_num_opt in H. destruct H as (n & Hn & -> & ->).
    exists (Some (Dev s1 s2 n)). split; [|split].
    + unfold opt_wf, wf_dev. cbn [dev_sep1 dev_sep2 dev_n].
      rewrite H1, H3, Hn. reflexivity.
    + reflexivity.
    + destruct n; reflexivity.
  - exists None. auto.
Qed.

Lemma matches_local_tail w rest c c' :
  matches (Star (Cat sep alnums)) w rest c c' ->
  exists l, forallb (fun aw => is_sep (fst aw) && is_run is_alnum (snd aw)) l
            = true /\
            w = List.concat (map (fun aw => fst aw :: snd aw) l) /\ c' = c.
Proof.
  intros H. remember (Star (Cat sep alnums)) as r eqn:Er.
  induction H; try discriminate.
  - exists []. auto.
  - injection Er as ->.
    destruct (IHmatches2 eq_refl) as (l & Hl & -> & ->).
    apply matches_Cat in H0. destruct H0 as (u1 & u2 & c3 & -> & Hd & Hn).
    apply matches_sep in Hd. destruct Hd as (a & -> & Ha & ->).
    apply matches_alnums in Hn. destruct Hn as [Hn ->].
    exists ((a, u2) :: l). simpl. rewrite Ha, Hn, Hl. auto.
Qed.

Lemma matches_LOCAL w rest c c' :
  matches LOCAL w rest c c' ->
  exists o, opt_wf wf_local o = true /\ w = opt_text local_text o /\
            c' = opt_groups (fun l => [("local", local_label l)]) o ++ c.
Proof.
  intros H. apply matches_Opt in H. destruct H as [H|[-> ->]].
  - apply matches_Cat in H. destruct H as (w1 & w2 & c1 & -> & H1 & H).
    apply matches_Chr in H1. destruct H1 as [-> ->].
    apply matches_Group in H. destruct H as (c2 & H & ->).
    apply matches_Cat in H. destruct H as (h & t & c3 & -> & H2 & H3).
    apply matches_alnums in H2. destruct H2 as [H2 ->].
    apply matches_local_tail in H3. destruct H3 as (l & Hl & -> & ->).
    exists (Some (Local h l)). split; [|split].
    + unfold opt_wf, wf_local. cbn [local_head local_tail].
      rewrite H2, Hl. reflexivity.
    + reflexivity.
    + reflexivity.
  - exists None. auto.
Qed.

(** Everything a successful match has seen: blanks, an optional [v], the
    pieces of the version, blanks. *)
Theorem match_shape (s : str) (m : groups) :
  re_match VERSION_PERMISSIVE s = Some m ->
  exists ws1 v p ws2,
    s = ws1 ++ v ++ text_of p ++ ws2 /\
    forallb is_space ws1 = true /\ (v = [] \/ v = ("v" : str)) /\
    wf_parsed p = true /\ m = groups_of p /\
    forallb is_space ws2 = true.
Proof.
  unfold re_match. intros H. apply exec_sound in H.
  destruct H as (w & rest & c' & -> & H & Hk). injection Hk as ->.
  unfold VERSION_PERMISSIVE, CORE in H.
  apply matches_Cat in H. destruct H as (ws1 & w1 & c1 & -> & Hs1 & H).
  apply matches_Star_Cls in Hs1. destruct Hs1 as [Hs1 ->].
  apply matches_Cat in H. destruct H as (v & w2 & c2 & -> & Hv & H).
  apply matches_Opt in Hv.
  assert (Hv' : (v = [] \/ v = ("v" : str)) /\ c2 = []).
  { destruct Hv as [Hv|[-> ->]]; auto.
    apply matches_Chr in Hv. destruct Hv as [-> ->]. auto. }
  clear Hv. destruct Hv' as [Hv ->].
  apply matches_Cat in H. destruct H as (core & w3 & c3 & -> & Hc & H).
  apply matches_Cat in Hc. destruct Hc as (te & w4 & c4 & -> & He & Hc).
  apply matches_EPOCH in He. destruct He as (e & We & -> & ->).
  apply matches_Cat in Hc. destruct Hc as (tr & w5 & c5 & -> & Hr & Hc).
  apply matches_RELEASE in Hr. destruct Hr as (r & Wr & -> & ->).
  apply matches_Cat in Hc. destruct Hc as (tp & w6 & c6 & -> & Hp & Hc).
  apply matches_PRE in Hp. destruct Hp as (pre & Wp & -> & ->).
  apply matches_Cat in Hc. destruct Hc as (to & td & c7 & -> & Ho & Hd).
  apply matches_POST in Ho. destruct Ho as (post & Wo & -> & ->).
  apply matches_DEV in Hd. destruct Hd as (dev & Wd & -> & ->).
  apply matches_Cat in H. destruct H as (tl & w7 & c8 & -> & Hl & H).
  apply matches_LOCAL in Hl. destruct Hl as (loc & Wl & -> & ->).
  apply matches_Cat in H. destruct H as (ws2 & w8 & c9 & -> & Hs2 & H).
  apply matches_Star_Cls in Hs2. destruct Hs2 as [Hs2 ->].
  apply matches_Eol in H. destruct H as (-> & -> & Hrest).
  exists ws1, v, (Parsed e r pre post dev loc), (ws2 ++ rest).
  split; [|split; [|split; [|split; [|split]]]]; auto.
  - unfold text_of. cbn [p_epoch p_release p_pre p_post p_dev p_local].
    rewrite List.app_nil_r. rewrite <- !app_assoc. reflexivity.
  - unfold wf_parsed. cbn [p_epoch p_release p_pre p_post p_dev p_local].
    rewrite We, Wr, Wp, Wo, Wd, Wl. reflexivity.
  - unfold groups_of. cbn [p_epoch p_release p_pre p_post p_dev p_local].
    rewrite !List.app_nil_r. reflexivity.
  - rewrite forallb_app, Hs2. destruct Hrest as [->| ->]; reflexivity.
Qed.

(** * Decimal literals *)

Ltac ascii_cases a := destruct a as [[] [] [] [] [] [] [] []].

(** Leading zeros dropped, the last digit kept. *)
Fixpoint strip_zeros (w : str) : str :=
  match w with
  | a :: ((_ :: _) as w') => if Ascii.eqb a "0" then strip_zeros w' else w
  | _ => w
  end.

Lemma digit_of_char_spec (a : ascii) :
  is_digit a = true ->
  exists d, digit_of_char a = Some d /\
            (forall u, chars_of_uint (d u) = a :: chars_of_uint u) /\
            (forall u, d u <> Decimal.Nil) /\
            (forall u, Decimal.unorm (d u) =
                       if Ascii.eqb a "0" then Decimal.unorm u else d u).
Proof.
  ascii_cases a; intros H; try discriminate H;
    eexists; (split; [reflexivity|]);
    (split; [reflexivity|]); (split; [discriminate|]);
    intros u; try reflexivity; apply DecimalFacts.unorm_D0.
Qed.

Lemma uint_of_digits (w : str) :
  forallb is_digit w = true ->
  exists u, uint_of_chars w = Some u /\ chars_of_uint u = w /\
            chars_of_uint (Decimal.unorm u) =
            match w with [] => ("0" : str) | _ => strip_zeros w end.
Proof.
  induction w as [|a w IH]; intros H.
  - exists Decimal.Nil. auto.
  - simpl in H. apply andb_true_iff in H. destruct H as [Ha Hw].
    destruct (IH Hw) as (u & Hu & Hc & Hn).
    destruct (digit_of_char_spec a Ha) as (d & Hd & Hd1 & Hd2 & Hd3).
    exists (d u). simpl. rewrite Hd, Hu. split; [reflexivity|].
    split; [rewrite Hd1, Hc; reflexivity|].
    rewrite Hd3. destruct (Ascii.eqb a "0") eqn:Ea.
    + apply Ascii.eqb_eq in Ea. subst a. rewrite Hn.
      destruct w; reflexivity.
    + rewrite Hd1, Hc. destruct w; reflexivity.
Qed.

(** A literal that [int] converts: one within the limit on the digits. *)
Definition short (w : str) : bool :=
  Nat.leb (List.length w) int_max_str_digits.

Lemma strip_zeros_length (w : str) :
  List.length (strip_zeros w) <= List.length w.
Proof.
  induction w as [|a w IH]; [apply le_n|].
  destruct w as [|b w]; [apply le_n|].
  change (strip_zeros (a :: b :: w))
    with (if Ascii.eqb a "0" then strip_zeros (b :: w) else a :: b :: w).
  destruct (Ascii.eqb a "0"); [|apply le_n].
  apply le_S. exact IH.
Qed.

Lemma short_strip_zeros (w : str) :
  short w = true -> short (strip_zeros w) = true.
Proof.
  unfold short. intros H. apply Nat.leb_le. apply Nat.leb_le in H.
  apply (Nat.le_trans _ _ _ (strip_zeros_length w) H).
Qed.

Lemma short_zero : short "0" = true.
Proof. reflexivity. Qed.

(** [str(int(w))] drops the leading zeros of a run of digits, and raises
    [ValueError] when the run is over the limit. *)
Lemma str_int_spec (w : str) :
  is_run is_digit w = true ->
  str_int w = if short w then Ok (strip_zeros w) else Raise ValueError.
Proof.
  intros H. destruct w as [|a w]; [discriminate|].
  destruct (uint_of_digits (a :: w) H) as (u & Hu & _ & Hn).
  unfold str_int, int. rewrite Hu.
  change (Nat.leb (List.length (a :: w)) int_max_str_digits)
    with (short (a :: w)).
  destruct (short (a :: w)) eqn:Hs; [|reflexivity].
  cbn [bind]. unfold str_of_int. rewrite DecimalN.Unsigned.to_of, Hn.
  change (Nat.leb (List.length (strip_zeros (a :: w))) int_max_str_digits)
    with (short (strip_zeros (a :: w))).
  rewrite (short_strip_zeros _ Hs). reflexivity.
Qed.

Lemma str_int_digits (w : str) :
  is_run is_digit w = true -> short w = true ->
  str_int w = Ok (strip_zeros w).
Proof. intros H Hs. rewrite (str_int_spec w H), Hs. reflexivity. Qed.

Lemma strip_zeros_digits (w : str) :
  is_run is_digit w = true -> is_run is_digit (strip_zeros w) = true.
Proof.
  induction w as [|a w IH]; intros H; [discriminate|].
  destruct w as [|b w]; [exact H|].
  change (strip_zeros (a :: b :: w))
    with (if Ascii.eqb a "0" then strip_zeros (b :: w) else a :: b :: w).
  destruct (Ascii.eqb a "0"); [|exact H].
  apply IH. simpl in H. apply andb_true_iff in H. apply H.
Qed.

(** A literal without leading zeros: a single digit, or a first digit
    other than 0. *)
Definition no_leading_zero (w : str) : bool :=
  match w with
  | a :: _ :: _ => negb (Ascii.eqb a "0")
  | _ => true
  end.

Lemma strip_zeros_fixed (w : str) :
  no_leading_zero w = true -> strip_zeros w = w.
Proof.
  destruct w as [|a [|b w]]; auto. simpl.
  destruct (Ascii.eqb a "0"); [discriminate|reflexivity].
Qed.

Lemma strip_zeros_no_leading_zero (w : str) :
  no_leading_zero (strip_zeros w) = true.
Proof.
  induction w as [|a w IH]; [reflexivity|].
  destruct w as [|b w]; [reflexivity|].
  change (strip_zeros (a :: b :: w))
    with (if Ascii.eqb a "0" then strip_zeros (b :: w) else a :: b :: w).
  destruct (Ascii.eqb a "0") eqn:E; [exact IH|].
  simpl. rewrite E. reflexivity.
Qed.

Lemma strip_zeros_idem (w : str) :
  strip_zeros (strip_zeros w) = strip_zeros w.
Proof. apply strip_zeros_fixed, strip_zeros_no_leading_zero. Qed.

(** * [split], [join] and [replace] *)

Definition lacks (a : ascii) (w : str) : bool :=
  forallb (fun x => negb (Ascii.eqb x a)) w.

Lemma split_app_sep a w : forall s,
  lacks a w = true -> split a (w ++ a :: s) = w :: split a s.
Proof.
  induction w as [|x w IH]; intros s H; simpl.
  - rewrite Ascii.eqb_refl. reflexivity.
  - simpl in H. apply andb_true_iff in H. destruct H as [Hx Hw].
    apply negb_true_iff in Hx. rewrite Hx. rewrite IH by exact Hw.
    reflexivity.
Qed.

Lemma split_lacks a w : lacks a w = true -> split a w = [w].
Proof.
  induction w as [|x w IH]; intros H; simpl; [reflexivity|].
  simpl in H. apply andb_true_iff in H. destruct H as [Hx Hw].
  apply negb_true_iff in Hx. rewrite Hx. rewrite IH by exact Hw.
  reflexivity.
Qed.

Lemma split_join a (l : list str) :
  l <> [] -> forallb (lacks a) l = true -> split a (join [a] l) = l.
Proof.
  induction l as [|w l IH]; intros Hne H; [congruence|].
  simpl in H. apply andb_true_iff in H. destruct H as [Hw Hl].
  destruct l as [|w' l].
  - simpl. apply split_lacks. exact Hw.
  - change (join [a] (w :: w' :: l)) with (w ++ a :: join [a] (w' :: l)).
    rewrite split_app_sep by exact Hw. rewrite IH; [reflexivity| |exact Hl].
    discriminate.
Qed.

Lemma forallb_impl {A : Type} (p q : A -> bool) (l : list A) :
  (forall x, p x = true -> q x = true) ->
  forallb p l = true -> forallb q l = true.
Proof.
  intros Hpq. induction l as [|x l IH]; simpl; [reflexivity|].
  intros H. apply andb_true_iff in H. destruct H as [Hx Hl].
  rewrite (Hpq x Hx), (IH Hl). reflexivity.
Qed.

Lemma is_run_forallb p w : is_run p w = true -> forallb p w = true.
Proof. destruct w; [discriminate|auto]. Qed.

Lemma digit_not_dot x : is_digit x = true -> negb (Ascii.eqb x ".") = true.
Proof. ascii_cases x; intros H; try discriminate H; reflexivity. Qed.

Lemma alnum_not_dot x : is_alnum x = true -> negb (Ascii.eqb x ".") = true.
Proof. ascii_cases x; intros H; try discriminate H; reflexivity. Qed.

Lemma digits_lack_dot w : is_run is_digit w = true -> lacks "." w = true.
Proof.
  intros H. apply is_run_forallb in H. revert H. apply forallb_impl.
  apply digit_not_dot.
Qed.

Lemma alnums_lack_dot w : is_run is_alnum w = true -> lacks "." w = true.
Proof.
  intros H. apply is_run_forallb in H. revert H. apply forallb_impl.
  apply alnum_not_dot.
Qed.

(** The two [replace] calls of the source, on one character. *)
Definition undash (x : ascii) : ascii :=
  (fun y => if Ascii.eqb y "_" then "."%char else y)
    (if Ascii.eqb x "-" then "."%char else x).

Lemma replace_replace (s : str) :
  replace "_" "." (replace "-" "." s) = map undash s.
Proof. unfold replace. rewrite map_map. reflexivity. Qed.

Lemma undash_alnum x : is_alnum x = true -> undash x = x.
Proof. ascii_cases x; intros H; try discriminate H; reflexivity. Qed.

Lemma undash_sep x : is_sep x = true -> undash x = "."%char.
Proof. ascii_cases x; intros H; try discriminate H; reflexivity. Qed.

Lemma map_undash_alnums w : forallb is_alnum w = true -> map undash w = w.
Proof.
  induction w as [|x w IH]; simpl; [reflexivity|]. intros H.
  apply andb_true_iff in H. destruct H as [Hx Hw].
  rewrite (undash_alnum x Hx), (IH Hw). reflexivity.
Qed.

(** The segments of a local version label. *)
Definition local_segments (l : local_t) : list str :=
  local_head l :: map snd (local_tail l).

Lemma undash_local_label (l : local_t) :
  wf_local l = true ->
  map undash (local_label l) = join ["."%char] (local_segments l).
Proof.
  destruct l as [h t]. unfold wf_local, local_label, local_segments.
  cbn [local_head local_tail]. intros H.
  apply andb_true_iff in H. destruct H as [Hh Ht].
  rewrite join_cons. rewrite map_app.
  rewrite (map_undash_alnums h (is_run_forallb _ _ Hh)). f_equal.
  induction t as [|[x w] t IH]; [reflexivity|].
  simpl in Ht. apply andb_true_iff in Ht. destruct Ht as [Hxw Ht].
  apply andb_true_iff in Hxw. destruct Hxw as [Hx Hw].
  simpl. rewrite map_app. simpl. rewrite (undash_sep x Hx).
  rewrite (map_undash_alnums w (is_run_forallb _ _ Hw)).
  rewrite (IH Ht). reflexivity.
Qed.

Lemma local_segments_wf (l : local_t) :
  wf_local l = true -> forallb (is_run is_alnum) (local_segments l) = true.
Proof.
  destruct l as [h t]. unfold wf_local, local_segments.
  cbn [local_head local_tail]. intros H.
  apply andb_true_iff in H. destruct H as [Hh Ht].
  simpl. rewrite Hh. simpl.
  induction t as [|[x w] t IH]; [reflexivity|].
  simpl in Ht. apply andb_true_iff in Ht. destruct Ht as [Hxw Ht].
  apply andb_true_iff in Hxw. destruct Hxw as [Hx Hw].
  simpl. rewrite Hw, (IH Ht). reflexivity.
Qed.

(** [local.replace("-", ".").replace("_", ".").split(".")] *)
Lemma split_local_label (l : local_t) :
  wf_local l = true ->
  split "." (replace "_" "." (replace "-" "." (local_label l))) =
  local_segments l.
Proof.
  intros H. rewrite replace_replace, undash_local_label by exact H.
  apply split_join; [discriminate|].
  generalize (local_segments_wf l H). apply forallb_impl.
  apply alnums_lack_dot.
Qed.

Lemma isdigit_alnums (w : str) :
  forallb is_alnum w = true -> isdigit w = is_run is_digit w.
Proof.
  intros H. destruct w as [|a w]; [reflexivity|].
  unfold isdigit, is_run. revert H. generalize (a :: w). clear.
  induction l as [|x l IH]; simpl; [reflexivity|]. intros H.
  apply andb_true_iff in H. destruct H as [Hx Hl]. rewrite (IH Hl).
  f_equal. revert Hx. clear. ascii_cases x; intros H; try discriminate H;
    reflexivity.
Qed.

(** One segment of the local version as the source rewrites it. *)
Definition norm_segment (w : str) : str :=
  if is_run is_digit w then strip_zeros w else w.

(** The all-digit segments are converted one after the other: the first
    one over the limit raises [ValueError]. *)
Lemma mapM_segments (l : list str) :
  forallb (is_run is_alnum) l = true ->
  mapM (fun c => if isdigit c then str_int c else Ok c) l =
  if forallb short (filter (is_run is_digit) l)
  then Ok (map norm_segment l) else Raise ValueError.
Proof.
  induction l as [|w l IH]; [reflexivity|]. intros H.
  cbn [forallb] in H. apply andb_true_iff in H. destruct H as [Hw Hl].
  cbn [mapM filter map].
  rewrite (IH Hl), (isdigit_alnums w (is_run_forallb _ _ Hw)). clear IH.
  destruct (is_run is_digit w) eqn:E.
  - rewrite (str_int_spec w E). cbn [forallb].
    destruct (short w); [|reflexivity]. cbn [bind andb].
    destruct (forallb short (filter (is_run is_digit) l)); [|reflexivity].
    cbn [bind].
    change (norm_segment w)
      with (if is_run is_digit w then strip_zeros w else w).
    rewrite E. reflexivity.
  - cbn [bind].
    destruct (forallb short (filter (is_run is_digit) l)); [|reflexivity].
    cbn [bind].
    change (norm_segment w)
      with (if is_run is_digit w then strip_zeros w else w).
    rewrite E. reflexivity.
Qed.

Lemma mapM_str_int (l : list str) :
  forallb (is_run is_digit) l = true ->
  mapM str_int l =
  if forallb short l then Ok (map strip_zeros l) else Raise ValueError.
Proof.
  induction l as [|w l IH]; [reflexivity|]. intros H.
  cbn [forallb] in H. apply andb_true_iff in H. destruct H as [Hw Hl].
  cbn [mapM map forallb]. rewrite (IH Hl), (str_int_spec w Hw).
  destruct (short w); [|reflexivity]. cbn [bind andb].
  destruct (forallb short l); reflexivity.
Qed.

(** [release.split(".")] *)
Lemma split_release (l : list str) :
  wf_release l = true -> split "." (join "." l) = l.
Proof.
  intros H. apply split_join.
  - destruct l; [discriminate|discriminate].
  - destruct l; [discriminate|]. revert H. apply forallb_impl.
    apply digits_lack_dot.
Qed.

(** * The canonical text of a matched version *)

(** The table of the spellings, by cases. *)
Definition canonical_tag (l : str) : str :=
  if mem l ["a" : str; "alpha" : str] then "a"
  else if mem l ["b" : str; "beta" : str] then "b"
  else "rc".

Definition num_or_zero (o : option str) : str :=
  match o with
  | None => "0"
  | Some n => strip_zeros n
  end.

Definition post_number (p : post_t) : str :=
  match p with
  | Post1 n => strip_zeros n
  | Post2 _ _ _ n => num_or_zero n
  end.

Definition c_epoch (p : parsed) : str :=
  opt_text (fun e => strip_zeros e ++ "!") (p_epoch p).

Definition c_release (p : parsed) : str :=
  join "." (map strip_zeros (p_release p)).

Definition c_pre (p : parsed) : str :=
  opt_text (fun pr => canonical_tag (pre_l pr) ++ num_or_zero (pre_n pr))
           (p_pre p).

Definition c_post (p : parsed) : str :=
  opt_text (fun po => ".post" ++ post_number po) (p_post p).

Definition c_dev (p : parsed) : str :=
  opt_text (fun d => ".dev" ++ num_or_zero (dev_n d)) (p_dev p).

Definition c_local (p : parsed) : str :=
  opt_text (fun l => "+" ++ join "." (map norm_segment (local_segments l)))
           (p_local p).

Definition canonical (p : parsed) : str :=
  c_epoch p ++ c_release p ++ c_pre p ++ c_post p ++ c_dev p ++ c_local p.

Ltac parsed_cases p :=
  destruct p as [[?|] ? [[? ? ? [?|]]|] [[?|? ? ? [?|]]|] [[? ? [?|]]|] [?|]].

Lemma group_epoch p : group (groups_of p) "epoch" = p_epoch p.
Proof. parsed_cases p; reflexivity. Qed.

Lemma group_release p :
  group (groups_of p) "release" = Some (join "." (p_release p)).
Proof. parsed_cases p; reflexivity. Qed.

Lemma group_pre_l p :
  group (groups_of p) "pre_l" = option_map pre_l (p_pre p).
Proof. parsed_cases p; reflexivity. Qed.

Lemma group_pre_n p :
  group (groups_of p) "pre_n" =
  match p_pre p with Some pr => pre_n pr | None => None end.
Proof. parsed_cases p; reflexivity. Qed.

Lemma group_post_n1 p :
  group (groups_of p) "post_n1" =
  match p_post p with Some (Post1 n) => Some n | _ => None end.
Proof. parsed_cases p; reflexivity. Qed.

Lemma group_post_l p :
  group (groups_of p) "post_l" =
  match p_post p with Some (Post2 _ l _ _) => Some l | _ => None end.
Proof. parsed_cases p; reflexivity. Qed.

Lemma group_post_n2 p :
  group (groups_of p) "post_n2" =
  match p_post p with Some (Post2 _ _ _ n) => n | _ => None end.
Proof. parsed_cases p; reflexivity. Qed.

Lemma group_dev_l p :
  group (groups_of p) "dev_l" =
  match p_dev p with Some _ => Some ("dev" : str) | None => None end.
Proof. parsed_cases p; reflexivity. Qed.

Lemma group_dev_n p :
  group (groups_of p) "dev_n" =
  match p_dev p with Some d => dev_n d | None => None end.
Proof. parsed_cases p; reflexivity. Qed.

Lemma group_local p :
  group (groups_of p) "local" = option_map local_label (p_local p).
Proof. parsed_cases p; reflexivity. Qed.

Lemma mem_cases (w : str) (l : list str) :
  mem w l = true -> In w l.
Proof.
  unfold mem. intros H. apply existsb_exists in H.
  destruct H as (x & Hx & E). apply str_eqb_eq in E. subst. exact Hx.
Qed.

(** [pre_spellings[pre_l]] for the spellings the pattern lets through. *)
Lemma getitem_pre_spellings (l : str) :
  mem l pre_tags = true ->
  getitem pre_spellings l = Ok (canonical_tag l).
Proof.
  intros H. apply mem_cases in H. unfold pre_tags in H. simpl in H.
  repeat (destruct H as [<-|H]; [reflexivity|]). contradiction.
Qed.

(** An optional value as a list. *)
Definition opt_list {A : Type} (o : option A) : list A :=
  match o with
  | Some a => [a]
  | None => []
  end.

Lemma num_or_zero_spec (o : option str) :
  is_num_opt o = true ->
  match o with
  | None => Ok ("0" : str)
  | Some n => str_int n
  end = if forallb short (opt_list o) then Ok (num_or_zero o)
        else Raise ValueError.
Proof.
  destruct o as [n|]; [|reflexivity]. intros H.
  cbn [opt_list forallb num_or_zero]. rewrite andb_true_r.
  apply str_int_spec. exact H.
Qed.

Lemma short_num_or_zero (o : option str) :
  forallb short (opt_list o) = true -> short (num_or_zero o) = true.
Proof.
  destruct o as [n|]; [|reflexivity]. cbn [opt_list forallb num_or_zero].
  rewrite andb_true_r. apply short_strip_zeros.
Qed.

Lemma num_or_zero_digits (o : option str) :
  is_num_opt o = true -> is_run is_digit (num_or_zero o) = true.
Proof.
  destruct o as [n|]; simpl; [|reflexivity]. apply strip_zeros_digits.
Qed.

Lemma num_or_zero_fixed (o : option str) :
  strip_zeros (num_or_zero o) = num_or_zero o.
Proof. destruct o as [n|]; [apply strip_zeros_idem|reflexivity]. Qed.

(** The list of components a piece contributes. *)
Definition piece {A : Type} (f : A -> str) (o : option A) : list str :=
  match o with
  | Some a => [f a]
  | None => []
  end.

Lemma concat_piece {A : Type} (f : A -> str) (o : option A) (l : list str) :
  List.concat (piece f o ++ l) = opt_text f o ++ List.concat l.
Proof. destruct o; reflexivity. Qed.

(** The literals of a version that [normalize_version] hands to [int], in
    the order of the calls: the epoch, the numbers of the release, the
    numbers of the pre-release, of the post release and of the dev release,
    and the all-digit segments of the local version. *)
Definition opt_ints {A : Type} (f : A -> list str) (o : option A)
  : list str :=
  match o with
  | Some a => f a
  | None => []
  end.

Definition pre_ints (pr : pre_t) : list str := opt_list (pre_n pr).

Definition post_ints (po : post_t) : list str :=
  match po with
  | Post1 n => [n]
  | Post2 _ _ _ n => opt_list n
  end.

Definition dev_ints (d : dev_t) : list str := opt_list (dev_n d).

Definition local_ints (l : local_t) : list str :=
  filter (is_run is_digit) (local_segments l).

Definition ints_of (p : parsed) : list str :=
  opt_list (p_epoch p) ++ p_release p ++
  opt_ints pre_ints (p_pre p) ++ opt_ints post_ints (p_post p) ++
  opt_ints dev_ints (p_dev p) ++ opt_ints local_ints (p_local p).

(** Every number of the version is within the limit of [int]. *)
Definition small (p : parsed) : bool := forallb short (ints_of p).

(** The same literals, read off the groups of a match as the source reads
    them. *)
Definition literals (m : groups) : list str :=
  opt_list (group m "epoch") ++
  match group m "release" with
  | Some release => split "." release
  | None => []
  end ++
  opt_list (group m "pre_n") ++
  opt_list (group m "post_n1") ++ opt_list (group m "post_n2") ++
  opt_list (group m "dev_n") ++
  match group m "local" with
  | Some local =>
      filter isdigit (split "." (replace "_" "." (replace "-" "." local)))
  | None => []
  end.

Definition within_limit (m : groups) : bool := forallb short (literals m).

Lemma filter_isdigit (l : list str) :
  forallb (is_run is_alnum) l = true ->
  filter isdigit l = filter (is_run is_digit) l.
Proof.
  induction l as [|w l IH]; [reflexivity|]. intros H.
  cbn [forallb] in H. apply andb_true_iff in H. destruct H as [Hw Hl].
  cbn [filter]. rewrite (isdigit_alnums w (is_run_forallb _ _ Hw)), (IH Hl).
  reflexivity.
Qed.

Lemma literals_groups_of (p : parsed) :
  wf_parsed p = true -> literals (groups_of p) = ints_of p.
Proof.
  intros W. unfold literals, ints_of.
  rewrite group_epoch, group_release, group_pre_n, group_post_n1,
    group_post_n2, group_dev_n, group_local.
  destruct p as [e r pre post dev loc]. unfold wf_parsed in W.
  cbn [p_epoch p_release p_pre p_post p_dev p_local] in *.
  apply andb_true_iff in W. destruct W as [W Wl].
  apply andb_true_iff in W. destruct W as [W _].
  apply andb_true_iff in W. destruct W as [W _].
  apply andb_true_iff in W. destruct W as [W _].
  apply andb_true_iff in W. destruct W as [_ Wr].
  rewrite (split_release r Wr). do 2 f_equal.
  f_equal; [destruct pre; reflexivity|].
  rewrite app_assoc.
  f_equal; [destruct post as [[n|s1 l s2 n]|]; cbn [opt_list app];
            try rewrite List.app_nil_r; reflexivity|].
  f_equal; [destruct dev; reflexivity|].
  destruct loc as [l|]; [|reflexivity]. cbn [option_map opt_wf] in *.
  rewrite (split_local_label l Wl).
  apply filter_isdigit, local_segments_wf, Wl.
Qed.

Lemma within_limit_groups_of (p : parsed) :
  wf_parsed p = true -> within_limit (groups_of p) = small p.
Proof.
  intros W. unfold within_limit, small. rewrite (literals_groups_of p W).
  reflexivity.
Qed.

Ltac bind_step X b :=
  match goal with
  | |- bind ?a _ = _ =>
      let H := fresh in
      assert (H : a = if b then Ok X else Raise ValueError);
      [|rewrite H; clear H; destruct b; cbn [bind andb]; [|reflexivity]]
  end.

(** On a matched input the source emits the canonical text of what was
    matched when every number is within the limit of [int], and raises
    [ValueError] otherwise. *)
Lemma normalize_parsed (env : environ) (s : str) (p : parsed) :
  re_match VERSION_PERMISSIVE (lower s) = Some (groups_of p) ->
  wf_parsed p = true ->
  normalize_version env s =
  if small p then Ok (canonical p) else Raise ValueError.
Proof.
  intros Hm Hwf. unfold normalize_version. rewrite Hm.
  rewrite group_epoch, group_release, group_pre_l, group_pre_n,
    group_post_n1, group_post_l, group_post_n2, group_dev_l, group_dev_n,
    group_local.
  unfold canonical, c_epoch, c_release, c_pre, c_post, c_dev, c_local.
  unfold small, ints_of. rewrite !forallb_app.
  destruct p as [e r pre post dev loc].
  unfold wf_parsed in Hwf.
  cbn [p_epoch p_release p_pre p_post p_dev p_local] in *.
  apply andb_true_iff in Hwf. destruct Hwf as [Hwf Wl].
  apply andb_true_iff in Hwf. destruct Hwf as [Hwf Wd].
  apply andb_true_iff in Hwf. destruct Hwf as [Hwf Wo].
  apply andb_true_iff in Hwf. destruct Hwf as [Hwf Wp].
  apply andb_true_iff in Hwf. destruct Hwf as [We Wr].
  bind_step (piece (fun e => strip_zeros e ++ "!") e)
            (forallb short (opt_list e)).
  { destruct e as [e|]; [|reflexivity].
    cbn [opt_wf] in We. cbn [opt_list forallb piece].
    rewrite andb_true_r, (str_int_spec e We).
    destruct (short e); reflexivity. }
  bind_step [join "." (map strip_zeros r)] (forallb short r).
  { rewrite (split_release r Wr).
    rewrite mapM_str_int by (destruct r; [discriminate|exact Wr]).
    destruct (forallb short r); reflexivity. }
  bind_step (piece (fun pr => canonical_tag (pre_l pr) ++ num_or_zero (pre_n pr))
                   pre)
            (forallb short (opt_ints pre_ints pre)).
  { destruct pre as [[s1 l s2 n]|]; [|reflexivity].
    unfold opt_wf, wf_pre in Wp. cbn [pre_sep1 pre_l pre_sep2 pre_n] in Wp.
    apply andb_true_iff in Wp. destruct Wp as [Wp Wn].
    apply andb_true_iff in Wp. destruct Wp as [Wp _].
    apply andb_true_iff in Wp. destruct Wp as [_ Wt].
    cbn [option_map pre_l pre_n piece opt_ints]. unfold pre_ints.
    cbn [pre_n].
    rewrite (getitem_pre_spellings l Wt). cbn [bind].
    rewrite (num_or_zero_spec n Wn).
    destruct (forallb short (opt_list n)); reflexivity. }
  bind_step (piece (fun po => ".post" ++ post_number po) post)
            (forallb short (opt_ints post_ints post)).
  { destruct post as [[n1|s1 l s2 n2]|]; [| |reflexivity].
    - cbn [opt_wf wf_post] in Wo.
      cbn [forallb piece post_number opt_ints post_ints].
      rewrite andb_true_r, (str_int_spec n1 Wo).
      destruct (short n1); reflexivity.
    - unfold opt_wf, wf_post in Wo.
      apply andb_true_iff in Wo. destruct Wo as [_ Wn].
      cbn [opt_ints post_ints].
      rewrite (num_or_zero_spec n2 Wn).
      destruct (forallb short (opt_list n2)) eqn:Hs; [|reflexivity].
      cbn [bind].
      rewrite (str_int_digits _ (num_or_zero_digits n2 Wn)
                 (short_num_or_zero n2 Hs)).
      rewrite num_or_zero_fixed. reflexivity. }
  bind_step (piece (fun d => ".dev" ++ num_or_zero (dev_n d)) dev)
            (forallb short (opt_ints dev_ints dev)).
  { destruct dev as [[s1 s2 n]|]; [|reflexivity].
    unfold opt_wf, wf_dev in Wd. cbn [dev_sep1 dev_sep2 dev_n] in Wd.
    apply andb_true_iff in Wd. destruct Wd as [_ Wn].
    cbn [dev_n piece opt_ints]. unfold dev_ints. cbn [dev_n].
    rewrite (num_or_zero_spec n Wn).
    destruct (forallb short (opt_list n)); reflexivity. }
  bind_step (piece (fun l => "+" ++ join "." (map norm_segment
                                                 (local_segments l))) loc)
            (forallb short (opt_ints local_ints loc)).
  { destruct loc as [l|]; [|reflexivity].
    cbn [option_map opt_wf opt_ints] in *. unfold local_ints.
    rewrite (split_local_label l Wl).
    rewrite (mapM_segments _ (local_segments_wf l Wl)).
    destruct (forallb short (filter (is_run is_digit) (local_segments l)));
      reflexivity. }
  rewrite concat_piece. f_equal.
  cbn [app]. rewrite concat_cons. f_equal.
  rewrite !concat_piece. do 4 f_equal.
  destruct loc; [apply List.app_nil_r|reflexivity].
Qed.

(** * Running the matcher forwards

    One lemma per step of the matcher, to follow a run on a text whose
    pieces are known. *)

Definition head_is (p : ascii -> bool) (s : str) : bool :=
  match s with
  | a :: _ => p a
  | [] => false
  end.

Lemma exec_Alt_l r1 r2 (k : cont) s c m :
  exec r1 k s c = Some m -> exec (Alt r1 r2) k s c = Some m.
Proof. intros H. simpl. rewrite H. reflexivity. Qed.

Lemma exec_Alt_r r1 r2 (k : cont) s c :
  exec r1 k s c = None -> exec (Alt r1 r2) k s c = exec r2 k s c.
Proof. intros H. simpl. rewrite H. reflexivity. Qed.

Lemma exec_Opt_take r (k : cont) s c m :
  exec r k s c = Some m -> exec (Opt r) k s c = Some m.
Proof. apply exec_Alt_l. Qed.

Lemma exec_Opt_skip r (k : cont) s c :
  exec r k s c = None -> exec (Opt r) k s c = k s c.
Proof. intros H. unfold Opt. rewrite exec_Alt_r by exact H. reflexivity. Qed.

Lemma exec_Cls_head p (k : cont) s c :
  head_is p s = false -> exec (Cls p) k s c = None.
Proof.
  destruct s as [|a s]; simpl; [reflexivity|]. intros ->. reflexivity.
Qed.

Lemma exec_Cls_cons p (k : cont) a s c :
  exec (Cls p) k (a :: s) c = if p a then k s c else None.
Proof. reflexivity. Qed.

Lemma exec_Lit u (k : cont) s c : exec (Lit u) k (u ++ s) c = k s c.
Proof.
  revert k. induction u as [|a u IH]; intros k; simpl; [reflexivity|].
  rewrite Ascii.eqb_refl. apply IH.
Qed.

Lemma exec_Star_Cls_run p (k : cont) rest c m : forall w,
  forallb p w = true -> head_is p rest = false -> k rest c = Some m ->
  exec (Star (Cls p)) k (w ++ rest) c = Some m.
Proof.
  induction w as [|a w IH]; intros Hw Hr Hk; rewrite exec_star.
  - simpl app. rewrite exec_Cls_head by exact Hr. exact Hk.
  - simpl in Hw. apply andb_true_iff in Hw. destruct Hw as [Ha Hw].
    rewrite <- app_comm_cons, exec_Cls_cons, Ha.
    destruct (Nat.ltb_spec (List.length (w ++ rest))
                (List.length (a :: w ++ rest))) as [_|Hge];
      [|simpl in Hge; lia].
    rewrite IH; auto.
Qed.

Lemma exec_Plus_Cls_run p (k : cont) w rest c m :
  is_run p w = true -> head_is p rest = false -> k rest c = Some m ->
  exec (Plus (Cls p)) k (w ++ rest) c = Some m.
Proof.
  intros Hw Hr Hk. destruct w as [|a w]; [discriminate|].
  simpl in Hw. apply andb_true_iff in Hw. destruct Hw as [Ha Hw].
  unfold Plus. change (exec (Cat (Cls p) (Star (Cls p))) k
                         ((a :: w) ++ rest) c)
    with (if p a then exec (Star (Cls p)) k (w ++ rest) c else None).
  rewrite Ha. apply exec_Star_Cls_run; auto.
Qed.

Lemma exec_Group_run g r (k : cont) w rest c m :
  (forall k', (forall c', k' rest c' = k rest ((g, w) :: c')) ->
              exec r k' (w ++ rest) c = Some m) ->
  exec (Group g r) k (w ++ rest) c = Some m.
Proof.
  intros H. simpl. apply H. intros c'. rewrite firstn_consumed. reflexivity.
Qed.

(** [(?P<name>[0-9]+)] on a run of digits. *)
Lemma exec_num g p (k : cont) w rest c m :
  is_run p w = true -> head_is p rest = false ->
  k rest ((g, w) :: c) = Some m ->
  exec (Group g (Plus (Cls p))) k (w ++ rest) c = Some m.
Proof.
  intros Hw Hr Hk. apply exec_Group_run. intros k' Hk'.
  apply exec_Plus_Cls_run; auto. rewrite Hk'. exact Hk.
Qed.

Lemma exec_Cat r1 r2 (k : cont) s c :
  exec (Cat r1 r2) k s c = exec r1 (exec r2 k) s c.
Proof. reflexivity. Qed.

(** ** Blanks after the text

    A pattern none of whose classes accepts a blank, and without [$], runs
    on [s ++ w] as it runs on [s] when [w] is made of blanks. *)

Fixpoint spacefree (r : regex) : Prop :=
  match r with
  | Eps => True
  | Cls p => forall a, is_space a = true -> p a = false
  | Cat r1 r2 | Alt r1 r2 => spacefree r1 /\ spacefree r2
  | Star r1 | Group _ r1 => spacefree r1
  | Eol => False
  end.

Lemma firstn_app_left (s w : str) (t : str) :
  firstn (List.length (s ++ w) - List.length (t ++ w)) (s ++ w) =
  firstn (List.length s - List.length t) s.
Proof.
  rewrite !length_app.
  replace (List.length s + List.length w - (List.length t + List.length w))
    with (List.length s - List.length t) by lia.
  rewrite firstn_app.
  replace (List.length s - List.length t - List.length s) with 0 by lia.
  simpl. apply List.app_nil_r.
Qed.

Lemma exec_blanks_after (w : str) (Hw : forallb is_space w = true)
  (r : regex) :
  spacefree r ->
  forall (k k' : cont) s c,
    (forall t c', k (t ++ w) c' = k' t c') ->
    exec r k (s ++ w) c = exec r k' s c.
Proof.
  induction r as [|p|r1 IH1 r2 IH2|r1 IH1 r2 IH2|r IH|g r IH|];
    intros Hr k k' s c Hk.
  - simpl. apply Hk.
  - simpl in Hr. destruct s as [|a s].
    + simpl. destruct w as [|b w]; [reflexivity|].
      simpl in Hw. apply andb_true_iff in Hw. destruct Hw as [Hb _].
      rewrite (Hr b Hb). reflexivity.
    + simpl. destruct (p a); [apply Hk|reflexivity].
  - destruct Hr as [Hr1 Hr2]. rewrite !exec_Cat.
    apply IH1; [exact Hr1|]. intros t c'. apply IH2; [exact Hr2|exact Hk].
  - destruct Hr as [Hr1 Hr2]. simpl.
    rewrite (IH1 Hr1 k k' s c Hk), (IH2 Hr2 k k' s c Hk). reflexivity.
  - simpl in Hr.
    remember (List.length s) as n eqn:Hn.
    assert (Hle : List.length s <= n) by lia. clear Hn.
    revert s c Hle. induction n as [|n IHn]; intros s c Hle.
    + destruct s; [|simpl in Hle; lia].
      rewrite (exec_star r k), (exec_star r k').
      rewrite (IH Hr _ (fun s' c' =>
                 if Nat.ltb (List.length s') (List.length (@nil ascii))
                 then exec (Star r) k' s' c' else None)).
      * rewrite Hk. reflexivity.
      * intros t c'. simpl app. rewrite length_app. simpl.
        destruct (Nat.ltb_spec (List.length t + List.length w)
                    (List.length w)) as [Hlt|Hge]; [lia|reflexivity].
    + rewrite (exec_star r k), (exec_star r k').
      rewrite (IH Hr _ (fun s' c' =>
                 if Nat.ltb (List.length s') (List.length s)
                 then exec (Star r) k' s' c' else None)).
      * rewrite Hk. reflexivity.
      * intros t c'. rewrite !length_app.
        destruct (Nat.ltb_spec (List.length t + List.length w)
                    (List.length s + List.length w)) as [Hlt|Hge];
          destruct (Nat.ltb_spec (List.length t) (List.length s))
            as [Hlt'|Hge']; try lia; [|reflexivity].
        apply IHn. lia.
  - simpl in Hr. simpl. apply IH; [exact Hr|].
    intros t c'. rewrite firstn_app_left. apply Hk.
  - contradiction.
Qed.

Lemma newline_is_space (a : ascii) :
  (code a =? 10)%N = true -> is_space a = true.
Proof. intros H. apply code_newline in H. subst. reflexivity. Qed.

Definition accept : cont := fun _ c => Some c.

(** [\s*$] accepts exactly the blank strings. *)
Lemma exec_end (s : str) (c : groups) :
  exec (Star (Cls is_space)) (exec Eol accept) s c =
  if forallb is_space s then Some c else None.
Proof.
  induction s as [|a s IH]; [reflexivity|].
  rewrite exec_star, exec_Cls_cons. simpl forallb.
  destruct (is_space a) eqn:Ha.
  - destruct (Nat.ltb_spec (List.length s) (List.length (a :: s)))
      as [_|Hge]; [|simpl in Hge; lia].
    rewrite IH. simpl andb.
    destruct (forallb is_space s) eqn:Hs; [reflexivity|].
    destruct s as [|b s]; [discriminate|reflexivity].
  - simpl andb. destruct s as [|b s]; [|reflexivity].
    simpl. destruct (code a =? 10)%N eqn:E; [|reflexivity].
    rewrite (newline_is_space a E) in Ha. discriminate.
Qed.

(** ** Blanks before the text *)

Lemma exec_blanks_before (k : cont) :
  (forall a s c, is_space a = true -> k (a :: s) c = None) ->
  forall w s c, forallb is_space w = true ->
    exec (Star (Cls is_space)) k (w ++ s) c =
    exec (Star (Cls is_space)) k s c.
Proof.
  intros Hk. induction w as [|a w IH]; intros s c Hw; [reflexivity|].
  simpl in Hw. apply andb_true_iff in Hw. destruct Hw as [Ha Hw].
  rewrite exec_star. rewrite <- app_comm_cons, exec_Cls_cons, Ha.
  destruct (Nat.ltb_spec (List.length (w ++ s))
              (List.length (a :: w ++ s))) as [_|Hge];
    [|simpl in Hge; lia].
  rewrite (IH s c Hw). rewrite (Hk a _ c Ha).
  destruct (exec (Star (Cls is_space)) k s c); reflexivity.
Qed.

(** ** [VERSION_PERMISSIVE] and the blanks around a version *)

(** What follows the leading [\s*] of the pattern. *)
Definition AFTER_BLANKS : regex :=
  Cat (Opt (Chr "v"))
 (Cat CORE
 (Cat LOCAL
 (Cat (Star (Cls is_space))
      Eol))).

Lemma re_match_unfold (s : str) :
  re_match VERSION_PERMISSIVE s =
  exec (Star (Cls is_space)) (exec AFTER_BLANKS accept) s [].
Proof. reflexivity. Qed.

Lemma after_blanks_space a s c :
  is_space a = true -> exec AFTER_BLANKS accept (a :: s) c = None.
Proof.
  ascii_cases a; intros H; try discriminate H; reflexivity.
Qed.

Lemma spacefree_digits : spacefree digits.
Proof.
  simpl. split; intros a; ascii_cases a; intros H; try discriminate H;
    reflexivity.
Qed.

Lemma spacefree_alnums : spacefree alnums.
Proof.
  simpl. split; intros a; ascii_cases a; intros H; try discriminate H;
    reflexivity.
Qed.

Lemma spacefree_sep : spacefree sep.
Proof.
  simpl. intros a; ascii_cases a; intros H; try discriminate H; reflexivity.
Qed.

Lemma spacefree_Chr (x : ascii) : is_space x = false -> spacefree (Chr x).
Proof.
  intros Hx a Ha. simpl. destruct (Ascii.eqb x a) eqn:E; [|reflexivity].
  apply Ascii.eqb_eq in E. subst. congruence.
Qed.

Lemma spacefree_Lit (u : str) :
  forallb (fun x => negb (is_space x)) u = true -> spacefree (Lit u).
Proof.
  induction u as [|x u IH]; simpl; [auto|]. intros H.
  apply andb_true_iff in H. destruct H as [Hx Hu].
  split; [|apply IH; exact Hu].
  apply spacefree_Chr. apply negb_true_iff. exact Hx.
Qed.

Lemma spacefree_core :
  spacefree (Opt (Chr "v")) /\ spacefree CORE /\ spacefree LOCAL.
Proof.
  pose proof spacefree_digits as Hd. pose proof spacefree_alnums as Ha.
  pose proof spacefree_sep as Hs.
  assert (Hc : forall x, is_space x = false -> spacefree (Chr x))
    by apply spacefree_Chr.
  assert (Hl : forall u, forallb (fun x => negb (is_space x)) u = true ->
                         spacefree (Lit u)) by apply spacefree_Lit.
  unfold CORE, EPOCH, RELEASE, PRE, PRE_L, POST, POST_L, DEV, LOCAL, Opt.
  cbn [spacefree].
  repeat match goal with
         | |- _ /\ _ => split
         | |- True => exact I
         | |- spacefree digits => exact Hd
         | |- spacefree alnums => exact Ha
         | |- spacefree sep => exact Hs
         | |- spacefree (Chr _) => apply Hc; reflexivity
         | |- spacefree (Lit _) => apply Hl; reflexivity
         end.
Qed.

Lemma after_blanks_blanks (w : str) :
  forallb is_space w = true ->
  forall t c, exec AFTER_BLANKS accept (t ++ w) c =
              exec AFTER_BLANKS accept t c.
Proof.
  intros Hw t c. destruct spacefree_core as (Hv & Hcore & Hloc).
  unfold AFTER_BLANKS. rewrite !exec_Cat.
  apply (exec_blanks_after w Hw _ Hv). intros t1 c1.
  apply (exec_blanks_after w Hw _ Hcore). intros t2 c2.
  apply (exec_blanks_after w Hw _ Hloc). intros t3 c3.
  change (exec (Star (Cls is_space)) (exec Eol accept) (t3 ++ w) c3 =
          exec (Star (Cls is_space)) (exec Eol accept) t3 c3).
  rewrite !exec_end. rewrite forallb_app, Hw, andb_true_r.
  reflexivity.
Qed.

Lemma blanks_only_fail (w : str) (c : groups) :
  forallb is_space w = true ->
  exec (Star (Cls is_space)) (exec AFTER_BLANKS accept) w c = None.
Proof.
  induction w as [|a w IH]; intros Hw; [reflexivity|].
  simpl in Hw. apply andb_true_iff in Hw. destruct Hw as [Ha Hw].
  rewrite exec_star, exec_Cls_cons, Ha.
  destruct (Nat.ltb_spec (List.length w) (List.length (a :: w)))
    as [_|Hge]; [|simpl in Hge; lia].
  rewrite (IH Hw). apply after_blanks_space. exact Ha.
Qed.

(** Blanks around a string change nothing for the matcher. *)
Theorem re_match_blanks (w1 w2 s : str) :
  forallb is_space w1 = true -> forallb is_space w2 = true ->
  re_match VERSION_PERMISSIVE (w1 ++ s ++ w2) =
  re_match VERSION_PERMISSIVE s.
Proof.
  intros H1 H2. rewrite !re_match_unfold.
  rewrite exec_blanks_before; [|apply after_blanks_space|exact H1].
  generalize (@nil (string * str)).
  induction s as [|a s IH]; intros c.
  - simpl app. rewrite blanks_only_fail by exact H2. reflexivity.
  - rewrite <- app_comm_cons.
    rewrite (exec_star _ _ (a :: s ++ w2)), (exec_star _ _ (a :: s)).
    rewrite !exec_Cls_cons.
    rewrite (app_comm_cons s w2 a), (after_blanks_blanks w2 H2 (a :: s)).
    destruct (is_space a); [|reflexivity].
    rewrite <- app_comm_cons.
    destruct (Nat.ltb_spec (List.length (s ++ w2))
                (List.length (a :: s ++ w2))) as [_|Hge];
      [|simpl in Hge; lia].
    destruct (Nat.ltb_spec (List.length s) (List.length (a :: s)))
      as [_|Hge]; [|simpl in Hge; lia].
    rewrite IH. reflexivity.
Qed.

Lemma digit_not_space a : is_digit a = true -> is_space a = false.
Proof. ascii_cases a; intros H; try discriminate H; reflexivity. Qed.

Lemma digit_not_v a : is_digit a = true -> Ascii.eqb "v" a = false.
Proof. ascii_cases a; intros H; try discriminate H; reflexivity. Qed.

(** A [v] before the first digit changes nothing for the matcher. *)
Theorem re_match_v (s : str) :
  head_is is_digit s = true ->
  re_match VERSION_PERMISSIVE ("v"%char :: s) =
  re_match VERSION_PERMISSIVE s.
Proof.
  destruct s as [|d s]; [discriminate|]. simpl head_is. intros Hd.
  rewrite !re_match_unfold.
  rewrite (exec_star _ _ ("v"%char :: d :: s)), (exec_star _ _ (d :: s)).
  rewrite !exec_Cls_cons. rewrite (digit_not_space d Hd).
  change (is_space "v") with false. cbv iota.
  unfold AFTER_BLANKS.
  rewrite !(exec_Cat (Opt (Chr "v"))).
  set (k := exec (Cat CORE (Cat LOCAL (Cat (Star (Cls is_space)) Eol)))
              accept).
  rewrite (exec_Opt_skip (Chr "v") k (d :: s)).
  2:{ unfold Chr. rewrite exec_Cls_cons, (digit_not_v d Hd). reflexivity. }
  unfold Opt, Chr.
  change (exec (Alt (Cls (Ascii.eqb "v")) Eps) k ("v"%char :: d :: s) [])
    with (match k (d :: s) [] with
          | Some m => Some m
          | None => k ("v"%char :: d :: s) []
          end).
  destruct (k (d :: s) []); reflexivity.
Qed.

(** ** The pieces of a version, one at a time *)

Lemma step_Group g r (k : cont) s w rest c m :
  s = w ++ rest ->
  (forall k' : cont, (forall c', k' rest c' = k rest ((g, w) :: c')) ->
                     exec r k' s c = Some m) ->
  exec (Group g r) k s c = Some m.
Proof. intros -> H. apply exec_Group_run. exact H. Qed.

Lemma step_Lit u (k : cont) s rest c :
  s = u ++ rest -> exec (Lit u) k s c = k rest c.
Proof. intros ->. apply exec_Lit. Qed.

Lemma step_sep_take (k : cont) a s c m :
  is_sep a = true -> k s c = Some m -> exec (Opt sep) k (a :: s) c = Some m.
Proof.
  intros Ha Hk. apply exec_Opt_take. unfold sep.
  rewrite exec_Cls_cons, Ha. exact Hk.
Qed.

Lemma step_sep_skip (k : cont) s c :
  head_is is_sep s = false -> exec (Opt sep) k s c = k s c.
Proof. intros H. apply exec_Opt_skip. apply exec_Cls_head. exact H. Qed.

Lemma step_num (g : string) (k : cont) s w rest c m :
  s = w ++ rest -> is_run is_digit w = true ->
  head_is is_digit rest = false ->
  k rest ((g, w) :: c) = Some m ->
  exec (Opt (Group g digits)) k s c = Some m.
Proof.
  intros -> Hw Hr Hk. apply exec_Opt_take. apply exec_num; auto.
Qed.

Lemma head_run (p q : ascii -> bool) (w rest : str) :
  (forall a, p a = true -> q a = false) ->
  is_run p w = true -> head_is q (w ++ rest) = false.
Proof.
  intros Hpq Hw. destruct w as [|a w]; [discriminate|].
  simpl in Hw. apply andb_true_iff in Hw. destruct Hw as [Ha _].
  simpl. apply Hpq. exact Ha.
Qed.

Lemma digit_not_sep a : is_digit a = true -> is_sep a = false.
Proof. ascii_cases a; intros H; try discriminate H; reflexivity. Qed.

(** What can follow the dev release: nothing, or the local version. *)
Definition stop_dev (rest : str) : bool :=
  match rest with
  | [] => true
  | a :: _ => Ascii.eqb a "+"
  end.

Lemma stop_dev_cases rest :
  stop_dev rest = true -> rest = [] \/ exists t, rest = "+"%char :: t.
Proof.
  destruct rest as [|a t]; [auto|]. simpl. intros H.
  apply Ascii.eqb_eq in H. subst. eauto.
Qed.

Lemma stop_dev_digit rest :
  stop_dev rest = true -> head_is is_digit rest = false.
Proof.
  intros H. destruct (stop_dev_cases rest H) as [->|[t ->]]; reflexivity.
Qed.

Lemma skip_dev (k : cont) rest c :
  stop_dev rest = true -> exec DEV k rest c = k rest c.
Proof.
  intros H. apply exec_Opt_skip.
  destruct (stop_dev_cases rest H) as [->|[t ->]]; reflexivity.
Qed.

Lemma take_dev (k : cont) n rest c m :
  is_run is_digit n = true -> head_is is_digit rest = false ->
  k rest (dev_groups (Dev "." [] (Some n)) ++ c) = Some m ->
  exec DEV k (dev_text (Dev "." [] (Some n)) ++ rest) c = Some m.
Proof.
  intros Hn Hr Hk. apply exec_Opt_take.
  apply (step_Group _ _ _ _ (dev_text (Dev "." [] (Some n))) rest);
    [reflexivity|]. intros k1 Hk1.
  rewrite exec_Cat.
  apply (step_sep_take _ "." (("dev" : str) ++ n ++ rest)); [reflexivity|].
  rewrite exec_Cat.
  apply (step_Group _ _ _ _ ("dev" : str) (n ++ rest)); [reflexivity|].
  intros k2 Hk2.
  rewrite (step_Lit "dev" _ _ (n ++ rest)) by reflexivity.
  rewrite Hk2, exec_Cat.
  rewrite step_sep_skip by (apply (head_run is_digit); [apply digit_not_sep|exact Hn]).
  apply (step_num _ _ _ n rest); auto.
  rewrite Hk1. exact Hk.
Qed.

Definition is_some {A : Type} (o : option A) : bool :=
  match o with Some _ => true | None => false end.

(** The spellings the canonical text uses. *)
Definition plain_dev (d : dev_t) : bool :=
  str_eqb (dev_sep1 d) "." && str_eqb (dev_sep2 d) [] && is_some (dev_n d).

Definition plain_post (p : post_t) : bool :=
  match p with
  | Post2 s1 l s2 (Some _) =>
      str_eqb s1 "." && str_eqb l "post" && str_eqb s2 []
  | _ => false
  end.

Definition plain_pre (p : pre_t) : bool :=
  str_eqb (pre_sep1 p) [] &&
  mem (pre_l p) ["a" : str; "b" : str; "rc" : str] &&
  str_eqb (pre_sep2 p) [] && is_some (pre_n p).

Definition plain (p : parsed) : bool :=
  opt_wf plain_pre (p_pre p) && opt_wf plain_post (p_post p) &&
  opt_wf plain_dev (p_dev p).

Lemma plain_dev_inv d :
  plain_dev d = true -> wf_dev d = true ->
  exists n, d = Dev "." [] (Some n) /\ is_run is_digit n = true.
Proof.
  destruct d as [s1 s2 [n|]]; unfold plain_dev, wf_dev; simpl;
    intros H W.
  - apply andb_true_iff in H. destruct H as [H _].
    apply andb_true_iff in H. destruct H as [H1 H2].
    apply str_eqb_eq in H1, H2. subst.
    exists n. split; [reflexivity|]. exact W.
  - rewrite andb_false_r in H. discriminate.
Qed.

Lemma run_dev (o : option dev_t) (k : cont) rest c m :
  opt_wf wf_dev o = true -> opt_wf plain_dev o = true ->
  stop_dev rest = true ->
  k rest (opt_groups dev_groups o ++ c) = Some m ->
  exec DEV k (opt_text dev_text o ++ rest) c = Some m.
Proof.
  intros W P Hr Hk. destruct o as [d|].
  - destruct (plain_dev_inv d P W) as (n & -> & Hn).
    apply take_dev; auto. apply stop_dev_digit. exact Hr.
  - cbn [opt_text opt_groups app] in *. rewrite skip_dev by exact Hr.
    exact Hk.
Qed.

(** [starts u s]: [s] begins with [u]. *)
Fixpoint starts (u s : str) : bool :=
  match u, s with
  | [], _ => true
  | a :: u', b :: s' => Ascii.eqb a b && starts u' s'
  | _ :: _, [] => false
  end.

Lemma starts_spec u : forall s,
  starts u s = true -> exists t, s = u ++ t.
Proof.
  induction u as [|a u IH]; intros s H.
  - exists s. reflexivity.
  - destruct s as [|b s]; [discriminate|]. simpl in H.
    apply andb_true_iff in H. destruct H as [Hab Hs].
    apply Ascii.eqb_eq in Hab. subst b.
    destruct (IH s Hs) as [t ->]. exists t. reflexivity.
Qed.

(** What can follow the post release. *)
Definition stop_post (rest : str) : bool :=
  stop_dev rest || starts ".dev" rest.

Lemma stop_post_cases rest :
  stop_post rest = true ->
  rest = [] \/ (exists t, rest = "+"%char :: t) \/
  (exists t, rest = (".dev" : str) ++ t).
Proof.
  unfold stop_post. intros H. apply orb_true_iff in H.
  destruct H as [H|H].
  - destruct (stop_dev_cases rest H) as [->|Ht]; auto.
  - right; right. apply starts_spec. exact H.
Qed.

Lemma stop_post_digit rest :
  stop_post rest = true -> head_is is_digit rest = false.
Proof.
  intros H.
  destruct (stop_post_cases rest H) as [->|[[t ->]|[t ->]]]; reflexivity.
Qed.

Lemma skip_post (k : cont) rest c :
  stop_post rest = true -> exec POST k rest c = k rest c.
Proof.
  intros H. apply exec_Opt_skip.
  destruct (stop_post_cases rest H) as [->|[[t ->]|[t ->]]]; reflexivity.
Qed.

Lemma take_post (k : cont) n rest c m :
  is_run is_digit n = true -> head_is is_digit rest = false ->
  k rest (post_groups (Post2 "." "post" [] (Some n)) ++ c) = Some m ->
  exec POST k (post_text (Post2 "." "post" [] (Some n)) ++ rest) c = Some m.
Proof.
  intros Hn Hr Hk. apply exec_Opt_take.
  apply (step_Group _ _ _ _ (post_text (Post2 "." "post" [] (Some n))) rest);
    [reflexivity|]. intros k1 Hk1.
  rewrite exec_Alt_r by reflexivity.
  rewrite exec_Cat.
  apply (step_sep_take _ "." (("post" : str) ++ n ++ rest)); [reflexivity|].
  rewrite exec_Cat.
  apply (step_Group _ _ _ _ ("post" : str) (n ++ rest)); [reflexivity|].
  intros k2 Hk2. unfold POST_L. apply exec_Alt_l.
  rewrite (step_Lit "post" _ _ (n ++ rest)) by reflexivity.
  rewrite Hk2, exec_Cat.
  rewrite step_sep_skip
    by (apply (head_run is_digit); [apply digit_not_sep|exact Hn]).
  apply (step_num _ _ _ n rest); auto.
  rewrite Hk1. exact Hk.
Qed.

Lemma plain_post_inv p :
  plain_post p = true -> wf_post p = true ->
  exists n, p = Post2 "." "post" [] (Some n) /\ is_run is_digit n = true.
Proof.
  destruct p as [n1|s1 l s2 [n|]]; simpl; intros H W; try discriminate H.
  apply andb_true_iff in H. destruct H as [H H3].
  apply andb_true_iff in H. destruct H as [H1 H2].
  apply str_eqb_eq in H1, H2, H3. subst.
  exists n. split; [reflexivity|]. exact W.
Qed.

Lemma run_post (o : option post_t) (k : cont) rest c m :
  opt_wf wf_post o = true -> opt_wf plain_post o = true ->
  stop_post rest = true ->
  k rest (opt_groups post_groups o ++ c) = Some m ->
  exec POST k (opt_text post_text o ++ rest) c = Some m.
Proof.
  intros W P Hr Hk. destruct o as [p|].
  - destruct (plain_post_inv p P W) as (n & -> & Hn).
    apply take_post; auto. apply stop_post_digit. exact Hr.
  - cbn [opt_text opt_groups app] in *. rewrite skip_post by exact Hr.
    exact Hk.
Qed.

(** What can follow the pre-release. *)
Definition stop_pre (rest : str) : bool :=
  stop_post rest || starts ".post" rest.

Lemma stop_pre_cases rest :
  stop_pre rest = true ->
  rest = [] \/ (exists t, rest = "+"%char :: t) \/
  (exists t, rest = (".dev" : str) ++ t) \/
  (exists t, rest = (".post" : str) ++ t).
Proof.
  unfold stop_pre. intros H. apply orb_true_iff in H.
  destruct H as [H|H].
  - destruct (stop_post_cases rest H) as [->|[Ht|Ht]]; auto.
  - right; right; right. apply starts_spec. exact H.
Qed.

Lemma stop_pre_digit rest :
  stop_pre rest = true -> head_is is_digit rest = false.
Proof.
  intros H.
  destruct (stop_pre_cases rest H) as [->|[[t ->]|[[t ->]|[t ->]]]];
    reflexivity.
Qed.

Lemma skip_pre (k : cont) rest c :
  stop_pre rest = true -> exec PRE k rest c = k rest c.
Proof.
  intros H. apply exec_Opt_skip.
  destruct (stop_pre_cases rest H) as [->|[[t ->]|[[t ->]|[t ->]]]];
    reflexivity.
Qed.

Lemma take_pre (k : cont) l n rest c m :
  mem l ["a" : str; "b" : str; "rc" : str] = true ->
  is_run is_digit n = true -> head_is is_digit rest = false ->
  k rest (pre_groups (Pre [] l [] (Some n)) ++ c) = Some m ->
  exec PRE k (pre_text (Pre [] l [] (Some n)) ++ rest) c = Some m.
Proof.
  intros Hl Hn Hr Hk. apply exec_Opt_take.
  apply (step_Group _ _ _ _ (pre_text (Pre [] l [] (Some n))) rest);
    [reflexivity|]. intros k1 Hk1.
  assert (Hnum : exec (Cat (Opt sep) (Opt (Group "pre_n" digits))) k1
                      (n ++ rest) (("pre_l", l) :: c) = Some m).
  { rewrite exec_Cat.
    rewrite step_sep_skip
      by (apply (head_run is_digit); [apply digit_not_sep|exact Hn]).
    apply (step_num _ _ _ n rest); auto. rewrite Hk1. exact Hk. }
  rewrite exec_Cat.
  apply mem_cases in Hl. simpl in Hl.
  destruct Hl as [<-|[<-|[<-|[]]]].
  - rewrite step_sep_skip by reflexivity. rewrite exec_Cat.
    apply (step_Group _ _ _ _ ("a" : str) (n ++ rest)); [reflexivity|].
    intros k2 Hk2. unfold PRE_L. apply exec_Alt_l.
    rewrite (step_Lit "a" _ _ (n ++ rest)) by reflexivity.
    rewrite Hk2. apply Hnum.
  - rewrite step_sep_skip by reflexivity. rewrite exec_Cat.
    apply (step_Group _ _ _ _ ("b" : str) (n ++ rest)); [reflexivity|].
    intros k2 Hk2. unfold PRE_L.
    rewrite exec_Alt_r by reflexivity. apply exec_Alt_l.
    rewrite (step_Lit "b" _ _ (n ++ rest)) by reflexivity.
    rewrite Hk2. apply Hnum.
  - rewrite step_sep_skip by reflexivity. rewrite exec_Cat.
    apply (step_Group _ _ _ _ ("rc" : str) (n ++ rest)); [reflexivity|].
    intros k2 Hk2. unfold PRE_L.
    do 3 rewrite exec_Alt_r by reflexivity. apply exec_Alt_l.
    rewrite (step_Lit "rc" _ _ (n ++ rest)) by reflexivity.
    rewrite Hk2. apply Hnum.
Qed.

Lemma plain_pre_inv p :
  plain_pre p = true -> wf_pre p = true ->
  exists l n, p = Pre [] l [] (Some n) /\
              mem l ["a" : str; "b" : str; "rc" : str] = true /\
              is_run is_digit n = true.
Proof.
  destruct p as [s1 l s2 [n|]]; unfold plain_pre, wf_pre; simpl;
    intros H W.
  - apply andb_true_iff in H. destruct H as [H _].
    apply andb_true_iff in H. destruct H as [H H2].
    apply andb_true_iff in H. destruct H as [H1 Hl].
    apply str_eqb_eq in H1, H2. subst.
    apply andb_true_iff in W. destruct W as [_ W].
    exists l, n. auto.
  - rewrite andb_false_r in H. discriminate.
Qed.

Lemma run_pre (o : option pre_t) (k : cont) rest c m :
  opt_wf wf_pre o = true -> opt_wf plain_pre o = true ->
  stop_pre rest = true ->
  k rest (opt_groups pre_groups o ++ c) = Some m ->
  exec PRE k (opt_text pre_text o ++ rest) c = Some m.
Proof.
  intros W P Hr Hk. destruct o as [p|].
  - destruct (plain_pre_inv p P W) as (l & n & -> & Hl & Hn).
    apply take_pre; auto. apply stop_pre_digit. exact Hr.
  - cbn [opt_text opt_groups app] in *. rewrite skip_pre by exact Hr.
    exact Hk.
Qed.

(** What can follow the release: what can follow the pre-release, or one of
    the spellings a, b, rc. *)
Definition is_abr (a : ascii) : bool :=
  Ascii.eqb a "a" || Ascii.eqb a "b" || Ascii.eqb a "r".

Definition stop_release (rest : str) : bool :=
  stop_pre rest || head_is is_abr rest.

Lemma stop_release_cases rest :
  stop_release rest = true ->
  rest = [] \/ (exists t, rest = "+"%char :: t) \/
  (exists t, rest = (".dev" : str) ++ t) \/
  (exists t, rest = (".post" : str) ++ t) \/
  (exists a t, rest = a :: t /\ is_abr a = true).
Proof.
  unfold stop_release. intros H. apply orb_true_iff in H.
  destruct H as [H|H].
  - destruct (stop_pre_cases rest H) as [->|[Ht|[Ht|Ht]]]; auto.
  - destruct rest as [|a t]; [discriminate|]. simpl in H.
    do 4 right. eauto.
Qed.

Lemma abr_cases a :
  is_abr a = true -> a = "a"%char \/ a = "b"%char \/ a = "r"%char.
Proof.
  unfold is_abr. intros H.
  apply orb_true_iff in H. destruct H as [H|H];
    [apply orb_true_iff in H; destruct H as [H|H]|];
    apply Ascii.eqb_eq in H; auto.
Qed.

Lemma stop_release_head rest :
  stop_release rest = true ->
  head_is (fun a => is_digit a || Ascii.eqb "!" a) rest = false.
Proof.
  intros H.
  destruct (stop_release_cases rest H)
    as [->|[[t ->]|[[t ->]|[[t ->]|(a & t & -> & Ha)]]]]; try reflexivity.
  destruct (abr_cases a Ha) as [->|[->| ->]]; reflexivity.
Qed.

Lemma stop_release_tail (k : cont) rest c :
  stop_release rest = true -> exec (Cat (Chr ".") digits) k rest c = None.
Proof.
  intros H.
  destruct (stop_release_cases rest H)
    as [->|[[t ->]|[[t ->]|[[t ->]|(a & t & -> & Ha)]]]]; try reflexivity.
  destruct (abr_cases a Ha) as [->|[->| ->]]; reflexivity.
Qed.

Lemma head_or (p q : ascii -> bool) (s : str) :
  head_is (fun a => p a || q a) s = false ->
  head_is p s = false /\ head_is q s = false.
Proof.
  destruct s as [|a s]; simpl; [auto|]. intros H.
  apply orb_false_iff in H. exact H.
Qed.

Lemma concat_dotted_cons (w : str) (l : list str) (rest : str) :
  List.concat (map (app ("." : str)) (w :: l)) ++ rest =
  "."%char :: w ++ List.concat (map (app ("." : str)) l) ++ rest.
Proof. simpl. rewrite <- app_assoc. reflexivity. Qed.

Lemma ltb_app_cons (a : ascii) (w more : str) :
  Nat.ltb (List.length more) (List.length (a :: w ++ more)) = true.
Proof. apply Nat.ltb_lt. simpl. rewrite length_app. lia. Qed.

Lemma ltb_cons (a : ascii) (s : str) :
  Nat.ltb (List.length s) (List.length (a :: s)) = true.
Proof. apply Nat.ltb_lt. simpl. lia. Qed.

Lemma run_release_tail (k : cont) rest c m :
  stop_release rest = true -> k rest c = Some m ->
  forall l, forallb (is_run is_digit) l = true ->
    exec (Star (Cat (Chr ".") digits)) k
         (List.concat (map (app ("." : str)) l) ++ rest) c = Some m /\
    head_is is_digit (List.concat (map (app ("." : str)) l) ++ rest) = false.
Proof.
  intros Hr Hk. induction l as [|w l IH]; intros Hl.
  - simpl app. split.
    + rewrite exec_star. rewrite stop_release_tail by exact Hr. exact Hk.
    + apply (head_or _ _ _ (stop_release_head rest Hr)).
  - simpl in Hl. apply andb_true_iff in Hl. destruct Hl as [Hw Hl].
    destruct (IH Hl) as [IH1 IH2]. rewrite concat_dotted_cons.
    split; [|reflexivity].
    rewrite exec_star. rewrite exec_Cat. unfold Chr at 1.
    rewrite exec_Cls_cons. change (Ascii.eqb "." ".") with true. cbv iota.
    rewrite (exec_Plus_Cls_run is_digit _ w _ c m); auto.
    rewrite ltb_app_cons. exact IH1.
Qed.

Lemma run_release (r : list str) (k : cont) rest c m :
  wf_release r = true -> stop_release rest = true ->
  k rest (("release", join "." r) :: c) = Some m ->
  exec RELEASE k (join "." r ++ rest) c = Some m.
Proof.
  intros W Hr Hk. destruct r as [|w l]; [discriminate|].
  simpl in W. apply andb_true_iff in W. destruct W as [Hw Hl].
  apply (step_Group _ _ _ _ (join "." (w :: l)) rest); [reflexivity|].
  intros k1 Hk1.
  assert (Hk' : k1 rest c = Some m) by (rewrite Hk1; exact Hk).
  rewrite join_cons, <- app_assoc. rewrite exec_Cat.
  destruct (run_release_tail k1 rest c m Hr Hk' l Hl) as [Ht Hh].
  apply exec_Plus_Cls_run; auto.
Qed.

(** A run of characters of a class that the continuation refuses at every
    point fails. *)
Lemma exec_Star_Cls_fail p (k : cont) rest :
  (forall s' c', head_is p s' = true -> k s' c' = None) ->
  (forall c', k rest c' = None) -> head_is p rest = false ->
  forall w c, forallb p w = true ->
    exec (Star (Cls p)) k (w ++ rest) c = None.
Proof.
  intros Hin Hout Hr. induction w as [|a w IH]; intros c Hw;
    rewrite exec_star.
  - simpl app. rewrite exec_Cls_head by exact Hr. apply Hout.
  - simpl in Hw. apply andb_true_iff in Hw. destruct Hw as [Ha Hw].
    rewrite <- app_comm_cons, exec_Cls_cons, Ha.
    rewrite ltb_cons.
    rewrite (IH c Hw). apply Hin. exact Ha.
Qed.

Lemma digit_not_bang a : is_digit a = true -> Ascii.eqb "!" a = false.
Proof. ascii_cases a; intros H; try discriminate H; reflexivity. Qed.

Lemma skip_epoch (k : cont) w rest c :
  is_run is_digit w = true ->
  head_is (fun a => is_digit a || Ascii.eqb "!" a) rest = false ->
  exec EPOCH k (w ++ rest) c = k (w ++ rest) c.
Proof.
  intros Hw Hr. apply head_or in Hr. destruct Hr as [Hd Hb].
  apply exec_Opt_skip. rewrite exec_Cat.
  destruct w as [|a w]; [discriminate|].
  simpl in Hw. apply andb_true_iff in Hw. destruct Hw as [Ha Hw].
  change (exec (Group "epoch" digits) (exec (Chr "!") k) ((a :: w) ++ rest) c)
    with (if is_digit a
          then exec (Star (Cls is_digit))
                 (fun s' c' =>
                    exec (Chr "!") k s'
                      (("epoch",
                        firstn (List.length ((a :: w) ++ rest)
                                - List.length s') ((a :: w) ++ rest)) :: c'))
                 (w ++ rest) c
          else None).
  rewrite Ha. apply exec_Star_Cls_fail; auto.
  - intros [|b s'] c' Hb'; [discriminate|]. simpl in Hb'.
    unfold Chr. rewrite exec_Cls_cons, (digit_not_bang b Hb'). reflexivity.
  - intros c'. apply exec_Cls_head. exact Hb.
Qed.

Lemma take_epoch (k : cont) e rest c m :
  is_run is_digit e = true ->
  k rest (("epoch", e) :: c) = Some m ->
  exec EPOCH k (epoch_text e ++ rest) c = Some m.
Proof.
  intros He Hk. apply exec_Opt_take. rewrite exec_Cat.
  unfold epoch_text. rewrite <- app_assoc.
  apply exec_num; auto.
Qed.

(** What can follow the local version: no letter, digit or separator. *)
Definition stop_local (rest : str) : bool :=
  negb (head_is (fun a => is_alnum a || is_sep a) rest).

Lemma run_local_tail (k : cont) rest c m :
  stop_local rest = true -> k rest c = Some m ->
  forall l,
    forallb (fun aw => is_sep (fst aw) && is_run is_alnum (snd aw)) l = true ->
    exec (Star (Cat sep alnums)) k
      (List.concat (map (fun aw => fst aw :: snd aw) l) ++ rest) c = Some m /\
    head_is is_alnum
      (List.concat (map (fun aw => fst aw :: snd aw) l) ++ rest) = false.
Proof.
  intros Hr Hk. apply negb_true_iff in Hr. apply head_or in Hr.
  destruct Hr as [Hra Hrs].
  induction l as [|[a w] l IH]; intros Hl.
  - simpl app. split; [|exact Hra].
    rewrite exec_star, exec_Cat. unfold sep.
    rewrite exec_Cls_head by exact Hrs. exact Hk.
  - simpl in Hl. apply andb_true_iff in Hl. destruct Hl as [Haw Hl].
    apply andb_true_iff in Haw. destruct Haw as [Ha Hw].
    destruct (IH Hl) as [IH1 IH2].
    cbn [map List.concat fst snd]. rewrite <- app_assoc, <- app_comm_cons.
    split.
    + rewrite exec_star, exec_Cat. unfold sep at 1.
      rewrite exec_Cls_cons, Ha.
      rewrite (exec_Plus_Cls_run is_alnum _ w _ c m); auto.
      rewrite ltb_app_cons. exact IH1.
    + simpl. revert Ha. clear. ascii_cases a; intros H;
        try discriminate H; reflexivity.
Qed.

Lemma take_local (l : local_t) (k : cont) rest c m :
  wf_local l = true -> stop_local rest = true ->
  k rest (("local", local_label l) :: c) = Some m ->
  exec LOCAL k (local_text l ++ rest) c = Some m.
Proof.
  intros W Hr Hk. destruct l as [h t]. unfold wf_local in W.
  cbn [local_head local_tail] in W.
  apply andb_true_iff in W. destruct W as [Hh Ht].
  apply exec_Opt_take. rewrite exec_Cat.
  unfold local_text. rewrite <- app_assoc.
  change (("+" : str) ++ local_label (Local h t) ++ rest)
    with ("+"%char :: local_label (Local h t) ++ rest).
  unfold Chr. rewrite exec_Cls_cons.
  change (Ascii.eqb "+" "+") with true. cbv iota.
  apply (step_Group _ _ _ _ (local_label (Local h t)) rest); [reflexivity|].
  intros k1 Hk1.
  assert (Hk' : k1 rest c = Some m) by (rewrite Hk1; exact Hk).
  unfold local_label. cbn [local_head local_tail].
  rewrite <- app_assoc, exec_Cat.
  destruct (run_local_tail k1 rest c m Hr Hk' t Ht) as [H1 H2].
  apply exec_Plus_Cls_run; auto.
Qed.

Lemma run_local (o : option local_t) c :
  opt_wf wf_local o = true ->
  exec (Cat LOCAL (Cat (Star (Cls is_space)) Eol)) accept
       (opt_text local_text o) c =
  Some (opt_groups (fun l => [("local", local_label l)]) o ++ c).
Proof.
  intros W. rewrite exec_Cat. destruct o as [l|].
  - cbn [opt_text opt_groups]. rewrite <- (List.app_nil_r (local_text l)).
    apply take_local; [exact W|reflexivity|reflexivity].
  - reflexivity.
Qed.

Lemma stop_dev_local (o : option local_t) :
  stop_dev (opt_text local_text o) = true.
Proof. destruct o; reflexivity. Qed.

Lemma stop_post_dev (o : option dev_t) (rest : str) :
  opt_wf wf_dev o = true -> opt_wf plain_dev o = true ->
  stop_dev rest = true -> stop_post (opt_text dev_text o ++ rest) = true.
Proof.
  intros W P Hr. destruct o as [d|].
  - destruct (plain_dev_inv d P W) as (n & -> & _). reflexivity.
  - unfold stop_post. cbn [opt_text app]. rewrite Hr. reflexivity.
Qed.

Lemma stop_pre_post (o : option post_t) (rest : str) :
  opt_wf wf_post o = true -> opt_wf plain_post o = true ->
  stop_post rest = true -> stop_pre (opt_text post_text o ++ rest) = true.
Proof.
  intros W P Hr. destruct o as [p|].
  - destruct (plain_post_inv p P W) as (n & -> & _). reflexivity.
  - unfold stop_pre. cbn [opt_text app]. rewrite Hr. reflexivity.
Qed.

Lemma stop_release_pre (o : option pre_t) (rest : str) :
  opt_wf wf_pre o = true -> opt_wf plain_pre o = true ->
  stop_pre rest = true -> stop_release (opt_text pre_text o ++ rest) = true.
Proof.
  intros W P Hr. destruct o as [p|].
  - destruct (plain_pre_inv p P W) as (l & n & -> & Hl & _).
    apply mem_cases in Hl. simpl in Hl.
    destruct Hl as [<-|[<-|[<-|[]]]]; unfold stop_release;
      apply orb_true_iff; right; reflexivity.
  - unfold stop_release. cbn [opt_text app]. rewrite Hr. reflexivity.
Qed.

Lemma re_match_digit (s : str) :
  head_is is_digit s = true ->
  re_match VERSION_PERMISSIVE s =
  exec (Cat CORE (Cat LOCAL (Cat (Star (Cls is_space)) Eol))) accept s [].
Proof.
  destruct s as [|d s]; [discriminate|]. simpl head_is. intros Hd.
  rewrite re_match_unfold, exec_star, exec_Cls_cons.
  rewrite (digit_not_space d Hd). unfold AFTER_BLANKS.
  rewrite exec_Cat. apply exec_Opt_skip.
  unfold Chr. rewrite exec_Cls_cons, (digit_not_v d Hd). reflexivity.
Qed.

(** The matcher on a text in the canonical spellings finds the pieces the
    text was built from. *)
Theorem re_match_plain (q : parsed) :
  wf_parsed q = true -> plain q = true ->
  re_match VERSION_PERMISSIVE (text_of q) = Some (groups_of q).
Proof.
  intros W P. destruct q as [e r pre post dev loc].
  unfold wf_parsed, plain in *.
  cbn [p_epoch p_release p_pre p_post p_dev p_local] in *.
  apply andb_true_iff in W. destruct W as [W Wl].
  apply andb_true_iff in W. destruct W as [W Wd].
  apply andb_true_iff in W. destruct W as [W Wo].
  apply andb_true_iff in W. destruct W as [W Wp].
  apply andb_true_iff in W. destruct W as [We Wr].
  apply andb_true_iff in P. destruct P as [P Pd].
  apply andb_true_iff in P. destruct P as [Pp Po].
  unfold text_of, groups_of.
  cbn [p_epoch p_release p_pre p_post p_dev p_local].
  set (L := opt_text local_text loc).
  set (D := opt_text dev_text dev).
  set (PO := opt_text post_text post).
  set (PR := opt_text pre_text pre).
  pose proof (stop_dev_local loc) as SL. fold L in SL.
  pose proof (stop_post_dev dev L Wd Pd SL) as SD. fold D in SD.
  pose proof (stop_pre_post post (D ++ L) Wo Po SD) as SO. fold PO in SO.
  pose proof (stop_release_pre pre (PO ++ D ++ L) Wp Pp SO) as SP.
  fold PR in SP.
  assert (Hrest : forall c,
    exec (Cat RELEASE (Cat PRE (Cat POST DEV)))
         (exec (Cat LOCAL (Cat (Star (Cls is_space)) Eol)) accept)
         (join "." r ++ PR ++ PO ++ D ++ L) c =
    Some (opt_groups (fun l => [("local", local_label l)]) loc ++
          opt_groups dev_groups dev ++ opt_groups post_groups post ++
          opt_groups pre_groups pre ++ ("release", join "." r) :: c)).
  { intros c. rewrite exec_Cat. apply run_release; [exact Wr|exact SP|].
    rewrite exec_Cat. apply run_pre; [exact Wp|exact Pp|exact SO|].
    rewrite exec_Cat. apply run_post; [exact Wo|exact Po|exact SD|].
    apply run_dev; [exact Wd|exact Pd|exact SL|].
    apply run_local. exact Wl. }
  assert (Hhead : head_is is_digit
            (opt_text epoch_text e ++ join "." r ++ PR ++ PO ++ D ++ L)
          = true).
  { destruct e as [[|a e]|]; try discriminate We.
    - simpl in We. apply andb_true_iff in We. destruct We as [Ha _].
      exact Ha.
    - destruct r as [|[|a w] l]; try discriminate Wr.
      simpl in Wr. apply andb_true_iff in Wr. destruct Wr as [Wr _].
      apply andb_true_iff in Wr. destruct Wr as [Ha _].
      rewrite join_cons. exact Ha. }
  rewrite (re_match_digit _ Hhead). rewrite exec_Cat. unfold CORE.
  rewrite exec_Cat. destruct e as [e|].
  - cbn [opt_text opt_groups num_group]. apply take_epoch; [exact We|].
    apply Hrest.
  - cbn [opt_text opt_groups app]. 
    destruct r as [|w l]; [discriminate Wr|].
    rewrite join_cons, <- app_assoc.
    rewrite skip_epoch.
    + rewrite app_assoc, <- join_cons. apply Hrest.
    + simpl in Wr. apply andb_true_iff in Wr. apply Wr.
    + destruct l as [|w' l]; [|reflexivity].
      simpl app. apply stop_release_head. exact SP.
Qed.

(** * The canonical text is a version in the canonical spellings *)

Definition canon_pre (pr : pre_t) : pre_t :=
  Pre [] (canonical_tag (pre_l pr)) [] (Some (num_or_zero (pre_n pr))).

Definition canon_post (po : post_t) : post_t :=
  Post2 "." "post" [] (Some (post_number po)).

Definition canon_dev (d : dev_t) : dev_t :=
  Dev "." [] (Some (num_or_zero (dev_n d))).

Definition canon_local (l : local_t) : local_t :=
  Local (norm_segment (local_head l))
        (map (fun aw => ("."%char, norm_segment (snd aw))) (local_tail l)).

(** The pieces of the canonical text of [p]. *)
Definition canon (p : parsed) : parsed :=
  Parsed (option_map strip_zeros (p_epoch p))
         (map strip_zeros (p_release p))
         (option_map canon_pre (p_pre p))
         (option_map canon_post (p_post p))
         (option_map canon_dev (p_dev p))
         (option_map canon_local (p_local p)).

Lemma local_label_canon (l : local_t) :
  local_label (canon_local l) =
  join "." (map norm_segment (local_segments l)).
Proof.
  destruct l as [h t]. unfold local_label, canon_local, local_segments.
  cbn [local_head local_tail map]. rewrite join_cons. f_equal.
  rewrite !map_map. reflexivity.
Qed.

Lemma text_canon (p : parsed) : text_of (canon p) = canonical p.
Proof.
  destruct p as [e r pre post dev loc]. unfold text_of, canonical, canon.
  unfold c_epoch, c_release, c_pre, c_post, c_dev, c_local.
  cbn [p_epoch p_release p_pre p_post p_dev p_local].
  f_equal; [destruct e; reflexivity|]. f_equal.
  f_equal; [destruct pre; reflexivity|].
  f_equal; [destruct post; reflexivity|].
  f_equal; [destruct dev; reflexivity|].
  destruct loc as [l|]; [|reflexivity].
  cbn [option_map opt_text]. unfold local_text.
  rewrite local_label_canon. reflexivity.
Qed.

Lemma canonical_tag_cases (l : str) :
  canonical_tag l = ("a" : str) \/ canonical_tag l = ("b" : str) \/
  canonical_tag l = ("rc" : str).
Proof.
  unfold canonical_tag.
  destruct (mem l ["a" : str; "alpha" : str]); auto.
  destruct (mem l ["b" : str; "beta" : str]); auto.
Qed.

Lemma canonical_tag_idem (l : str) :
  canonical_tag (canonical_tag l) = canonical_tag l.
Proof.
  destruct (canonical_tag_cases l) as [H|[H|H]]; rewrite H; reflexivity.
Qed.

Lemma digit_alnum a : is_digit a = true -> is_alnum a = true.
Proof. unfold is_alnum. intros ->. apply orb_true_r. Qed.

Lemma norm_segment_alnums (w : str) :
  is_run is_alnum w = true -> is_run is_alnum (norm_segment w) = true.
Proof.
  intros H. unfold norm_segment. destruct (is_run is_digit w) eqn:E;
    [|exact H].
  apply strip_zeros_digits in E. apply is_run_spec.
  apply is_run_spec in E. destruct E as [Hne Hd]. split; [exact Hne|].
  revert Hd. apply forallb_impl. apply digit_alnum.
Qed.

Lemma norm_segment_idem (w : str) :
  norm_segment (norm_segment w) = norm_segment w.
Proof.
  unfold norm_segment. destruct (is_run is_digit w) eqn:E.
  - rewrite (strip_zeros_digits w E). apply strip_zeros_idem.
  - rewrite E. reflexivity.
Qed.

Lemma forallb_map_impl {A B : Type} (f : A -> B) (p : A -> bool)
  (q : B -> bool) (l : list A) :
  (forall x, p x = true -> q (f x) = true) ->
  forallb p l = true -> forallb q (map f l) = true.
Proof.
  intros Hpq. induction l as [|x l IH]; simpl; [reflexivity|]. intros H.
  apply andb_true_iff in H. destruct H as [Hx Hl].
  rewrite (Hpq x Hx), (IH Hl). reflexivity.
Qed.

Lemma wf_canon (p : parsed) : wf_parsed p = true -> wf_parsed (canon p) = true.
Proof.
  destruct p as [e r pre post dev loc]. unfold wf_parsed, canon.
  cbn [p_epoch p_release p_pre p_post p_dev p_local]. intros W.
  apply andb_true_iff in W. destruct W as [W Wl].
  apply andb_true_iff in W. destruct W as [W Wd].
  apply andb_true_iff in W. destruct W as [W Wo].
  apply andb_true_iff in W. destruct W as [W Wp].
  apply andb_true_iff in W. destruct W as [We Wr].
  repeat (apply andb_true_iff; split).
  - destruct e as [e|]; [|reflexivity]. apply strip_zeros_digits. exact We.
  - destruct r as [|w l]; [discriminate|]. unfold wf_release in *.
    change (forallb (is_run is_digit) (map strip_zeros (w :: l)) = true).
    revert Wr. apply forallb_map_impl. apply strip_zeros_digits.
  - destruct pre as [[s1 l s2 n]|]; [|reflexivity].
    unfold opt_wf, wf_pre in Wp. cbn [pre_sep1 pre_l pre_sep2 pre_n] in Wp.
    apply andb_true_iff in Wp. destruct Wp as [_ Wn].
    cbn [option_map opt_wf]. unfold wf_pre, canon_pre.
    cbn [pre_sep1 pre_l pre_sep2 pre_n is_sep_opt is_num_opt].
    rewrite (num_or_zero_digits n Wn).
    destruct (canonical_tag_cases l) as [H|[H|H]]; rewrite H; reflexivity.
  - destruct post as [[n1|s1 l s2 n2]|]; [| |reflexivity].
    + simpl in Wo. cbn [option_map opt_wf]. unfold wf_post, canon_post.
      cbn [post_number is_sep_opt is_num_opt].
      rewrite (strip_zeros_digits n1 Wo). reflexivity.
    + unfold opt_wf, wf_post in Wo.
      apply andb_true_iff in Wo. destruct Wo as [_ Wn].
      cbn [option_map opt_wf]. unfold wf_post, canon_post.
      cbn [post_number is_sep_opt is_num_opt].
      rewrite (num_or_zero_digits n2 Wn). reflexivity.
  - destruct dev as [[s1 s2 n]|]; [|reflexivity].
    unfold opt_wf, wf_dev in Wd. cbn [dev_sep1 dev_sep2 dev_n] in Wd.
    apply andb_true_iff in Wd. destruct Wd as [_ Wn].
    cbn [option_map opt_wf]. unfold wf_dev, canon_dev.
    cbn [dev_sep1 dev_sep2 dev_n is_sep_opt is_num_opt].
    rewrite (num_or_zero_digits n Wn). reflexivity.
  - destruct loc as [[h t]|]; [|reflexivity].
    unfold opt_wf, wf_local in Wl. cbn [local_head local_tail] in Wl.
    apply andb_true_iff in Wl. destruct Wl as [Wh Wt].
    cbn [option_map opt_wf]. unfold wf_local, canon_local.
    cbn [local_head local_tail].
    rewrite (norm_segment_alnums h Wh). cbn [andb].
    revert Wt. apply forallb_map_impl.
    intros [a w] H. cbn [fst snd] in *.
    apply andb_true_iff in H. destruct H as [_ H].
    apply norm_segment_alnums in H. rewrite H. reflexivity.
Qed.

Lemma plain_canon (p : parsed) : plain (canon p) = true.
Proof.
  destruct p as [e r pre post dev loc]. unfold plain, canon.
  cbn [p_pre p_post p_dev].
  repeat (apply andb_true_iff; split).
  - destruct pre as [[s1 l s2 n]|]; [|reflexivity].
    cbn [option_map opt_wf]. unfold plain_pre, canon_pre.
    cbn [pre_sep1 pre_l pre_sep2 pre_n is_some].
    destruct (canonical_tag_cases l) as [H|[H|H]]; rewrite H; reflexivity.
  - destruct post as [[n1|s1 l s2 n2]|]; reflexivity.
  - destruct dev as [[s1 s2 n]|]; reflexivity.
Qed.

Lemma canonical_canon (p : parsed) : canonical (canon p) = canonical p.
Proof.
  destruct p as [e r pre post dev loc]. unfold canonical, canon.
  unfold c_epoch, c_release, c_pre, c_post, c_dev, c_local.
  cbn [p_epoch p_release p_pre p_post p_dev p_local].
  f_equal; [|f_equal; [|f_equal; [|f_equal; [|f_equal]]]].
  - destruct e as [e|]; [|reflexivity]. cbn [option_map opt_text].
    rewrite strip_zeros_idem. reflexivity.
  - rewrite map_map. f_equal. apply map_ext. apply strip_zeros_idem.
  - destruct pre as [[s1 l s2 n]|]; [|reflexivity].
    cbn [option_map opt_text canon_pre pre_l pre_n num_or_zero].
    rewrite canonical_tag_idem, num_or_zero_fixed. reflexivity.
  - destruct post as [po|]; [|reflexivity].
    cbn [option_map opt_text canon_post post_number num_or_zero].
    f_equal. destruct po as [n1|s1 l s2 n2]; cbn [post_number].
    + apply strip_zeros_idem.
    + apply num_or_zero_fixed.
  - destruct dev as [[s1 s2 n]|]; [|reflexivity].
    cbn [option_map opt_text canon_dev dev_n num_or_zero].
    rewrite num_or_zero_fixed. reflexivity.
  - destruct loc as [[h t]|]; [|reflexivity].
    cbn [option_map opt_text]. do 2 f_equal.
    unfold local_segments, canon_local. cbn [local_head local_tail map].
    rewrite norm_segment_idem. f_equal. rewrite !map_map.
    apply map_ext. intros [a w]. cbn [snd]. apply norm_segment_idem.
Qed.

(** ** The characters of the canonical text *)

(** a-z, 0-9, and the three marks of the canonical text. *)
Definition is_canonical_char (a : ascii) : bool :=
  is_alnum a || Ascii.eqb a "!" || Ascii.eqb a "." || Ascii.eqb a "+".

Lemma digit_canonical a : is_digit a = true -> is_canonical_char a = true.
Proof. ascii_cases a; intros H; try discriminate H; reflexivity. Qed.

Lemma alnum_canonical a : is_alnum a = true -> is_canonical_char a = true.
Proof. unfold is_canonical_char. intros ->. reflexivity. Qed.

Lemma forallb_join {p : ascii -> bool} (sp : str) (l : list str) :
  forallb p sp = true -> forallb (forallb p) l = true ->
  forallb p (join sp l) = true.
Proof.
  intros Hs. induction l as [|w l IH]; [reflexivity|]. intros H.
  simpl in H. apply andb_true_iff in H. destruct H as [Hw Hl].
  destruct l as [|w' l]; [exact Hw|].
  change (join sp (w :: w' :: l)) with (w ++ sp ++ join sp (w' :: l)).
  rewrite !forallb_app, Hw, Hs, (IH Hl). reflexivity.
Qed.

Lemma digits_canonical (w : str) :
  is_run is_digit w = true -> forallb is_canonical_char w = true.
Proof.
  intros H. apply is_run_forallb in H. revert H. apply forallb_impl.
  apply digit_canonical.
Qed.

Lemma alnums_canonical (w : str) :
  is_run is_alnum w = true -> forallb is_canonical_char w = true.
Proof.
  intros H. apply is_run_forallb in H. revert H. apply forallb_impl.
  apply alnum_canonical.
Qed.

Lemma post_number_digits (po : post_t) :
  wf_post po = true -> is_run is_digit (post_number po) = true.
Proof.
  destruct po as [n1|s1 l s2 n2]; simpl; intros W.
  - apply strip_zeros_digits. exact W.
  - apply andb_true_iff in W. destruct W as [_ W].
    apply num_or_zero_digits. exact W.
Qed.

(** Every character of the canonical text is a lower-case letter, a digit
    or one of [!], [.], [+]. *)
Lemma canonical_chars (p : parsed) :
  wf_parsed p = true -> forallb is_canonical_char (canonical p) = true.
Proof.
  destruct p as [e r pre post dev loc]. unfold wf_parsed, canonical.
  unfold c_epoch, c_release, c_pre, c_post, c_dev, c_local.
  cbn [p_epoch p_release p_pre p_post p_dev p_local]. intros W.
  apply andb_true_iff in W. destruct W as [W Wl].
  apply andb_true_iff in W. destruct W as [W Wd].
  apply andb_true_iff in W. destruct W as [W Wo].
  apply andb_true_iff in W. destruct W as [W Wp].
  apply andb_true_iff in W. destruct W as [We Wr].
  rewrite !forallb_app. repeat (apply andb_true_iff; split).
  - destruct e as [e|]; [|reflexivity]. cbn [opt_text].
    rewrite forallb_app, (digits_canonical _ (strip_zeros_digits e We)).
    reflexivity.
  - apply forallb_join; [reflexivity|].
    destruct r as [|w l]; [discriminate|]. unfold wf_release in Wr.
    revert Wr. apply forallb_map_impl. intros x Hx.
    apply digits_canonical, strip_zeros_digits, Hx.
  - destruct pre as [[s1 l s2 n]|]; [|reflexivity].
    unfold opt_wf, wf_pre in Wp. cbn [pre_sep1 pre_l pre_sep2 pre_n] in Wp.
    apply andb_true_iff in Wp. destruct Wp as [_ Wn].
    cbn [opt_text pre_l pre_n].
    rewrite forallb_app, (digits_canonical _ (num_or_zero_digits n Wn)).
    destruct (canonical_tag_cases l) as [H|[H|H]]; rewrite H; reflexivity.
  - destruct post as [po|]; [|reflexivity]. cbn [opt_text opt_wf] in *.
    rewrite forallb_app, (digits_canonical _ (post_number_digits po Wo)).
    reflexivity.
  - destruct dev as [[s1 s2 n]|]; [|reflexivity].
    unfold opt_wf, wf_dev in Wd. cbn [dev_sep1 dev_sep2 dev_n] in Wd.
    apply andb_true_iff in Wd. destruct Wd as [_ Wn].
    cbn [opt_text dev_n].
    rewrite forallb_app, (digits_canonical _ (num_or_zero_digits n Wn)).
    reflexivity.
  - destruct loc as [l|]; [|reflexivity]. cbn [opt_text opt_wf] in *.
    rewrite forallb_app. apply andb_true_iff. split; [reflexivity|].
    apply forallb_join; [reflexivity|].
    generalize (local_segments_wf l Wl). apply forallb_map_impl.
    intros x Hx. apply alnums_canonical, norm_segment_alnums, Hx.
Qed.

Lemma lower_canonical_char a :
  is_canonical_char a = true -> lower_char a = a.
Proof. ascii_cases a; intros H; try discriminate H; reflexivity. Qed.

Lemma lower_canonical (s : str) :
  forallb is_canonical_char s = true -> lower s = s.
Proof.
  induction s as [|a s IH]; simpl; [reflexivity|]. intros H.
  apply andb_true_iff in H. destruct H as [Ha Hs].
  rewrite (lower_canonical_char a Ha), (IH Hs). reflexivity.
Qed.

Lemma forallb_short_map (l : list str) :
  forallb short l = true -> forallb short (map strip_zeros l) = true.
Proof.
  induction l as [|w l IH]; [reflexivity|]. cbn [map forallb]. intros H.
  apply andb_true_iff in H. destruct H as [Hw Hl].
  rewrite (short_strip_zeros w Hw), (IH Hl). reflexivity.
Qed.

Lemma short_segments (l : list str) :
  forallb short (filter (is_run is_digit) l) = true ->
  forallb short (filter (is_run is_digit) (map norm_segment l)) = true.
Proof.
  induction l as [|w l IH]; [reflexivity|]. cbn [map filter].
  unfold norm_segment at 1 2. destruct (is_run is_digit w) eqn:E.
  - rewrite (strip_zeros_digits w E). cbn [forallb]. intros H.
    apply andb_true_iff in H. destruct H as [Hw Hl].
    rewrite (short_strip_zeros w Hw), (IH Hl). reflexivity.
  - rewrite E. exact IH.
Qed.

(** The numbers of the canonical text are no longer than those of the
    input. *)
Lemma small_canon (p : parsed) : small p = true -> small (canon p) = true.
Proof.
  destruct p as [e r pre post dev loc]. unfold small, ints_of, canon.
  cbn [p_epoch p_release p_pre p_post p_dev p_local].
  rewrite !forallb_app. intros H.
  apply andb_true_iff in H. destruct H as [He H].
  apply andb_true_iff in H. destruct H as [Hr H].
  apply andb_true_iff in H. destruct H as [Hp H].
  apply andb_true_iff in H. destruct H as [Ho H].
  apply andb_true_iff in H. destruct H as [Hd Hl].
  repeat (apply andb_true_iff; split).
  - destruct e as [e|]; [|reflexivity]. cbn [option_map opt_list forallb] in *.
    rewrite andb_true_r in *. apply short_strip_zeros, He.
  - apply forallb_short_map, Hr.
  - destruct pre as [pr|]; [|reflexivity].
    cbn [option_map opt_ints] in *. unfold pre_ints, canon_pre in *.
    cbn [pre_n opt_list forallb]. rewrite andb_true_r.
    apply short_num_or_zero, Hp.
  - destruct post as [po|]; [|reflexivity].
    cbn [option_map opt_ints] in *. unfold canon_post.
    cbn [post_ints opt_list forallb]. rewrite andb_true_r.
    destruct po as [n|s1 l s2 n]; cbn [post_number].
    + cbn [post_ints forallb] in Ho. rewrite andb_true_r in Ho.
      apply short_strip_zeros, Ho.
    + apply short_num_or_zero, Ho.
  - destruct dev as [d|]; [|reflexivity].
    cbn [option_map opt_ints] in *. unfold dev_ints, canon_dev in *.
    cbn [dev_n opt_list forallb]. rewrite andb_true_r.
    apply short_num_or_zero, Hd.
  - destruct loc as [[h t]|]; [|reflexivity].
    cbn [option_map opt_ints] in *. unfold local_ints, local_segments in *.
    cbn [canon_local local_head local_tail] in *.
    rewrite map_map. cbn [snd].
    pose proof (short_segments (h :: map snd t) Hl) as H.
    cbn [map] in H. rewrite map_map in H. exact H.
Qed.

(** The canonical text of a matched version is matched again, and is its
    own canonical text. *)
Lemma normalize_canonical (env : environ) (p : parsed) :
  wf_parsed p = true -> small p = true ->
  normalize_version env (canonical p) = Ok (canonical p).
Proof.
  intros W S.
  assert (H : normalize_version env (text_of (canon p)) =
              if small (canon p) then Ok (canonical (canon p))
              else Raise ValueError).
  { apply normalize_parsed; [|apply wf_canon; exact W].
    rewrite text_canon, (lower_canonical _ (canonical_chars p W)).
    rewrite <- text_canon.
    apply re_match_plain; [apply wf_canon; exact W|apply plain_canon]. }
  rewrite text_canon, canonical_canon, (small_canon p S) in H. exact H.
Qed.

(** What [normalize_version] does on a matched input, in one statement. *)
Lemma normalize_matched (env : environ) (s : str) (m : groups) :
  re_match VERSION_PERMISSIVE (lower s) = Some m ->
  exists p ws1 v ws2,
    lower s = ws1 ++ v ++ text_of p ++ ws2 /\
    forallb is_space ws1 = true /\ (v = [] \/ v = ("v" : str)) /\
    forallb is_space ws2 = true /\
    wf_parsed p = true /\ m = groups_of p /\
    within_limit m = small p /\
    normalize_version env s =
    if small p then Ok (canonical p) else Raise ValueError.
Proof.
  intros H. destruct (match_shape _ _ H)
    as (ws1 & v & p & ws2 & Hs & H1 & Hv & W & -> & H2).
  exists p, ws1, v, ws2. repeat split; auto.
  - apply within_limit_groups_of. exact W.
  - apply normalize_parsed; auto.
Qed.

(** A matched input whose numbers are within the limit. *)
Lemma normalize_within (env : environ) (s : str) (m : groups) :
  re_match VERSION_PERMISSIVE (lower s) = Some m ->
  within_limit m = true ->
  exists p, wf_parsed p = true /\ m = groups_of p /\ small p = true /\
            normalize_version env s = Ok (canonical p).
Proof.
  intros E L.
  destruct (normalize_matched env s m E)
    as (p & _ & _ & _ & _ & _ & _ & _ & W & Hm & Hl & Hn).
  rewrite Hl in L. rewrite L in Hn. exists p. auto.
Qed.

(** * Lower case, blanks and the environment *)

Lemma lower_space_char a : is_space a = true -> lower_char a = a.
Proof. ascii_cases a; intros H; try discriminate H; reflexivity. Qed.

Lemma lower_blanks (w : str) : forallb is_space w = true -> lower w = w.
Proof.
  induction w as [|a w IH]; simpl; [reflexivity|]. intros H.
  apply andb_true_iff in H. destruct H as [Ha Hw].
  rewrite (lower_space_char a Ha), (IH Hw). reflexivity.
Qed.

Lemma lower_char_idem a : lower_char (lower_char a) = lower_char a.
Proof. ascii_cases a; reflexivity. Qed.

Lemma lower_idem (s : str) : lower (lower s) = lower s.
Proof.
  unfold lower. rewrite map_map. apply map_ext. apply lower_char_idem.
Qed.

Lemma lower_app (s t : str) : lower (s ++ t) = lower s ++ lower t.
Proof. apply map_app. Qed.

(** On a matched input the result depends on the match alone. *)
Lemma normalize_same_match (env : environ) (s1 s2 : str) (m : groups) :
  re_match VERSION_PERMISSIVE (lower s1) = Some m ->
  re_match VERSION_PERMISSIVE (lower s2) = Some m ->
  normalize_version env s1 = normalize_version env s2.
Proof.
  intros H1 H2. unfold normalize_version. rewrite H1, H2. reflexivity.
Qed.

Lemma normalize_unmatched (env : environ) (s : str) :
  re_match VERSION_PERMISSIVE (lower s) = None ->
  normalize_version env s =
  if allow_invalid env then Ok (lower s) else Raise (InvalidVersion s).
Proof.
  intros H. unfold normalize_version, allow_invalid. rewrite H. reflexivity.
Qed.

(** The environment with nothing set, and one that sets the override. *)
Definition env_unset : environ := fun _ => None.

Definition env_allow : environ :=
  fun name =>
    if String.eqb name "FLIT_ALLOW_INVALID" then Some ("1" : str) else None.

(** ** Splitting on any separator *)

(** [split_any p s]: the pieces of [s] between the characters that
    satisfy [p]. *)
Fixpoint split_any (p : ascii -> bool) (s : str) : list str :=
  match s with
  | [] => [[]]
  | a :: s' =>
      if p a then [] :: split_any p s'
      else match split_any p s' with
           | [] => [[a]]
           | w :: ws => (a :: w) :: ws
           end
  end.

Lemma undash_dot a : Ascii.eqb (undash a) "." = is_sep a.
Proof. ascii_cases a; reflexivity. Qed.

Lemma undash_other a : is_sep a = false -> undash a = a.
Proof. ascii_cases a; intros H; try discriminate H; reflexivity. Qed.

(** The two [replace] calls followed by [split(".")] split on any of
    [-], [_] and [.]. *)
Lemma split_replace (s : str) :
  split "." (replace "_" "." (replace "-" "." s)) = split_any is_sep s.
Proof.
  rewrite replace_replace. induction s as [|a s IH]; [reflexivity|].
  simpl. rewrite undash_dot, IH. destruct (is_sep a) eqn:E; [reflexivity|].
  rewrite (undash_other a E). reflexivity.
Qed.

Lemma split_any_local_label (l : local_t) :
  wf_local l = true -> split_any is_sep (local_label l) = local_segments l.
Proof.
  intros W. rewrite <- split_replace. apply split_local_label. exact W.
Qed.

(** * The claims *)

(** C1. [normalize_version] is idempotent and its results are fixed
    points: normalising the result again changes nothing, on every input
    (an input that is refused stays refused); an input the grammar matches
    whose numbers are within the limit of [int] has a result, and that
    result is its own normal form; every string [normalize_version] returns
    is returned unchanged when it is normalised; and the version
    ["1!2.0a1.post3.dev4+local.7"], which has every optional piece, is its
    own normal form. *)
Theorem C1_normalize_idempotent :
  (forall env s,
     (x <- normalize_version env s ;; normalize_version env x) =
     normalize_version env s) /\
  (forall env s m,
     re_match VERSION_PERMISSIVE (lower s) = Some m ->
     within_limit m = true ->
     exists c, normalize_version env s = Ok c /\
               normalize_version env c = Ok c) /\
  (forall env s c,
     normalize_version env s = Ok c -> normalize_version env c = Ok c) /\
  (forall env,
     normalize_version env "1!2.0a1.post3.dev4+local.7" =
     Ok ("1!2.0a1.post3.dev4+local.7" : str)).
Proof.
  assert (Hfix : forall env s c,
            normalize_version env s = Ok c -> normalize_version env c = Ok c).
  { intros env s c H.
    destruct (re_match VERSION_PERMISSIVE (lower s)) as [m|] eqn:E.
    - destruct (normalize_matched env s m E)
        as (p & _ & _ & _ & _ & _ & _ & _ & W & _ & _ & Hn).
      rewrite Hn in H. destruct (small p) eqn:S; [|discriminate H].
      injection H as <-. apply normalize_canonical; assumption.
    - rewrite (normalize_unmatched env s E) in H.
      destruct (allow_invalid env) eqn:A; [|discriminate].
      injection H as <-.
      rewrite normalize_unmatched by (rewrite lower_idem; exact E).
      rewrite A, lower_idem. reflexivity. }
  split; [|split; [|split]].
  - intros env s. destruct (normalize_version env s) as [c|e] eqn:H;
      cbn [bind]; [|reflexivity].
    apply (Hfix env s c H).
  - intros env s m E L.
    destruct (normalize_within env s m E L) as (p & W & _ & S & Hn).
    exists (canonical p). split; [exact Hn|].
    apply normalize_canonical; assumption.
  - exact Hfix.
  - intros env. vm_compute. reflexivity.
Qed.

Lemma C1_normalize_idempotent_witness :
  exists c, normalize_version env_unset " V01.00-Alpha_2.R.Dev+Ubuntu-01 " =
            Ok c /\
            normalize_version env_unset c = Ok c.
Proof.
  eapply (proj1 (proj2 C1_normalize_idempotent) env_unset
            (" V01.00-Alpha_2.R.Dev+Ubuntu-01 " : str)).
  - vm_compute. reflexivity.
  - vm_compute. reflexivity.
Defined.

(** C2. Without the override, [normalize_version] raises [InvalidVersion]
    exactly when the grammar finds no match, and the exception carries the
    input as it was given, not lower-cased; a match accounts for the whole
    input, from its first to its last character: blanks, an optional [v],
    the pieces of the version, blanks; so ["1.0x"], ["1.0 1"], ["x1.0"]
    and ["not-a-version"] are refused. *)
Theorem C2_invalid_version (env : environ) (s : str) :
  allow_invalid env = false ->
  (re_match VERSION_PERMISSIVE (lower s) = None <->
   normalize_version env s = Raise (InvalidVersion s)) /\
  (forall x, normalize_version env s = Raise (InvalidVersion x) ->
     x = s /\ re_match VERSION_PERMISSIVE (lower s) = None) /\
  (forall m, re_match VERSION_PERMISSIVE (lower s) = Some m ->
     exists ws1 v p ws2,
       lower s = ws1 ++ v ++ text_of p ++ ws2 /\
       forallb is_space ws1 = true /\ (v = [] \/ v = ("v" : str)) /\
       wf_parsed p = true /\ forallb is_space ws2 = true) /\
  normalize_version env "1.0x" = Raise (InvalidVersion "1.0x") /\
  normalize_version env "1.0 1" = Raise (InvalidVersion "1.0 1") /\
  normalize_version env "x1.0" = Raise (InvalidVersion "x1.0") /\
  normalize_version env "not-a-version" =
  Raise (InvalidVersion "not-a-version") /\
  normalize_version env "Not-A-Version" =
  Raise (InvalidVersion "Not-A-Version").
Proof.
  intros A.
  assert (Hex : forall t : str,
            re_match VERSION_PERMISSIVE (lower t) = None ->
            normalize_version env t = Raise (InvalidVersion t)).
  { intros t E. rewrite (normalize_unmatched env t E), A. reflexivity. }
  assert (Hinv : forall x, normalize_version env s = Raise (InvalidVersion x) ->
            x = s /\ re_match VERSION_PERMISSIVE (lower s) = None).
  { intros x H.
    destruct (re_match VERSION_PERMISSIVE (lower s)) as [m|] eqn:E.
    - destruct (normalize_matched env s m E)
        as (p & _ & _ & _ & _ & _ & _ & _ & _ & _ & _ & Hn).
      rewrite Hn in H. destruct (small p); discriminate H.
    - rewrite (Hex s E) in H. injection H as <-. auto. }
  split; [|split; [|split; [|repeat split]]].
  - split; [apply Hex|]. intros H. apply (Hinv s H).
  - exact Hinv.
  - intros m E. destruct (match_shape _ _ E)
      as (ws1 & v & p & ws2 & Hs & H1 & Hv & W & _ & H2).
    exists ws1, v, p, ws2. auto.
  - apply Hex. vm_compute. reflexivity.
  - apply Hex. vm_compute. reflexivity.
  - apply Hex. vm_compute. reflexivity.
  - apply Hex. vm_compute. reflexivity.
  - apply Hex. vm_compute. reflexivity.
Qed.

Lemma C2_invalid_version_witness :
  re_match VERSION_PERMISSIVE (lower "1.0-Final") = None <->
  normalize_version env_unset "1.0-Final" =
  Raise (InvalidVersion "1.0-Final").
Proof.
  exact (proj1 (C2_invalid_version env_unset ("1.0-Final" : str) eq_refl)).
Defined.

(** The letters [str.lower] changes: A-Z and the upper-case letters of the
    Latin-1 block. *)
Definition is_upper (a : ascii) : bool :=
  in_range 65 90 a || in_range 192 214 a || in_range 216 222 a.

Lemma lower_char_spec (a : ascii) :
  is_upper (lower_char a) = false /\
  (lower_char a = a \/
   (is_upper a = true /\ code (lower_char a) = (code a + 32)%N)).
Proof.
  ascii_cases a; (split; [reflexivity|]);
    first [left; reflexivity | right; split; reflexivity].
Qed.

(** C3. With the override set, an input the grammar does not match is not
    refused: [normalize_version] returns it lower-cased and otherwise
    unchanged, that is, a string of the same length without upper-case
    letter in which a character of the input either stands as it is or, if
    it is an upper-case letter, is replaced by the letter 32 code points
    above it; with the override, ["not-a-version"] comes back as it is and
    ["Not A Version!"] as ["not a version!"]. *)
Theorem C3_override (env : environ) (s : str) :
  allow_invalid env = true ->
  re_match VERSION_PERMISSIVE (lower s) = None ->
  (exists out,
     normalize_version env s = Ok out /\
     List.length out = List.length s /\
     forall i a b,
       nth_error s i = Some a -> nth_error out i = Some b ->
       is_upper b = false /\
       (b = a \/ (is_upper a = true /\ code b = (code a + 32)%N))) /\
  normalize_version env "not-a-version" = Ok ("not-a-version" : str) /\
  normalize_version env "Not A Version!" = Ok ("not a version!" : str).
Proof.
  intros A E. split; [|split].
  - exists (lower s). split; [|split].
    + rewrite (normalize_unmatched env s E), A. reflexivity.
    + apply length_map.
    + intros i a b Ha Hb. unfold lower in Hb.
      rewrite nth_error_map, Ha in Hb. injection Hb as <-.
      apply lower_char_spec.
  - rewrite normalize_unmatched by (vm_compute; reflexivity).
    rewrite A. reflexivity.
  - rewrite normalize_unmatched by (vm_compute; reflexivity).
    rewrite A. reflexivity.
Qed.

Lemma C3_override_witness :
  (exists out,
     normalize_version env_allow "Hello, World" = Ok out /\
     List.length out = List.length ("Hello, World" : str) /\
     forall i a b,
       nth_error ("Hello, World" : str) i = Some a ->
       nth_error out i = Some b ->
       is_upper b = false /\
       (b = a \/ (is_upper a = true /\ code b = (code a + 32)%N))) /\
  normalize_version env_allow "not-a-version" = Ok ("not-a-version" : str) /\
  normalize_version env_allow "Not A Version!" = Ok ("not a version!" : str).
Proof.
  apply (C3_override env_allow ("Hello, World" : str)).
  - reflexivity.
  - vm_compute. reflexivity.
Defined.

(** C9. The empty string and every string of blanks is refused: the
    release needs a digit; without the override [normalize_version] raises
    [InvalidVersion] on them. *)
Theorem C9_blank_refused (env : environ) (w : str) :
  allow_invalid env = false ->
  forallb is_space w = true ->
  re_match VERSION_PERMISSIVE (lower w) = None /\
  normalize_version env w = Raise (InvalidVersion w).
Proof.
  intros A Hw.
  assert (E : re_match VERSION_PERMISSIVE (lower w) = None).
  { rewrite (lower_blanks w Hw), re_match_unfold.
    apply blanks_only_fail. exact Hw. }
  split; [exact E|].
  rewrite (normalize_unmatched env w E), A. reflexivity.
Qed.

Lemma C9_blank_refused_witness :
  (re_match VERSION_PERMISSIVE (lower "") = None /\
   normalize_version env_unset "" = Raise (InvalidVersion "")) /\
  (re_match VERSION_PERMISSIVE (lower "   ") = None /\
   normalize_version env_unset "   " = Raise (InvalidVersion "   ")).
Proof.
  split.
  - apply (C9_blank_refused env_unset ("" : str)); reflexivity.
  - apply (C9_blank_refused env_unset ("   " : str)); reflexivity.
Defined.

Lemma canonical_char_facts (a : ascii) :
  is_canonical_char a = true ->
  is_upper a = false /\ is_space a = false /\
  a <> "-"%char /\ a <> "_"%char /\
  (is_alnum a = false -> a = "!"%char \/ a = "."%char \/ a = "+"%char).
Proof.
  ascii_cases a; intros H; try discriminate H;
    (split; [reflexivity|split; [reflexivity|
      split; [discriminate|split; [discriminate|]]]]);
    intros H'; try discriminate H'; auto.
Qed.

(** C10. What [normalize_version] returns for a matched input holds no
    upper-case letter, no blank, no [-] and no [_]: each of its characters
    is a lower-case letter, a digit, or one of [!], [.] and [+]. *)
Theorem C10_canonical_alphabet (env : environ) (s out : str) (m : groups) :
  re_match VERSION_PERMISSIVE (lower s) = Some m ->
  normalize_version env s = Ok out ->
  forall a, In a out ->
    is_upper a = false /\ is_space a = false /\
    a <> "-"%char /\ a <> "_"%char /\
    (is_alnum a = false -> a = "!"%char \/ a = "."%char \/ a = "+"%char).
Proof.
  intros E H a Ha.
  destruct (normalize_matched env s m E)
    as (p & _ & _ & _ & _ & _ & _ & _ & W & _ & _ & Hn).
  rewrite Hn in H. destruct (small p); [|discriminate H].
  injection H as <-.
  apply canonical_char_facts.
  pose proof (canonical_chars p W) as Hc.
  rewrite forallb_forall in Hc. apply Hc. exact Ha.
Qed.

Lemma C10_canonical_alphabet_witness :
  forallb (fun a => negb (is_upper a) && negb (is_space a) &&
                    negb (Ascii.eqb a "-") && negb (Ascii.eqb a "_"))
          ("1!2.0rc3.post4.dev5+ubuntu.1" : str) = true /\
  (is_upper "+" = false /\ is_space "+" = false /\
   "+"%char <> "-"%char /\ "+"%char <> "_"%char /\
   (is_alnum "+" = false ->
    "+"%char = "!"%char \/ "+"%char = "."%char \/ "+"%char = "+"%char)).
Proof.
  split; [reflexivity|].
  eapply (C10_canonical_alphabet env_unset
            (" V1!02.0_PREVIEW-03-r4.DEV.5+Ubuntu_01 " : str)
            ("1!2.0rc3.post4.dev5+ubuntu.1" : str)).
  - vm_compute. reflexivity.
  - vm_compute. reflexivity.
  - vm_compute. do 19 right. left. reflexivity.
Defined.

(** C4, as the source has it.  When the pre-release spelling takes part in
    the match and every number of the input is within the limit of [int],
    the spelling is looked up in the table (alpha and a give a, beta and b
    give b, rc, c, pre and preview give rc) and emitted right after the
    release, followed at once by the number without its leading zeros, or
    by 0 when the input has no number: no separator, no dot.  So
    ["1.0alpha1"] and ["1.0a1"] both give ["1.0a1"], and ["1.0a"] gives
    ["1.0a0"]. *)
Theorem C4_pre_release (env : environ) (s : str) (m : groups) (tag : str) :
  re_match VERSION_PERMISSIVE (lower s) = Some m ->
  within_limit m = true ->
  group m "pre_l" = Some tag ->
  mem tag pre_tags = true /\
  getitem pre_spellings tag = Ok (canonical_tag tag) /\
  (exists p, wf_parsed p = true /\ m = groups_of p /\
     normalize_version env s =
     Ok (c_epoch p ++ c_release p ++
         (canonical_tag tag ++ num_or_zero (group m "pre_n")) ++
         c_post p ++ c_dev p ++ c_local p)) /\
  map (fun t => (t, getitem pre_spellings t))
      ["alpha" : str; "beta" : str; "rc" : str; "c" : str;
       "pre" : str; "preview" : str; "a" : str; "b" : str] =
  [("alpha" : str, Ok ("a" : str)); ("beta" : str, Ok ("b" : str));
   ("rc" : str, Ok ("rc" : str)); ("c" : str, Ok ("rc" : str));
   ("pre" : str, Ok ("rc" : str)); ("preview" : str, Ok ("rc" : str));
   ("a" : str, Ok ("a" : str)); ("b" : str, Ok ("b" : str))] /\
  normalize_version env "1.0alpha1" = Ok ("1.0a1" : str) /\
  normalize_version env "1.0a1" = Ok ("1.0a1" : str) /\
  normalize_version env "1.0a" = Ok ("1.0a0" : str).
Proof.
  intros E L Ht.
  destruct (normalize_within env s m E L) as (p & W & -> & _ & Hn).
  rewrite group_pre_l in Ht. rewrite group_pre_n.
  destruct p as [e r [pr|] post dev loc]; [|discriminate Ht].
  cbn [p_pre option_map] in *. injection Ht as <-.
  assert (Wp : wf_pre pr = true).
  { unfold wf_parsed in W. cbn [p_epoch p_release p_pre p_post p_dev p_local] in W.
    apply andb_true_iff in W. destruct W as [W _].
    apply andb_true_iff in W. destruct W as [W _].
    apply andb_true_iff in W. destruct W as [W _].
    apply andb_true_iff in W. destruct W as [_ W]. exact W. }
  assert (Wt : mem (pre_l pr) pre_tags = true).
  { unfold wf_pre in Wp.
    apply andb_true_iff in Wp. destruct Wp as [Wp _].
    apply andb_true_iff in Wp. destruct Wp as [Wp _].
    apply andb_true_iff in Wp. destruct Wp as [_ Wt]. exact Wt. }
  split; [exact Wt|]. split; [apply getitem_pre_spellings; exact Wt|].
  split; [|repeat split; vm_compute; reflexivity].
  exists (Parsed e r (Some pr) post dev loc).
  split; [exact W|]. split; [reflexivity|]. exact Hn.
Qed.

Lemma C4_pre_release_witness :
  exists p, wf_parsed p = true /\
    re_match VERSION_PERMISSIVE (lower "2.5_Preview-007") =
    Some (groups_of p) /\
    normalize_version env_unset "2.5_Preview-007" =
    Ok (c_epoch p ++ c_release p ++
        (canonical_tag "preview" ++ num_or_zero (Some ("007" : str))) ++
        c_post p ++ c_dev p ++ c_local p).
Proof.
  destruct (C4_pre_release env_unset ("2.5_Preview-007" : str)
              [("pre", "_preview-007" : str); ("pre_n", "007" : str);
               ("pre_l", "preview" : str); ("release", "2.5" : str)]
              ("preview" : str) eq_refl eq_refl eq_refl)
    as (_ & _ & (p & W & Hm & Hn) & _).
  exists p. split; [exact W|]. split; [|exact Hn].
  rewrite <- Hm. reflexivity.
Defined.

(** C4 as it is stated fails: ["1.0a"] followed by 4301 zeros is matched
    with the pre-release spelling a, and [int] refuses the number; and a
    release of 4301 digits followed by ["a1"] is matched with the same
    spelling, and [int] refuses the release. *)
Lemma C4_counterexample :
  (option_map (fun m => group m "pre_l")
     (re_match VERSION_PERMISSIVE
        (lower (("1.0a" : str) ++ repeat "0"%char 4301))) =
   Some (Some ("a" : str)) /\
   normalize_version env_unset (("1.0a" : str) ++ repeat "0"%char 4301) =
   Raise ValueError) /\
  (option_map (fun m => group m "pre_l")
     (re_match VERSION_PERMISSIVE
        (lower (repeat "1"%char 4301 ++ ("a1" : str)))) =
   Some (Some ("a" : str)) /\
   normalize_version env_unset (repeat "1"%char 4301 ++ ("a1" : str)) =
   Raise ValueError).
Proof. split; split; vm_compute; reflexivity. Qed.

(** C5, as the source has it.  When every number of the input is within
    the limit of [int], both spellings of the post release, the short [-N]
    and the tag post, rev or r with an optional number, give the same
    piece: [.post] and the number without leading zeros, 0 when the tag has
    no number.  So ["1.0-1"], ["1.0.post1"] and ["1.0rev1"] all give
    ["1.0.post1"]. *)
Theorem C5_post_release (env : environ) (s : str) (m : groups) :
  re_match VERSION_PERMISSIVE (lower s) = Some m ->
  within_limit m = true ->
  group m "post_n1" <> None \/ group m "post_l" <> None ->
  (group m "post_n1" = None \/
   (group m "post_l" = None /\ group m "post_n2" = None)) /\
  (exists p, wf_parsed p = true /\ m = groups_of p /\
     normalize_version env s =
     Ok (c_epoch p ++ c_release p ++ c_pre p ++
         (".post" ++ match group m "post_n1" with
                     | Some n => strip_zeros n
                     | None => num_or_zero (group m "post_n2")
                     end) ++
         c_dev p ++ c_local p)) /\
  normalize_version env "1.0-1" = Ok ("1.0.post1" : str) /\
  normalize_version env "1.0.post1" = Ok ("1.0.post1" : str) /\
  normalize_version env "1.0rev1" = Ok ("1.0.post1" : str) /\
  normalize_version env "1.0r" = Ok ("1.0.post0" : str).
Proof.
  intros E L Hp.
  destruct (normalize_within env s m E L) as (p & W & -> & _ & Hn).
  rewrite group_post_n1, group_post_l in Hp.
  rewrite group_post_n1, group_post_l, group_post_n2.
  destruct p as [e r pre [po|] dev loc];
    [|cbn [p_post] in Hp; destruct Hp as [Hp|Hp]; congruence].
  cbn [p_post] in *.
  split; [destruct po; auto|].
  split; [|repeat split; vm_compute; reflexivity].
  exists (Parsed e r pre (Some po) dev loc).
  split; [exact W|]. split; [reflexivity|].
  rewrite Hn. unfold canonical, c_post. cbn [p_post opt_text].
  destruct po; reflexivity.
Qed.

Lemma C5_post_release_witness :
  exists p, wf_parsed p = true /\
    normalize_version env_unset "3.1-004" =
    Ok (c_epoch p ++ c_release p ++ c_pre p ++
        (".post" ++ strip_zeros "004") ++ c_dev p ++ c_local p).
Proof.
  destruct (C5_post_release env_unset ("3.1-004" : str)
              [("post", "-004" : str); ("post_n1", "004" : str);
               ("release", "3.1" : str)] eq_refl eq_refl)
    as (_ & (p & W & _ & Hn) & _).
  - left. discriminate.
  - exists p. split; [exact W|exact Hn].
Defined.

(** C5 as it is stated fails: ["1.0-"] followed by 4301 zeros is matched
    with the short spelling of the post release, and [int] refuses the
    number; and a release of 4301 digits followed by ["-1"] is matched with
    the same spelling, and [int] refuses the release. *)
Lemma C5_counterexample :
  (option_map (fun m => group m "post_n1")
     (re_match VERSION_PERMISSIVE
        (lower (("1.0-" : str) ++ repeat "0"%char 4301))) =
   Some (Some (repeat "0"%char 4301)) /\
   normalize_version env_unset (("1.0-" : str) ++ repeat "0"%char 4301) =
   Raise ValueError) /\
  (option_map (fun m => group m "post_n1")
     (re_match VERSION_PERMISSIVE
        (lower (repeat "1"%char 4301 ++ ("-1" : str)))) =
   Some (Some ("1" : str)) /\
   normalize_version env_unset (repeat "1"%char 4301 ++ ("-1" : str)) =
   Raise ValueError).
Proof. split; split; vm_compute; reflexivity. Qed.

Lemma wf_release_of (p : parsed) :
  wf_parsed p = true -> wf_release (p_release p) = true.
Proof.
  unfold wf_parsed. intros W.
  apply andb_true_iff in W. destruct W as [W _].
  apply andb_true_iff in W. destruct W as [W _].
  apply andb_true_iff in W. destruct W as [W _].
  apply andb_true_iff in W. destruct W as [W _].
  apply andb_true_iff in W. destruct W as [_ W]. exact W.
Qed.

Lemma wf_local_of (p : parsed) :
  wf_parsed p = true -> opt_wf wf_local (p_local p) = true.
Proof.
  unfold wf_parsed. intros W.
  apply andb_true_iff in W. destruct W as [_ W]. exact W.
Qed.

(** A version that is a bare release. *)
Definition bare (l : list str) : parsed := Parsed None l None None None None.

Lemma small_bare (l : list str) : small (bare l) = forallb short l.
Proof.
  unfold small, ints_of, bare. cbn. rewrite List.app_nil_r. reflexivity.
Qed.

Lemma normalize_bare (env : environ) (l : list str) :
  wf_release l = true ->
  normalize_version env (join "." l) =
  if forallb short l then Ok (join "." (map strip_zeros l))
  else Raise ValueError.
Proof.
  intros W.
  assert (Wb : wf_parsed (bare l) = true).
  { unfold wf_parsed, bare. cbn. rewrite W. reflexivity. }
  assert (Ht : text_of (bare l) = join "." l).
  { unfold text_of, bare. cbn. apply List.app_nil_r. }
  assert (Hc : canonical (bare l) = join "." (map strip_zeros l)).
  { unfold canonical, bare, c_epoch, c_release, c_pre, c_post, c_dev,
      c_local. cbn. apply List.app_nil_r. }
  rewrite <- Hc, <- small_bare. apply normalize_parsed; [|exact Wb].
  rewrite <- Ht.
  assert (Hl : lower (text_of (bare l)) = text_of (bare l)).
  { apply lower_canonical. rewrite Ht. apply forallb_join; [reflexivity|].
    destruct l as [|w l]; [discriminate|]. unfold wf_release in W.
    revert W. apply forallb_impl. apply digits_canonical. }
  rewrite Hl. apply re_match_plain; [exact Wb|reflexivity].
Qed.

(** C6, as the source has it.  On a matched input whose numbers are all
    within the limit of [int], every number of the release is emitted
    without its leading zeros, and the numbers are joined by dots; a
    version made of a release only is rewritten number by number, and
    ["1.01.0"] gives ["1.1.0"]. *)
Theorem C6_release (env : environ) :
  (forall s m,
     re_match VERSION_PERMISSIVE (lower s) = Some m ->
     within_limit m = true ->
     exists p, wf_parsed p = true /\ m = groups_of p /\
       wf_release (p_release p) = true /\
       group m "release" = Some (join "." (p_release p)) /\
       normalize_version env s =
       Ok (c_epoch p ++ join "." (map strip_zeros (p_release p)) ++
           c_pre p ++ c_post p ++ c_dev p ++ c_local p)) /\
  (forall l, wf_release l = true -> forallb short l = true ->
     normalize_version env (join "." l) =
     Ok (join "." (map strip_zeros l))) /\
  normalize_version env "1.01.0" = Ok ("1.1.0" : str).
Proof.
  split; [|split].
  - intros s m E L.
    destruct (normalize_within env s m E L) as (p & W & -> & _ & Hn).
    exists p. split; [exact W|]. split; [reflexivity|].
    split; [apply wf_release_of; exact W|].
    split; [apply group_release|exact Hn].
  - intros l W S. rewrite (normalize_bare env l W), S. reflexivity.
  - vm_compute. reflexivity.
Qed.

Lemma C6_release_witness :
  normalize_version env_unset (join "." ["0010" : str; "00" : str; "7" : str])
  = Ok (join "." (map strip_zeros ["0010" : str; "00" : str; "7" : str])).
Proof.
  apply (proj1 (proj2 (C6_release env_unset))); reflexivity.
Defined.

(** C6 as it is stated fails: a release of 4301 digits is matched, and
    [int] refuses it; and ["1.0.dev"] followed by 4301 zeros is matched
    with the release ["1.0"], and [int] refuses the number of the dev
    release. *)
Lemma C6_counterexample :
  (option_map (fun m => group m "release")
     (re_match VERSION_PERMISSIVE (lower (repeat "1"%char 4301))) =
   Some (Some (repeat "1"%char 4301)) /\
   normalize_version env_unset (repeat "1"%char 4301) = Raise ValueError) /\
  (option_map (fun m => group m "release")
     (re_match VERSION_PERMISSIVE
        (lower (("1.0.dev" : str) ++ repeat "0"%char 4301))) =
   Some (Some ("1.0" : str)) /\
   normalize_version env_unset (("1.0.dev" : str) ++ repeat "0"%char 4301) =
   Raise ValueError).
Proof. split; split; vm_compute; reflexivity. Qed.

(** C7, as the source has it.  On a matched input with a local version
    whose numbers are all within the limit of [int], the label is split at
    every [-], [_] and [.], a piece made of digits only loses its leading
    zeros, and the pieces, joined by dots, are emitted after a [+];
    ["1.0+ABC_123.4"] gives ["1.0+abc.123.4"]. *)
Theorem C7_local_version (env : environ) (s : str) (m : groups)
  (label : str) :
  re_match VERSION_PERMISSIVE (lower s) = Some m ->
  within_limit m = true ->
  group m "local" = Some label ->
  split "." (replace "_" "." (replace "-" "." label)) =
  split_any is_sep label /\
  forallb (is_run is_alnum) (split_any is_sep label) = true /\
  (exists p, wf_parsed p = true /\ m = groups_of p /\
     normalize_version env s =
     Ok (c_epoch p ++ c_release p ++ c_pre p ++ c_post p ++ c_dev p ++
         "+" ++ join "." (map norm_segment (split_any is_sep label)))) /\
  normalize_version env "1.0+ABC_123.4" = Ok ("1.0+abc.123.4" : str) /\
  normalize_version env "1.0+007-00a_0" = Ok ("1.0+7.00a.0" : str).
Proof.
  intros E L Hl.
  destruct (normalize_within env s m E L) as (p & W & -> & _ & Hn).
  rewrite group_local in Hl. pose proof (wf_local_of p W) as Wl.
  destruct p as [e r pre post dev [l|]]; [|discriminate Hl].
  cbn [p_local option_map opt_wf] in *. injection Hl as <-.
  split; [apply split_replace|].
  rewrite (split_any_local_label l Wl).
  split; [apply local_segments_wf; exact Wl|].
  split; [|split; vm_compute; reflexivity].
  exists (Parsed e r pre post dev (Some l)).
  split; [exact W|]. split; [reflexivity|]. exact Hn.
Qed.

Lemma C7_local_version_witness :
  split "." (replace "_" "." (replace "-" "." "build_007-rc.1")) =
  split_any is_sep "build_007-rc.1" /\
  exists p, wf_parsed p = true /\
    normalize_version env_unset "1.0+Build_007-RC.1" =
    Ok (c_epoch p ++ c_release p ++ c_pre p ++ c_post p ++ c_dev p ++
        "+" ++ join "." (map norm_segment
                           (split_any is_sep "build_007-rc.1"))).
Proof.
  destruct (C7_local_version env_unset ("1.0+Build_007-RC.1" : str)
              [("local", "build_007-rc.1" : str); ("release", "1.0" : str)]
              ("build_007-rc.1" : str) eq_refl eq_refl eq_refl)
    as (Hs & _ & (p & W & _ & Hn) & _).
  split; [exact Hs|]. exists p. split; [exact W|exact Hn].
Defined.

(** C7 as it is stated fails: ["1.0+"] followed by 4301 zeros is matched
    with a local version of one all-digit segment, and [int] refuses it;
    and a release of 4301 digits followed by ["+abc"] is matched with the
    local version ["abc"], and [int] refuses the release. *)
Lemma C7_counterexample :
  (option_map (fun m => group m "local")
     (re_match VERSION_PERMISSIVE
        (lower (("1.0+" : str) ++ repeat "0"%char 4301))) =
   Some (Some (repeat "0"%char 4301)) /\
   normalize_version env_unset (("1.0+" : str) ++ repeat "0"%char 4301) =
   Raise ValueError) /\
  (option_map (fun m => group m "local")
     (re_match VERSION_PERMISSIVE
        (lower (repeat "1"%char 4301 ++ ("+abc" : str)))) =
   Some (Some ("abc" : str)) /\
   normalize_version env_unset (repeat "1"%char 4301 ++ ("+abc" : str)) =
   Raise ValueError).
Proof. split; split; vm_compute; reflexivity. Qed.

(** C8, as the source has it.  A change of letter case leaves the outcome
    as it is on every input: the result is the same whenever the grammar
    matches or the override is set, and otherwise both inputs are refused,
    each [InvalidVersion] carrying its own input.  For an input the grammar
    matches, blanks added around it leave the result as it is, and so does
    a [v] or [V] put before an input that starts with a digit; blanks
    around any input, matched or not, do not change what the grammar finds.
    So ["  V1.0  "] and ["1.0"] give the same. *)
Theorem C8_insensitive (env : environ) :
  (forall s s', lower s' = lower s ->
     (allow_invalid env = true \/
      re_match VERSION_PERMISSIVE (lower s) <> None ->
      normalize_version env s' = normalize_version env s) /\
     (normalize_version env s' = normalize_version env s \/
      (normalize_version env s' = Raise (InvalidVersion s') /\
       normalize_version env s = Raise (InvalidVersion s)))) /\
  (forall s m, re_match VERSION_PERMISSIVE (lower s) = Some m ->
     (forall w1 w2,
        forallb is_space w1 = true -> forallb is_space w2 = true ->
        normalize_version env (w1 ++ s ++ w2) = normalize_version env s) /\
     (head_is is_digit s = true ->
      normalize_version env ("v"%char :: s) = normalize_version env s /\
      normalize_version env ("V"%char :: s) = normalize_version env s)) /\
  (forall t w1 w2,
     forallb is_space w1 = true -> forallb is_space w2 = true ->
     re_match VERSION_PERMISSIVE (lower (w1 ++ t ++ w2)) =
     re_match VERSION_PERMISSIVE (lower t)) /\
  normalize_version env "  V1.0  " = normalize_version env "1.0".
Proof.
  assert (Hb : forall t w1 w2,
            forallb is_space w1 = true -> forallb is_space w2 = true ->
            re_match VERSION_PERMISSIVE (lower (w1 ++ t ++ w2)) =
            re_match VERSION_PERMISSIVE (lower t)).
  { intros t w1 w2 H1 H2. rewrite !lower_app.
    rewrite (lower_blanks w1 H1), (lower_blanks w2 H2).
    apply re_match_blanks; assumption. }
  assert (Hc : forall s s', lower s' = lower s ->
            normalize_version env s' = normalize_version env s \/
            (allow_invalid env = false /\
             re_match VERSION_PERMISSIVE (lower s) = None /\
             normalize_version env s' = Raise (InvalidVersion s') /\
             normalize_version env s = Raise (InvalidVersion s))).
  { intros s s' Hs.
    destruct (re_match VERSION_PERMISSIVE (lower s)) as [m|] eqn:E.
    - left. apply (normalize_same_match env _ _ m); [|exact E].
      rewrite Hs. exact E.
    - assert (E' : re_match VERSION_PERMISSIVE (lower s') = None)
        by (rewrite Hs; exact E).
      rewrite (normalize_unmatched env s E), (normalize_unmatched env s' E').
      destruct (allow_invalid env); [left; rewrite Hs; reflexivity|].
      right. auto. }
  split; [|split; [|split]].
  - intros s s' Hs. destruct (Hc s s' Hs) as [H|(A & E & H1 & H2)].
    + split; [intros _; exact H|left; exact H].
    + split; [|right; split; assumption].
      intros [A'|E']; [congruence|contradiction].
  - intros s m E. split.
    + intros w1 w2 H1 H2. apply (normalize_same_match env _ _ m); [|exact E].
      rewrite Hb by assumption. exact E.
    + intros Hd.
      assert (Hl : head_is is_digit (lower s) = true).
      { destruct s as [|a s]; [discriminate|]. simpl in *.
        revert Hd. clear. ascii_cases a; intros H; try discriminate H;
          reflexivity. }
      split; apply (normalize_same_match env _ _ m); try exact E.
      * change (lower ("v"%char :: s)) with ("v"%char :: lower s).
        rewrite (re_match_v _ Hl). exact E.
      * change (lower ("V"%char :: s)) with ("v"%char :: lower s).
        rewrite (re_match_v _ Hl). exact E.
  - exact Hb.
  - vm_compute. reflexivity.
Qed.

Lemma C8_insensitive_witness :
  normalize_version env_allow "Not A Version" =
  normalize_version env_allow "not a version" /\
  normalize_version env_unset ((" " : str) ++ ("1.0RC1" : str) ++ newline :: nil)
  = normalize_version env_unset "1.0RC1" /\
  normalize_version env_unset ("V"%char :: ("1.0RC1" : str)) =
  normalize_version env_unset "1.0RC1".
Proof.
  split; [|split].
  - apply (proj1 (C8_insensitive env_allow)
             ("not a version" : str) ("Not A Version" : str) eq_refl).
    left. reflexivity.
  - apply (proj1 (proj2 (C8_insensitive env_unset)) ("1.0RC1" : str)
             [("pre", "rc1" : str); ("pre_n", "1" : str);
              ("pre_l", "rc" : str); ("release", "1.0" : str)] eq_refl);
      reflexivity.
  - apply (proj1 (proj2 (C8_insensitive env_unset)) ("1.0RC1" : str)
             [("pre", "rc1" : str); ("pre_n", "1" : str);
              ("pre_l", "rc" : str); ("release", "1.0" : str)] eq_refl).
    reflexivity.
Defined.

(** C8 as it is stated fails: a [v] put before ["v1.0"] or before
    [" 1.0"] turns a version into an input that is refused; blanks put
    before an input the grammar does not match show in what the override
    returns; and without the override an unmatched input and its
    lower-cased form are refused with different texts. *)
Lemma C8_counterexample :
  normalize_version env_unset ("v"%char :: ("v1.0" : str)) =
  Raise (InvalidVersion "vv1.0") /\
  normalize_version env_unset "v1.0" = Ok ("1.0" : str) /\
  normalize_version env_unset ("v"%char :: (" 1.0" : str)) =
  Raise (InvalidVersion "v 1.0") /\
  normalize_version env_unset " 1.0" = Ok ("1.0" : str) /\
  normalize_version env_allow ((" " : str) ++ ("x" : str)) = Ok (" x" : str) /\
  normalize_version env_allow "x" = Ok ("x" : str) /\
  normalize_version env_unset "X" = Raise (InvalidVersion "X") /\
  normalize_version env_unset "x" = Raise (InvalidVersion "x").
Proof. repeat split; vm_compute; reflexivity. Qed.

(** * More runs of the matcher: the permissive spellings *)

(** What can follow the release, in general: no digit, no [!], and no dot
    followed by a digit. *)
Definition ends_release (rest : str) : bool :=
  match rest with
  | [] => true
  | a :: t =>
      negb (is_digit a) && negb (Ascii.eqb "!" a) &&
      (negb (Ascii.eqb "." a) || negb (head_is is_digit t))
  end.

Lemma ends_release_head rest :
  ends_release rest = true ->
  head_is (fun a => is_digit a || Ascii.eqb "!" a) rest = false.
Proof.
  destruct rest as [|a t]; [reflexivity|]. unfold ends_release, head_is.
  intros H.
  apply andb_true_iff in H. destruct H as [H _].
  apply andb_true_iff in H. destruct H as [H1 H2].
  apply negb_true_iff in H1, H2. rewrite H1, H2. reflexivity.
Qed.

Lemma ends_release_tail (k : cont) rest c :
  ends_release rest = true -> exec (Cat (Chr ".") digits) k rest c = None.
Proof.
  destruct rest as [|a t]; [reflexivity|]. unfold ends_release. intros H.
  apply andb_true_iff in H. destruct H as [_ H].
  rewrite exec_Cat. unfold Chr. rewrite exec_Cls_cons.
  revert H. destruct (Ascii.eqb "." a); [|reflexivity].
  cbn [negb orb]. intros H. apply negb_true_iff in H.
  unfold digits, Plus. rewrite exec_Cat. apply exec_Cls_head. exact H.
Qed.

Lemma dotted_head (rest : str) (l : list str) :
  ends_release rest = true ->
  head_is (fun a => is_digit a || Ascii.eqb "!" a)
          (List.concat (map (app ("." : str)) l) ++ rest) = false.
Proof.
  intros Hr. destruct l as [|w l]; [apply ends_release_head; exact Hr|].
  rewrite concat_dotted_cons. reflexivity.
Qed.

Lemma run_release_tail_gen (k : cont) rest c m :
  ends_release rest = true -> k rest c = Some m ->
  forall l, forallb (is_run is_digit) l = true ->
    exec (Star (Cat (Chr ".") digits)) k
         (List.concat (map (app ("." : str)) l) ++ rest) c = Some m.
Proof.
  intros Hr Hk. induction l as [|w l IH]; intros Hl.
  - simpl app. rewrite exec_star.
    rewrite ends_release_tail by exact Hr. exact Hk.
  - simpl in Hl. apply andb_true_iff in Hl. destruct Hl as [Hw Hl].
    rewrite concat_dotted_cons.
    rewrite exec_star. rewrite exec_Cat. unfold Chr at 1.
    rewrite exec_Cls_cons. change (Ascii.eqb "." ".") with true. cbv iota.
    rewrite (exec_Plus_Cls_run is_digit _ w _ c m); auto.
    + apply (head_or _ _ _ (dotted_head rest l Hr)).
    + rewrite ltb_app_cons. apply IH. exact Hl.
Qed.

(** The continuation of the core of the pattern. *)
Definition K_LOCAL : cont :=
  exec (Cat LOCAL (Cat (Star (Cls is_space)) Eol)) accept.

(** A release without epoch, and what the rest of the pattern makes of what
    follows it. *)
Lemma re_match_release (r : list str) (rest : str) (m : groups) :
  wf_release r = true -> ends_release rest = true ->
  exec (Cat PRE (Cat POST DEV)) K_LOCAL rest [("release", join "." r)]
  = Some m ->
  re_match VERSION_PERMISSIVE (join "." r ++ rest) = Some m.
Proof.
  intros W Hr Hk. destruct r as [|w l]; [discriminate|].
  pose proof W as W'. simpl in W'. apply andb_true_iff in W'.
  destruct W' as [Hw Hl].
  assert (Hhead : head_is is_digit (join "." (w :: l) ++ rest) = true).
  { rewrite join_cons. destruct w as [|a w]; [discriminate|].
    simpl in Hw. apply andb_true_iff in Hw. apply Hw. }
  rewrite (re_match_digit _ Hhead). rewrite exec_Cat. unfold CORE.
  rewrite exec_Cat. fold K_LOCAL.
  set (K := exec (Cat RELEASE (Cat PRE (Cat POST DEV))) K_LOCAL).
  assert (HK : K (join "." (w :: l) ++ rest) [] = Some m).
  { unfold K. rewrite exec_Cat.
    apply (step_Group _ _ _ _ (join "." (w :: l)) rest); [reflexivity|].
    intros k1 Hk1.
    assert (Hk' : k1 rest [] = Some m) by (rewrite Hk1; exact Hk).
    rewrite join_cons, <- app_assoc. rewrite exec_Cat.
    apply exec_Plus_Cls_run; auto.
    - apply (head_or _ _ _ (dotted_head rest l Hr)).
    - apply run_release_tail_gen; auto. }
  rewrite join_cons, <- app_assoc. rewrite skip_epoch.
  - rewrite app_assoc, <- join_cons. exact HK.
  - exact Hw.
  - apply dotted_head. exact Hr.
Qed.

Lemma step_Group_fail g r (k : cont) s w rest c m :
  s = w ++ rest ->
  (forall k' : cont,
     (forall c', k' rest c' = k rest ((g, w) :: c')) ->
     (forall s', (forall c', k s' c' = None) -> forall c', k' s' c' = None) ->
     exec r k' s c = Some m) ->
  exec (Group g r) k s c = Some m.
Proof.
  intros -> H. simpl. apply H.
  - intros c'. rewrite firstn_consumed. reflexivity.
  - intros s' Hs c'. apply Hs.
Qed.

Lemma sep_cases a :
  is_sep a = true -> a = "-"%char \/ a = "_"%char \/ a = "."%char.
Proof. ascii_cases a; intros H; try discriminate H; auto. Qed.

Lemma sep_opt_cases s :
  is_sep_opt s = true ->
  s = [] \/ s = ("-" : str) \/ s = ("_" : str) \/ s = ("." : str).
Proof.
  destruct s as [|a [|b s]]; simpl; intros H; auto; [|discriminate].
  destruct (sep_cases a H) as [->|[->| ->]]; auto.
Qed.

(** [[-_\.]?(?P<name>[0-9]+)?] at the end of the text. *)
Lemma run_sep_num (name : string) (k : cont) s2 n c m :
  is_sep_opt s2 = true -> is_num_opt n = true ->
  k [] (opt_groups (num_group name) n ++ c) = Some m ->
  exec (Cat (Opt sep) (Opt (Group name digits))) k
       (s2 ++ opt_text id_text n) c = Some m.
Proof.
  intros H2 Hn Hk. rewrite exec_Cat.
  assert (Hnum : exec (Opt (Group name digits)) k (opt_text id_text n) c
                 = Some m).
  { destruct n as [n|].
    - apply (step_num _ _ _ n []); auto.
      symmetry. apply List.app_nil_r.
    - rewrite exec_Opt_skip by reflexivity. exact Hk. }
  destruct s2 as [|a [|b s2]]; [| |discriminate].
  - simpl app. rewrite step_sep_skip; [exact Hnum|].
    destruct n as [n|]; [|reflexivity].
    rewrite <- (List.app_nil_r (opt_text id_text (Some n))).
    apply (head_run is_digit); [apply digit_not_sep|exact Hn].
  - apply step_sep_take; [exact H2|exact Hnum].
Qed.

(** The letters on which the continuation of a spelling has to fail for a
    longer spelling to be tried: a-lpha, b-eta, pre-view. *)
Definition fails_on (x : ascii) (k : cont) : Prop :=
  forall t c, k (x :: t) c = None.

Lemma run_PRE_L (k : cont) tag rest c m :
  mem tag pre_tags = true ->
  fails_on "l" k -> fails_on "e" k -> fails_on "v" k ->
  k rest c = Some m ->
  exec PRE_L k (tag ++ rest) c = Some m.
Proof.
  intros Ht Fl Fe Fv Hk. apply mem_cases in Ht. unfold pre_tags in Ht.
  simpl in Ht. unfold PRE_L.
  destruct Ht as [<-|[<-|[<-|[<-|[<-|[<-|[<-|[<-|[]]]]]]]]].
  - apply exec_Alt_l. rewrite (step_Lit "a" _ _ rest) by reflexivity.
    exact Hk.
  - rewrite exec_Alt_r by reflexivity. apply exec_Alt_l.
    rewrite (step_Lit "b" _ _ rest) by reflexivity. exact Hk.
  - do 2 rewrite exec_Alt_r by reflexivity. apply exec_Alt_l.
    rewrite (step_Lit "c" _ _ rest) by reflexivity. exact Hk.
  - do 3 rewrite exec_Alt_r by reflexivity. apply exec_Alt_l.
    rewrite (step_Lit "rc" _ _ rest) by reflexivity. exact Hk.
  - rewrite exec_Alt_r
      by (rewrite (step_Lit "a" _ _ (("lpha" : str) ++ rest))
            by reflexivity; apply Fl).
    do 3 rewrite exec_Alt_r by reflexivity. apply exec_Alt_l.
    rewrite (step_Lit "alpha" _ _ rest) by reflexivity. exact Hk.
  - rewrite exec_Alt_r by reflexivity.
    rewrite exec_Alt_r
      by (rewrite (step_Lit "b" _ _ (("eta" : str) ++ rest))
            by reflexivity; apply Fe).
    do 3 rewrite exec_Alt_r by reflexivity. apply exec_Alt_l.
    rewrite (step_Lit "beta" _ _ rest) by reflexivity. exact Hk.
  - do 6 rewrite exec_Alt_r by reflexivity. apply exec_Alt_l.
    rewrite (step_Lit "pre" _ _ rest) by reflexivity. exact Hk.
  - do 6 rewrite exec_Alt_r by reflexivity.
    rewrite exec_Alt_r
      by (rewrite (step_Lit "pre" _ _ (("view" : str) ++ rest))
            by reflexivity; apply Fv).
    rewrite (step_Lit "preview" _ _ rest) by reflexivity. exact Hk.
Qed.

Lemma fails_on_sep_num (name : string) (x : ascii) (k : cont) :
  is_sep x = false -> is_digit x = false -> fails_on x k ->
  fails_on x (exec (Cat (Opt sep) (Opt (Group name digits))) k).
Proof.
  intros Hs Hd Hk t c. rewrite exec_Cat.
  rewrite step_sep_skip by exact Hs.
  rewrite exec_Opt_skip; [apply Hk|].
  simpl. rewrite Hd. reflexivity.
Qed.

Lemma tag_head_not_sep tag rest :
  mem tag pre_tags = true -> head_is is_sep (tag ++ rest) = false.
Proof.
  intros Ht. apply mem_cases in Ht. unfold pre_tags in Ht. simpl in Ht.
  destruct Ht as [<-|[<-|[<-|[<-|[<-|[<-|[<-|[<-|[]]]]]]]]]; reflexivity.
Qed.

Lemma fails_on_transfer (x : ascii) (k k' : cont) :
  (forall s', (forall c', k s' c' = None) -> forall c', k' s' c' = None) ->
  fails_on x k -> fails_on x k'.
Proof. intros H Hk t c. apply H. intros c'. apply Hk. Qed.

(** The pre-release in any of its spellings, at the end of the text. *)
Lemma take_pre_forms (k : cont) (p : pre_t) c m :
  wf_pre p = true ->
  fails_on "l" k -> fails_on "e" k -> fails_on "v" k ->
  k [] (pre_groups p ++ c) = Some m ->
  exec PRE k (pre_text p) c = Some m.
Proof.
  destruct p as [s1 tag s2 n]. unfold wf_pre.
  cbn [pre_sep1 pre_l pre_sep2 pre_n]. intros W Fl Fe Fv Hk.
  apply andb_true_iff in W. destruct W as [W Wn].
  apply andb_true_iff in W. destruct W as [W W2].
  apply andb_true_iff in W. destruct W as [W1 Wt].
  apply exec_Opt_take.
  apply (step_Group_fail _ _ _ _ (pre_text (Pre s1 tag s2 n)) []);
    [symmetry; apply List.app_nil_r|]. intros k1 Hk1 Tk1.
  assert (Htag : exec (Cat (Group "pre_l" PRE_L)
                         (Cat (Opt sep) (Opt (Group "pre_n" digits)))) k1
                      (tag ++ s2 ++ opt_text id_text n) c = Some m).
  { rewrite exec_Cat.
    apply (step_Group_fail _ _ _ _ tag (s2 ++ opt_text id_text n));
      [reflexivity|]. intros k2 Hk2 Tk2.
    apply run_PRE_L; [exact Wt| | | |].
    - apply (fails_on_transfer _ _ _ Tk2).
      apply fails_on_sep_num; [reflexivity|reflexivity|].
      apply (fails_on_transfer _ _ _ Tk1). exact Fl.
    - apply (fails_on_transfer _ _ _ Tk2).
      apply fails_on_sep_num; [reflexivity|reflexivity|].
      apply (fails_on_transfer _ _ _ Tk1). exact Fe.
    - apply (fails_on_transfer _ _ _ Tk2).
      apply fails_on_sep_num; [reflexivity|reflexivity|].
      apply (fails_on_transfer _ _ _ Tk1). exact Fv.
    - rewrite Hk2. apply run_sep_num; [exact W2|exact Wn|].
      rewrite Hk1. unfold pre_groups in Hk.
      cbn [pre_n pre_l] in Hk. rewrite <- app_comm_cons, <- app_assoc in Hk.
      exact Hk. }
  rewrite exec_Cat. unfold pre_text. cbn [pre_sep1 pre_l pre_sep2 pre_n].
  destruct s1 as [|a [|b s1]]; [| |discriminate].
  - simpl app. rewrite step_sep_skip; [exact Htag|].
    apply tag_head_not_sep. exact Wt.
  - apply step_sep_take; [exact W1|exact Htag].
Qed.

Lemma after_pre_nil c : exec (Cat POST DEV) K_LOCAL [] c = Some c.
Proof. reflexivity. Qed.

Lemma after_pre_fails_l : fails_on "l" (exec (Cat POST DEV) K_LOCAL).
Proof. intros [|b t] c; reflexivity. Qed.

Lemma after_pre_fails_e : fails_on "e" (exec (Cat POST DEV) K_LOCAL).
Proof. intros [|b t] c; reflexivity. Qed.

Lemma after_pre_fails_v : fails_on "v" (exec (Cat POST DEV) K_LOCAL).
Proof. intros [|b t] c; reflexivity. Qed.

Lemma ends_release_pre (p : pre_t) :
  wf_pre p = true -> ends_release (pre_text p) = true.
Proof.
  destruct p as [s1 tag s2 n]. unfold wf_pre, pre_text.
  cbn [pre_sep1 pre_l pre_sep2 pre_n]. intros W.
  apply andb_true_iff in W. destruct W as [W _].
  apply andb_true_iff in W. destruct W as [W _].
  apply andb_true_iff in W. destruct W as [W1 Wt].
  apply mem_cases in Wt. unfold pre_tags in Wt. simpl in Wt.
  destruct (sep_opt_cases s1 W1) as [->|[->|[->| ->]]];
    destruct Wt as [<-|[<-|[<-|[<-|[<-|[<-|[<-|[<-|[]]]]]]]]]; reflexivity.
Qed.

(** A release followed by a pre-release in any spelling. *)
Definition with_pre (r : list str) (p : pre_t) : parsed :=
  Parsed None r (Some p) None None None.

Lemma re_match_pre_forms (r : list str) (p : pre_t) :
  wf_release r = true -> wf_pre p = true ->
  re_match VERSION_PERMISSIVE (text_of (with_pre r p)) =
  Some (groups_of (with_pre r p)).
Proof.
  intros Wr Wp. unfold text_of, groups_of, with_pre.
  cbn [p_epoch p_release p_pre p_post p_dev p_local opt_text opt_groups app].
  rewrite !List.app_nil_r.
  apply re_match_release; [exact Wr|apply ends_release_pre; exact Wp|].
  rewrite exec_Cat. apply take_pre_forms; [exact Wp| | | |].
  - apply after_pre_fails_l.
  - apply after_pre_fails_e.
  - apply after_pre_fails_v.
  - apply after_pre_nil.
Qed.

(** ** Leaving the pre-release out *)

Lemma exec_Group_eq g r (k : cont) s c :
  exec (Group g r) k s c =
  exec r (fun s' c' =>
            k s' ((g, firstn (List.length s - List.length s') s) :: c')) s c.
Proof. reflexivity. Qed.

(** No pre-release where no spelling starts, neither at once nor after a
    separator. *)
Lemma skip_pre_gen (k : cont) s c :
  (forall k' c', exec PRE_L k' s c' = None) ->
  (forall a t, s = a :: t -> is_sep a = true ->
               forall k' c', exec PRE_L k' t c' = None) ->
  exec PRE k s c = k s c.
Proof.
  intros H1 H2. apply exec_Opt_skip.
  rewrite exec_Group_eq, exec_Cat.
  set (k1 := fun s' c' =>
               k s' (("pre", firstn (List.length s - List.length s') s)
                     :: c')).
  assert (Hhere : forall t,
            (forall k' c', exec PRE_L k' t c' = None) ->
            exec (Cat (Group "pre_l" PRE_L)
                    (Cat (Opt sep) (Opt (Group "pre_n" digits)))) k1 t c
            = None).
  { intros t Ht. rewrite exec_Cat, exec_Group_eq. apply Ht. }
  destruct s as [|a t].
  - rewrite exec_Opt_skip by reflexivity. apply Hhere. exact H1.
  - destruct (is_sep a) eqn:Ha.
    + unfold Opt. rewrite exec_Alt_r.
      * apply (Hhere (a :: t)). exact H1.
      * unfold sep. rewrite exec_Cls_cons, Ha. apply Hhere.
        apply (H2 a t eq_refl Ha).
    + rewrite step_sep_skip by exact Ha. apply Hhere. exact H1.
Qed.

(** The first letters of the pre-release spellings. *)
Definition is_pre_first (a : ascii) : bool :=
  Ascii.eqb a "a" || Ascii.eqb a "b" || Ascii.eqb a "c" ||
  Ascii.eqb a "r" || Ascii.eqb a "p".

Lemma PRE_L_fail_head (k : cont) s c :
  head_is is_pre_first s = false -> exec PRE_L k s c = None.
Proof.
  destruct s as [|x t]; [reflexivity|]. simpl head_is.
  ascii_cases x; intros H; try discriminate H; reflexivity.
Qed.

Lemma PRE_L_fail_r (k : cont) t c :
  head_is (Ascii.eqb "c") t = false -> exec PRE_L k ("r"%char :: t) c = None.
Proof.
  intros H. unfold PRE_L. do 3 rewrite exec_Alt_r by reflexivity.
  rewrite exec_Alt_r.
  - reflexivity.
  - change (Lit ("rc" : str)) with (Cat (Chr "r") (Cat (Chr "c") Eps)).
    rewrite exec_Cat. unfold Chr at 1. rewrite exec_Cls_cons.
    change (Ascii.eqb "r" "r") with true. cbv iota.
    rewrite exec_Cat. apply exec_Cls_head. exact H.
Qed.

Lemma digit_not_pre_first a : is_digit a = true -> is_pre_first a = false.
Proof. ascii_cases a; intros H; try discriminate H; reflexivity. Qed.

Lemma sep_not_pre_first a : is_sep a = true -> is_pre_first a = false.
Proof. ascii_cases a; intros H; try discriminate H; reflexivity. Qed.

(** The head of [[-_\.]?[0-9]*]: a separator, a digit, or nothing. *)
Lemma head_sep_num (q : ascii -> bool) (s2 : str) (n : option str) :
  (forall a, is_sep a = true -> q a = false) ->
  (forall a, is_digit a = true -> q a = false) ->
  is_sep_opt s2 = true -> is_num_opt n = true ->
  head_is q (s2 ++ opt_text id_text n) = false.
Proof.
  intros Hs Hd H2 Hn. destruct s2 as [|a [|b s2]]; [| |discriminate].
  - destruct n as [[|d n]|]; try reflexivity.
    simpl in Hn. apply andb_true_iff in Hn. destruct Hn as [Hn _].
    simpl. apply Hd. exact Hn.
  - simpl. apply Hs. exact H2.
Qed.

Lemma sep_not_c a : is_sep a = true -> Ascii.eqb "c" a = false.
Proof. ascii_cases a; intros H; try discriminate H; reflexivity. Qed.

Lemma digit_not_c a : is_digit a = true -> Ascii.eqb "c" a = false.
Proof. ascii_cases a; intros H; try discriminate H; reflexivity. Qed.

Lemma sep_not_e a : is_sep a = true -> Ascii.eqb "e" a = false.
Proof. ascii_cases a; intros H; try discriminate H; reflexivity. Qed.

Lemma digit_not_e a : is_digit a = true -> Ascii.eqb "e" a = false.
Proof. ascii_cases a; intros H; try discriminate H; reflexivity. Qed.

Lemma PRE_L_fail_post_tag (k : cont) l s2 n c :
  mem l post_tags = true -> is_sep_opt s2 = true -> is_num_opt n = true ->
  exec PRE_L k (l ++ s2 ++ opt_text id_text n) c = None.
Proof.
  intros Hl H2 Hn. apply mem_cases in Hl. unfold post_tags in Hl.
  simpl in Hl. destruct Hl as [<-|[<-|[<-|[]]]]; [reflexivity|reflexivity|].
  apply PRE_L_fail_r.
  apply head_sep_num; auto using sep_not_c, digit_not_c.
Qed.

Lemma skip_pre_post (k : cont) (po : post_t) c :
  wf_post po = true -> exec PRE k (post_text po) c = k (post_text po) c.
Proof.
  intros W. destruct po as [n|s1 l s2 n].
  - simpl in W. destruct n as [|d n]; [discriminate|].
    apply skip_pre_gen.
    + intros k' c'. reflexivity.
    + intros a t E Ha k' c'. injection E as <- <-.
      apply PRE_L_fail_head. simpl.
      simpl in W. apply andb_true_iff in W. destruct W as [Hd _].
      apply digit_not_pre_first. exact Hd.
  - unfold wf_post in W.
    apply andb_true_iff in W. destruct W as [W Wn].
    apply andb_true_iff in W. destruct W as [W W2].
    apply andb_true_iff in W. destruct W as [W1 Wl].
    unfold post_text. destruct s1 as [|x [|y s1]]; [| |discriminate].
    + apply skip_pre_gen.
      * intros k' c'. apply PRE_L_fail_post_tag; auto.
      * intros a t E Ha k' c'. exfalso.
        apply mem_cases in Wl. unfold post_tags in Wl. simpl in Wl.
        destruct Wl as [<-|[<-|[<-|[]]]]; injection E as <- _;
          discriminate Ha.
    + apply skip_pre_gen.
      * intros k' c'. apply PRE_L_fail_head. simpl.
        apply sep_not_pre_first. exact W1.
      * intros a t E Ha k' c'. injection E as <- <-.
        apply PRE_L_fail_post_tag; auto.
Qed.

(** ** The post release in its spellings *)

Lemma Lit_rev_fail (k : cont) t c :
  head_is (Ascii.eqb "e") t = false ->
  exec (Lit ("rev" : str)) k ("r"%char :: t) c = None.
Proof.
  intros H.
  change (Lit ("rev" : str))
    with (Cat (Chr "r") (Cat (Chr "e") (Cat (Chr "v") Eps))).
  rewrite exec_Cat. unfold Chr at 1. rewrite exec_Cls_cons.
  change (Ascii.eqb "r" "r") with true. cbv iota.
  rewrite exec_Cat. apply exec_Cls_head. exact H.
Qed.

Lemma run_POST_L (k : cont) l rest c m :
  mem l post_tags = true -> head_is (Ascii.eqb "e") rest = false ->
  k rest c = Some m ->
  exec POST_L k (l ++ rest) c = Some m.
Proof.
  intros Hl He Hk. apply mem_cases in Hl. unfold post_tags in Hl.
  simpl in Hl. unfold POST_L. destruct Hl as [<-|[<-|[<-|[]]]].
  - apply exec_Alt_l. rewrite (step_Lit "post" _ _ rest) by reflexivity.
    exact Hk.
  - rewrite exec_Alt_r by reflexivity. apply exec_Alt_l.
    rewrite (step_Lit "rev" _ _ rest) by reflexivity. exact Hk.
  - rewrite exec_Alt_r by reflexivity.
    rewrite exec_Alt_r by (apply Lit_rev_fail; exact He).
    rewrite (step_Lit "r" _ _ rest) by reflexivity. exact Hk.
Qed.

Lemma post_tag_head l rest :
  mem l post_tags = true ->
  head_is (fun a => is_sep a || is_digit a) (l ++ rest) = false.
Proof.
  intros Hl. apply mem_cases in Hl. unfold post_tags in Hl. simpl in Hl.
  destruct Hl as [<-|[<-|[<-|[]]]]; reflexivity.
Qed.

Lemma head_not_dash (s : str) :
  head_is is_sep s = false -> head_is (Ascii.eqb "-") s = false.
Proof.
  destruct s as [|y t]; [reflexivity|]. unfold head_is. intros H.
  destruct (Ascii.eqb "-" y) eqn:E; [|reflexivity].
  apply Ascii.eqb_eq in E. subst y. discriminate H.
Qed.

(** The post release in any of its spellings, at the end of the text. *)
Lemma take_post_forms (k : cont) (po : post_t) c m :
  wf_post po = true ->
  k [] (post_groups po ++ c) = Some m ->
  exec POST k (post_text po) c = Some m.
Proof.
  intros W Hk. apply exec_Opt_take.
  apply (step_Group _ _ _ _ (post_text po) []);
    [symmetry; apply List.app_nil_r|]. intros k1 Hk1.
  destruct po as [n|s1 l s2 n].
  - simpl in W. apply exec_Alt_l. rewrite exec_Cat.
    change (post_text (Post1 n)) with ("-"%char :: n).
    unfold Chr. rewrite exec_Cls_cons.
    change (Ascii.eqb "-" "-") with true. cbv iota.
    rewrite <- (List.app_nil_r n) at 1.
    apply exec_num; [exact W|reflexivity|].
    rewrite Hk1. exact Hk.
  - unfold wf_post in W.
    apply andb_true_iff in W. destruct W as [W Wn].
    apply andb_true_iff in W. destruct W as [W W2].
    apply andb_true_iff in W. destruct W as [W1 Wl].
    pose proof (post_tag_head l (s2 ++ opt_text id_text n) Wl) as Hh.
    apply head_or in Hh. destruct Hh as [Hhs Hhd].
    assert (Htag : exec (Cat (Group "post_l" POST_L)
                           (Cat (Opt sep) (Opt (Group "post_n2" digits))))
                        k1 (l ++ s2 ++ opt_text id_text n) c = Some m).
    { rewrite exec_Cat.
      apply (step_Group _ _ _ _ l (s2 ++ opt_text id_text n));
        [reflexivity|]. intros k2 Hk2.
      apply run_POST_L; [exact Wl| |].
      - apply head_sep_num; auto using sep_not_e, digit_not_e.
      - rewrite Hk2. apply run_sep_num; [exact W2|exact Wn|].
        rewrite Hk1. unfold post_groups in Hk.
        rewrite <- app_comm_cons, <- app_assoc in Hk. exact Hk. }
    unfold post_text.
    destruct s1 as [|x [|y s1]]; [| |discriminate].
    + simpl app. rewrite exec_Alt_r.
      * rewrite exec_Cat. rewrite step_sep_skip; [exact Htag|exact Hhs].
      * rewrite exec_Cat. apply exec_Cls_head.
        apply head_not_dash. exact Hhs.
    + rewrite exec_Alt_r.
      * rewrite exec_Cat. apply step_sep_take; [exact W1|exact Htag].
      * rewrite exec_Cat. unfold Chr. simpl app.
        rewrite exec_Cls_cons.
        destruct (Ascii.eqb "-" x); [|reflexivity].
        rewrite exec_Group_eq. unfold digits, Plus. rewrite exec_Cat.
        apply exec_Cls_head. exact Hhd.
Qed.

Lemma ends_release_post (po : post_t) :
  wf_post po = true -> ends_release (post_text po) = true.
Proof.
  intros W. destruct po as [n|s1 l s2 n]; [reflexivity|].
  unfold wf_post in W.
  apply andb_true_iff in W. destruct W as [W _].
  apply andb_true_iff in W. destruct W as [W _].
  apply andb_true_iff in W. destruct W as [W1 Wl].
  apply mem_cases in Wl. unfold post_tags in Wl. simpl in Wl.
  unfold post_text.
  destruct (sep_opt_cases s1 W1) as [->|[->|[->| ->]]];
    destruct Wl as [<-|[<-|[<-|[]]]]; reflexivity.
Qed.

Definition with_post (r : list str) (po : post_t) : parsed :=
  Parsed None r None (Some po) None None.

Lemma re_match_post_forms (r : list str) (po : post_t) :
  wf_release r = true -> wf_post po = true ->
  re_match VERSION_PERMISSIVE (text_of (with_post r po)) =
  Some (groups_of (with_post r po)).
Proof.
  intros Wr Wp. unfold text_of, groups_of, with_post.
  cbn [p_epoch p_release p_pre p_post p_dev p_local opt_text opt_groups app].
  rewrite !List.app_nil_r.
  apply re_match_release; [exact Wr|apply ends_release_post; exact Wp|].
  rewrite exec_Cat. rewrite skip_pre_post by exact Wp.
  rewrite exec_Cat. apply take_post_forms; [exact Wp|]. reflexivity.
Qed.

(** ** The dev release in its spellings *)

Lemma skip_pre_dev (k : cont) (d : dev_t) c :
  wf_dev d = true -> exec PRE k (dev_text d) c = k (dev_text d) c.
Proof.
  destruct d as [s1 s2 n]. unfold wf_dev, dev_text.
  cbn [dev_sep1 dev_sep2 dev_n]. intros W.
  apply andb_true_iff in W. destruct W as [W _].
  apply andb_true_iff in W. destruct W as [W1 _].
  apply skip_pre_gen.
  - intros k' c'. apply PRE_L_fail_head.
    destruct (sep_opt_cases s1 W1) as [->|[->|[->| ->]]]; reflexivity.
  - intros a t E Ha k' c'. apply PRE_L_fail_head.
    destruct (sep_opt_cases s1 W1) as [->|[->|[->| ->]]];
      injection E as <- <-; try discriminate Ha; reflexivity.
Qed.

Lemma skip_post_dev (k : cont) (d : dev_t) c :
  wf_dev d = true -> exec POST k (dev_text d) c = k (dev_text d) c.
Proof.
  destruct d as [s1 s2 n]. unfold wf_dev, dev_text.
  cbn [dev_sep1 dev_sep2 dev_n]. intros W.
  apply andb_true_iff in W. destruct W as [W _].
  apply andb_true_iff in W. destruct W as [W1 _].
  apply exec_Opt_skip.
  destruct (sep_opt_cases s1 W1) as [->|[->|[->| ->]]]; reflexivity.
Qed.

(** The dev release in any of its spellings, at the end of the text. *)
Lemma take_dev_forms (k : cont) (d : dev_t) c m :
  wf_dev d = true ->
  k [] (dev_groups d ++ c) = Some m ->
  exec DEV k (dev_text d) c = Some m.
Proof.
  destruct d as [s1 s2 n]. unfold wf_dev.
  cbn [dev_sep1 dev_sep2 dev_n]. intros W Hk.
  apply andb_true_iff in W. destruct W as [W Wn].
  apply andb_true_iff in W. destruct W as [W1 W2].
  apply exec_Opt_take.
  apply (step_Group _ _ _ _ (dev_text (Dev s1 s2 n)) []);
    [symmetry; apply List.app_nil_r|]. intros k1 Hk1.
  assert (Htag : exec (Cat (Group "dev_l" (Lit "dev"))
                         (Cat (Opt sep) (Opt (Group "dev_n" digits))))
                      k1 (("dev" : str) ++ s2 ++ opt_text id_text n) c
                 = Some m).
  { rewrite exec_Cat.
    apply (step_Group _ _ _ _ ("dev" : str) (s2 ++ opt_text id_text n));
      [reflexivity|]. intros k2 Hk2.
    rewrite (step_Lit "dev" _ _ (s2 ++ opt_text id_text n)) by reflexivity.
    rewrite Hk2. apply run_sep_num; [exact W2|exact Wn|].
    rewrite Hk1. unfold dev_groups in Hk. cbn [dev_n] in Hk.
    rewrite <- app_comm_cons, <- app_assoc in Hk. exact Hk. }
  rewrite exec_Cat. unfold dev_text. cbn [dev_sep1 dev_sep2 dev_n].
  destruct s1 as [|a [|b s1]]; [| |discriminate].
  - simpl app. rewrite step_sep_skip; [exact Htag|reflexivity].
  - apply step_sep_take; [exact W1|exact Htag].
Qed.

Lemma ends_release_dev (d : dev_t) :
  wf_dev d = true -> ends_release (dev_text d) = true.
Proof.
  destruct d as [s1 s2 n]. unfold wf_dev, dev_text.
  cbn [dev_sep1 dev_sep2 dev_n]. intros W.
  apply andb_true_iff in W. destruct W as [W _].
  apply andb_true_iff in W. destruct W as [W1 _].
  destruct (sep_opt_cases s1 W1) as [->|[->|[->| ->]]]; reflexivity.
Qed.

Definition with_dev (r : list str) (d : dev_t) : parsed :=
  Parsed None r None None (Some d) None.

Lemma re_match_dev_forms (r : list str) (d : dev_t) :
  wf_release r = true -> wf_dev d = true ->
  re_match VERSION_PERMISSIVE (text_of (with_dev r d)) =
  Some (groups_of (with_dev r d)).
Proof.
  intros Wr Wd. unfold text_of, groups_of, with_dev.
  cbn [p_epoch p_release p_pre p_post p_dev p_local opt_text opt_groups app].
  rewrite !List.app_nil_r.
  apply re_match_release; [exact Wr|apply ends_release_dev; exact Wd|].
  rewrite exec_Cat. rewrite skip_pre_dev by exact Wd.
  rewrite exec_Cat. rewrite skip_post_dev by exact Wd.
  apply take_dev_forms; [exact Wd|]. reflexivity.
Qed.

(** * The alphabet of a version *)

(** Letters, digits and separators: the characters of every piece but the
    two marks. *)
Definition is_word_char (a : ascii) : bool := is_alnum a || is_sep a.

(** The characters a version can be written with, blanks apart. *)
Definition is_input_char (a : ascii) : bool :=
  is_word_char a || Ascii.eqb a "!" || Ascii.eqb a "+".

Lemma digit_word a : is_digit a = true -> is_word_char a = true.
Proof. ascii_cases a; intros H; try discriminate H; reflexivity. Qed.

Lemma alnum_word a : is_alnum a = true -> is_word_char a = true.
Proof. unfold is_word_char. intros ->. reflexivity. Qed.

Lemma sep_word a : is_sep a = true -> is_word_char a = true.
Proof. ascii_cases a; intros H; try discriminate H; reflexivity. Qed.

Lemma word_input a : is_word_char a = true -> is_input_char a = true.
Proof. unfold is_input_char. intros ->. reflexivity. Qed.

Lemma digits_word (w : str) :
  is_run is_digit w = true -> forallb is_word_char w = true.
Proof.
  intros H. apply is_run_forallb in H. revert H. apply forallb_impl.
  apply digit_word.
Qed.

Lemma alnums_word (w : str) :
  is_run is_alnum w = true -> forallb is_word_char w = true.
Proof.
  intros H. apply is_run_forallb in H. revert H. apply forallb_impl.
  apply alnum_word.
Qed.

Lemma sep_opt_word (s : str) :
  is_sep_opt s = true -> forallb is_word_char s = true.
Proof.
  intros H. destruct (sep_opt_cases s H) as [->|[->|[->| ->]]]; reflexivity.
Qed.

Lemma num_opt_word (n : option str) :
  is_num_opt n = true -> forallb is_word_char (opt_text id_text n) = true.
Proof. destruct n as [n|]; [apply digits_word|reflexivity]. Qed.

Lemma release_word (r : list str) :
  wf_release r = true -> forallb is_word_char (join "." r) = true.
Proof.
  intros Wr. apply forallb_join; [reflexivity|].
  destruct r as [|w l]; [discriminate|]. unfold wf_release in Wr.
  revert Wr. apply forallb_impl. apply digits_word.
Qed.

Lemma pre_text_word (p : pre_t) :
  wf_pre p = true -> forallb is_word_char (pre_text p) = true.
Proof.
  destruct p as [s1 l s2 n]. unfold wf_pre, pre_text.
  cbn [pre_sep1 pre_l pre_sep2 pre_n]. intros W.
  apply andb_true_iff in W. destruct W as [W Wn].
  apply andb_true_iff in W. destruct W as [W W2].
  apply andb_true_iff in W. destruct W as [W1 Wl].
  rewrite !forallb_app, (sep_opt_word s1 W1), (sep_opt_word s2 W2),
    (num_opt_word n Wn).
  apply mem_cases in Wl. unfold pre_tags in Wl. simpl in Wl.
  destruct Wl as [<-|[<-|[<-|[<-|[<-|[<-|[<-|[<-|[]]]]]]]]]; reflexivity.
Qed.

Lemma post_text_word (p : post_t) :
  wf_post p = true -> forallb is_word_char (post_text p) = true.
Proof.
  destruct p as [n|s1 l s2 n]; unfold wf_post, post_text; intros W.
  - rewrite forallb_app, (digits_word n W). reflexivity.
  - apply andb_true_iff in W. destruct W as [W Wn].
    apply andb_true_iff in W. destruct W as [W W2].
    apply andb_true_iff in W. destruct W as [W1 Wl].
    rewrite !forallb_app, (sep_opt_word s1 W1), (sep_opt_word s2 W2),
      (num_opt_word n Wn).
    apply mem_cases in Wl. unfold post_tags in Wl. simpl in Wl.
    destruct Wl as [<-|[<-|[<-|[]]]]; reflexivity.
Qed.

Lemma dev_text_word (d : dev_t) :
  wf_dev d = true -> forallb is_word_char (dev_text d) = true.
Proof.
  destruct d as [s1 s2 n]. unfold wf_dev, dev_text.
  cbn [dev_sep1 dev_sep2 dev_n]. intros W.
  apply andb_true_iff in W. destruct W as [W Wn].
  apply andb_true_iff in W. destruct W as [W1 W2].
  rewrite !forallb_app, (sep_opt_word s1 W1), (sep_opt_word s2 W2),
    (num_opt_word n Wn). reflexivity.
Qed.

Lemma local_label_word (l : local_t) :
  wf_local l = true ->
  forallb is_word_char (local_label l) = true /\ local_label l <> [].
Proof.
  destruct l as [h t]. unfold wf_local, local_label.
  cbn [local_head local_tail]. intros W.
  apply andb_true_iff in W. destruct W as [Wh Wt]. split.
  - rewrite !forallb_app, (alnums_word h Wh). simpl.
    induction t as [|[a w] t IH]; [reflexivity|].
    simpl in Wt. apply andb_true_iff in Wt. destruct Wt as [Haw Wt].
    apply andb_true_iff in Haw. destruct Haw as [Ha Hw].
    cbn [map List.concat fst snd]. rewrite forallb_app. simpl.
    rewrite (sep_word a Ha), (alnums_word w Hw), (IH Wt). reflexivity.
  - destruct h; [discriminate Wh|discriminate].
Qed.

(** The pieces of a version from the release to the dev release. *)
Definition middle_text (p : parsed) : str :=
  join "." (p_release p) ++ opt_text pre_text (p_pre p) ++
  opt_text post_text (p_post p) ++ opt_text dev_text (p_dev p).

Lemma text_of_middle (p : parsed) :
  text_of p = opt_text epoch_text (p_epoch p) ++ middle_text p ++
              opt_text local_text (p_local p).
Proof. unfold text_of, middle_text. rewrite <- !app_assoc. reflexivity. Qed.

Lemma middle_word (p : parsed) :
  wf_parsed p = true ->
  forallb is_word_char (middle_text p) = true /\ middle_text p <> [].
Proof.
  destruct p as [e r pre post dev loc]. unfold wf_parsed, middle_text.
  cbn [p_epoch p_release p_pre p_post p_dev p_local]. intros W.
  apply andb_true_iff in W. destruct W as [W _].
  apply andb_true_iff in W. destruct W as [W Wd].
  apply andb_true_iff in W. destruct W as [W Wo].
  apply andb_true_iff in W. destruct W as [W Wp].
  apply andb_true_iff in W. destruct W as [_ Wr]. split.
  - rewrite !forallb_app, (release_word r Wr).
    repeat (apply andb_true_iff; split); [reflexivity| | |].
    + destruct pre as [p|]; [apply pre_text_word; exact Wp|reflexivity].
    + destruct post as [p|]; [apply post_text_word; exact Wo|reflexivity].
    + destruct dev as [d|]; [apply dev_text_word; exact Wd|reflexivity].
  - destruct r as [|[|a w] l]; try discriminate Wr.
    rewrite join_cons. discriminate.
Qed.

(** Every character of a version is a lower-case letter, a digit, a
    separator, [!] or [+]. *)
Lemma text_chars (p : parsed) :
  wf_parsed p = true -> forallb is_input_char (text_of p) = true.
Proof.
  intros W. rewrite text_of_middle, !forallb_app.
  destruct (middle_word p W) as [Hm _].
  rewrite (forallb_impl _ _ _ word_input Hm).
  unfold wf_parsed in W.
  apply andb_true_iff in W. destruct W as [W Wl].
  apply andb_true_iff in W. destruct W as [W _].
  apply andb_true_iff in W. destruct W as [W _].
  apply andb_true_iff in W. destruct W as [W _].
  apply andb_true_iff in W. destruct W as [We _].
  apply andb_true_iff. split; [|apply andb_true_iff; split; [reflexivity|]].
  - destruct (p_epoch p) as [e|]; [|reflexivity].
    unfold opt_text, epoch_text. rewrite forallb_app.
    rewrite (forallb_impl _ _ _ word_input (digits_word e We)).
    reflexivity.
  - destruct (p_local p) as [l|]; [|reflexivity].
    unfold opt_text, local_text. rewrite forallb_app.
    destruct (local_label_word l Wl) as [Hl _].
    rewrite (forallb_impl _ _ _ word_input Hl). reflexivity.
Qed.

Lemma lower_input_char a : is_input_char a = true -> lower_char a = a.
Proof. ascii_cases a; intros H; try discriminate H; reflexivity. Qed.

Lemma lower_text (p : parsed) :
  wf_parsed p = true -> lower (text_of p) = text_of p.
Proof.
  intros W. pose proof (text_chars p W) as H.
  induction (text_of p) as [|a s IH]; [reflexivity|].
  simpl in H. apply andb_true_iff in H. destruct H as [Ha Hs].
  simpl. rewrite (lower_input_char a Ha), (IH Hs). reflexivity.
Qed.

(** A version starts with a digit. *)
Lemma text_head_digit (p : parsed) :
  wf_parsed p = true -> head_is is_digit (text_of p) = true.
Proof.
  destruct p as [e r pre post dev loc]. unfold wf_parsed, text_of.
  cbn [p_epoch p_release p_pre p_post p_dev p_local]. intros W.
  apply andb_true_iff in W. destruct W as [W _].
  apply andb_true_iff in W. destruct W as [W _].
  apply andb_true_iff in W. destruct W as [W _].
  apply andb_true_iff in W. destruct W as [W _].
  apply andb_true_iff in W. destruct W as [We Wr].
  destruct e as [[|a e]|]; try discriminate We.
  - simpl in We. apply andb_true_iff in We. apply We.
  - destruct r as [|[|a w] l]; try discriminate Wr.
    simpl in Wr. apply andb_true_iff in Wr. destruct Wr as [Wr _].
    apply andb_true_iff in Wr. destruct Wr as [Ha _].
    rewrite join_cons. exact Ha.
Qed.

(** A text the matcher finds the pieces of is normalised to the canonical
    text of these pieces. *)
Lemma normalize_text (env : environ) (p : parsed) :
  wf_parsed p = true ->
  re_match VERSION_PERMISSIVE (text_of p) = Some (groups_of p) ->
  normalize_version env (text_of p) =
  if small p then Ok (canonical p) else Raise ValueError.
Proof.
  intros W H. apply normalize_parsed; [|exact W].
  rewrite (lower_text p W). exact H.
Qed.

(** * Further properties of [normalize_version] *)

(** X1. The exceptions of [normalize_version].  It raises [InvalidVersion]
    with the input as it was given when the grammar finds no match and the
    override is not set, and [ValueError] when the grammar finds a match
    and one of the numbers handed to [int] has more digits than the limit,
    whether the override is set or not; it raises nothing else, the table
    lookup after a match never fails, and a matched input whose numbers are
    all within the limit has a result. *)
Theorem X1_exceptions (env : environ) (s : str) :
  (forall e, normalize_version env s = Raise e ->
     (e = InvalidVersion s /\ allow_invalid env = false /\
      re_match VERSION_PERMISSIVE (lower s) = None) \/
     (e = ValueError /\
      exists m w, re_match VERSION_PERMISSIVE (lower s) = Some m /\
                  In w (literals m) /\
                  int_max_str_digits < List.length w)) /\
  (forall m, re_match VERSION_PERMISSIVE (lower s) = Some m ->
     within_limit m = false -> normalize_version env s = Raise ValueError) /\
  (forall m, re_match VERSION_PERMISSIVE (lower s) = Some m ->
     within_limit m = true -> exists out, normalize_version env s = Ok out).
Proof.
  split; [|split].
  - intros e H.
    destruct (re_match VERSION_PERMISSIVE (lower s)) as [m|] eqn:E.
    + right.
      destruct (normalize_matched env s m E)
        as (p & _ & _ & _ & _ & _ & _ & _ & _ & _ & Hl & Hn).
      rewrite Hn in H. rewrite <- Hl in H.
      destruct (within_limit m) eqn:L; [discriminate H|].
      injection H as <-. split; [reflexivity|].
      unfold within_limit in L.
      assert (Hex : existsb (fun w => negb (short w)) (literals m) = true).
      { clear - L. induction (literals m) as [|w l IH]; [discriminate L|].
        cbn [forallb existsb] in *. destruct (short w); [|reflexivity].
        apply IH, L. }
      apply existsb_exists in Hex. destruct Hex as (w & Hw & Hs).
      exists m, w. split; [reflexivity|]. split; [exact Hw|].
      apply negb_true_iff in Hs. unfold short in Hs.
      apply Nat.leb_gt in Hs. exact Hs.
    + left. rewrite (normalize_unmatched env s E) in H.
      destruct (allow_invalid env); [discriminate|].
      injection H as <-. auto.
  - intros m E L.
    destruct (normalize_matched env s m E)
      as (p & _ & _ & _ & _ & _ & _ & _ & _ & _ & Hl & Hn).
    rewrite <- Hl, L in Hn. exact Hn.
  - intros m E L.
    destruct (normalize_within env s m E L) as (p & _ & _ & _ & Hn).
    exists (canonical p). exact Hn.
Qed.

Lemma X1_exceptions_witness :
  ((InvalidVersion "2024.1 beta" = InvalidVersion "2024.1 beta" /\
    allow_invalid env_unset = false /\
    re_match VERSION_PERMISSIVE (lower "2024.1 beta") = None) \/
   (InvalidVersion "2024.1 beta" = ValueError /\
    exists m w,
      re_match VERSION_PERMISSIVE (lower "2024.1 beta") = Some m /\
      In w (literals m) /\ int_max_str_digits < List.length w)) /\
  (exists out, normalize_version env_unset "2024.01" = Ok out).
Proof.
  split.
  - exact (proj1 (X1_exceptions env_unset ("2024.1 beta" : str))
             (InvalidVersion "2024.1 beta") eq_refl).
  - exact (proj2 (proj2 (X1_exceptions env_unset ("2024.01" : str)))
             [("release", "2024.01" : str)] eq_refl eq_refl).
Defined.

(** X2. An input that holds a character which, lower-cased, is neither a
    blank, a letter a-z, a digit, one of [-], [_], [.], nor [!] or [+] is
    never matched: it is refused, or returned lower-cased when the override
    is set. *)
Theorem X2_foreign_character (env : environ) (s : str) (a : ascii) :
  In a s ->
  is_space (lower_char a) || is_input_char (lower_char a) = false ->
  re_match VERSION_PERMISSIVE (lower s) = None /\
  normalize_version env s =
  if allow_invalid env then Ok (lower s) else Raise (InvalidVersion s).
Proof.
  intros Ha Hc.
  assert (E : re_match VERSION_PERMISSIVE (lower s) = None).
  { destruct (re_match VERSION_PERMISSIVE (lower s)) as [m|] eqn:E;
      [|reflexivity]. exfalso.
    destruct (match_shape _ _ E)
      as (ws1 & v & p & ws2 & Hs & H1 & Hv & W & _ & H2).
    assert (Hin : In (lower_char a) (lower s)) by (apply in_map; exact Ha).
    rewrite Hs in Hin. apply orb_false_iff in Hc. destruct Hc as [Hsp Hic].
    rewrite forallb_forall in H1, H2.
    pose proof (text_chars p W) as Ht. rewrite forallb_forall in Ht.
    apply in_app_or in Hin. destruct Hin as [Hin|Hin];
      [apply H1 in Hin; congruence|].
    apply in_app_or in Hin. destruct Hin as [Hin|Hin].
    - destruct Hv as [-> | ->]; [contradiction|].
      destruct Hin as [Hin|[]]. rewrite <- Hin in Hic. discriminate Hic.
    - apply in_app_or in Hin. destruct Hin as [Hin|Hin];
        [apply Ht in Hin|apply H2 in Hin]; congruence. }
  split; [exact E|]. apply normalize_unmatched. exact E.
Qed.

Lemma X2_foreign_character_witness :
  re_match VERSION_PERMISSIVE (lower "1.0~rc1") = None /\
  normalize_version env_unset "1.0~rc1" =
  if allow_invalid env_unset then Ok (lower "1.0~rc1")
  else Raise (InvalidVersion "1.0~rc1").
Proof.
  apply (X2_foreign_character env_unset ("1.0~rc1" : str) "~").
  - simpl. auto.
  - reflexivity.
Defined.

(** X3. A matched input has a digit right after its leading blanks and its
    optional [v]; what [normalize_version] returns for it starts with a
    digit, so it is never the empty string; and it does return when the
    numbers of the input are within the limit of [int]. *)
Theorem X3_first_digit (env : environ) (s : str) (m : groups) :
  re_match VERSION_PERMISSIVE (lower s) = Some m ->
  (exists ws1 v d t,
     lower s = ws1 ++ v ++ d :: t /\ forallb is_space ws1 = true /\
     (v = [] \/ v = ("v" : str)) /\ is_digit d = true) /\
  (forall out, normalize_version env s = Ok out ->
     exists d t, out = d :: t /\ is_digit d = true) /\
  (within_limit m = true ->
   exists d t, normalize_version env s = Ok (d :: t) /\ is_digit d = true).
Proof.
  intros E.
  destruct (normalize_matched env s m E)
    as (p & ws1 & v & ws2 & Hs & H1 & Hv & _ & W & _ & Hl & Hn).
  assert (Hc : exists d t, canonical p = d :: t /\ is_digit d = true).
  { pose proof (text_head_digit (canon p) (wf_canon p W)) as Hd.
    rewrite text_canon in Hd.
    destruct (canonical p) as [|d t]; [discriminate|].
    exists d, t. auto. }
  split; [|split].
  - pose proof (text_head_digit p W) as Hd.
    destruct (text_of p) as [|d t]; [discriminate|].
    exists ws1, v, d, (t ++ ws2). rewrite Hs. auto.
  - intros out H. rewrite Hn in H. destruct (small p); [|discriminate H].
    injection H as <-. exact Hc.
  - intros L. rewrite <- Hl, L in Hn.
    destruct Hc as (d & t & Hc & Hd). exists d, t. rewrite Hn, Hc. auto.
Qed.

Lemma X3_first_digit_witness :
  (exists ws1 v d t,
     lower " V2.0" = ws1 ++ v ++ d :: t /\ forallb is_space ws1 = true /\
     (v = [] \/ v = ("v" : str)) /\ is_digit d = true) /\
  (exists d t, normalize_version env_unset " V2.0" = Ok (d :: t) /\
               is_digit d = true).
Proof.
  destruct (X3_first_digit env_unset (" V2.0" : str)
              [("release", "2.0" : str)] eq_refl) as (H1 & _ & H3).
  split; [exact H1|]. apply H3. reflexivity.
Defined.

(** Numbers without leading zeros, dots alone in the local version. *)
Definition strict_num (o : option str) : bool := opt_wf no_leading_zero o.

Definition strict_segment (w : str) : bool :=
  negb (is_run is_digit w) || no_leading_zero w.

Definition strict (q : parsed) : bool :=
  strict_num (p_epoch q) && forallb no_leading_zero (p_release q) &&
  opt_wf (fun pr => strict_num (pre_n pr)) (p_pre q) &&
  opt_wf (fun po => match po with
                    | Post1 n => no_leading_zero n
                    | Post2 _ _ _ n => strict_num n
                    end) (p_post q) &&
  opt_wf (fun d => strict_num (dev_n d)) (p_dev q) &&
  opt_wf (fun l => strict_segment (local_head l) &&
                   forallb (fun aw => Ascii.eqb (fst aw) "." &&
                                      strict_segment (snd aw))
                           (local_tail l)) (p_local q).

Lemma num_or_zero_strict (o : option str) :
  no_leading_zero (num_or_zero o) = true.
Proof.
  destruct o as [n|]; [apply strip_zeros_no_leading_zero|reflexivity].
Qed.

Lemma norm_segment_strict (w : str) : strict_segment (norm_segment w) = true.
Proof.
  unfold strict_segment, norm_segment.
  destruct (is_run is_digit w) eqn:E.
  - rewrite strip_zeros_no_leading_zero. apply orb_true_r.
  - rewrite E. reflexivity.
Qed.

Lemma strict_canon (p : parsed) : strict (canon p) = true.
Proof.
  destruct p as [e r pre post dev loc]. unfold strict, canon.
  cbn [p_epoch p_release p_pre p_post p_dev p_local].
  repeat (apply andb_true_iff; split).
  - destruct e as [e|]; [apply strip_zeros_no_leading_zero|reflexivity].
  - induction r as [|w r IH]; [reflexivity|]. simpl.
    rewrite strip_zeros_no_leading_zero. exact IH.
  - destruct pre as [pr|]; [apply num_or_zero_strict|reflexivity].
  - destruct post as [[n|s1 l s2 n]|];
      [apply strip_zeros_no_leading_zero|apply num_or_zero_strict
      |reflexivity].
  - destruct dev as [d|]; [apply num_or_zero_strict|reflexivity].
  - destruct loc as [[h t]|]; [|reflexivity].
    cbn [option_map opt_wf canon_local local_head local_tail].
    rewrite norm_segment_strict. simpl.
    induction t as [|[a w] t IH]; [reflexivity|].
    cbn [map forallb fst snd]. rewrite norm_segment_strict, IH.
    reflexivity.
Qed.

(** X4. What [normalize_version] returns for a matched input whose
    numbers are within the limit of [int] is a version in the canonical
    spellings: no separator but the dot of [.post], of [.dev] and of the
    local version, a pre-release spelled a, b or rc with its number, no
    number with a leading zero and none over the limit; and the grammar
    reads it back piece by piece. *)
Theorem X4_output_strict (env : environ) (s : str) (m : groups) :
  re_match VERSION_PERMISSIVE (lower s) = Some m ->
  within_limit m = true ->
  exists q,
    normalize_version env s = Ok (text_of q) /\
    wf_parsed q = true /\ plain q = true /\ strict q = true /\
    small q = true /\
    re_match VERSION_PERMISSIVE (text_of q) = Some (groups_of q).
Proof.
  intros E L.
  destruct (normalize_within env s m E L) as (p & W & _ & S & Hn).
  exists (canon p). rewrite text_canon.
  split; [exact Hn|]. split; [apply wf_canon; exact W|].
  split; [apply plain_canon|]. split; [apply strict_canon|].
  split; [apply small_canon; exact S|].
  rewrite <- text_canon.
  apply re_match_plain; [apply wf_canon; exact W|apply plain_canon].
Qed.

Lemma X4_output_strict_witness :
  exists q,
    normalize_version env_unset "01.010_Beta-02.r" = Ok (text_of q) /\
    wf_parsed q = true /\ plain q = true /\ strict q = true /\
    small q = true /\
    re_match VERSION_PERMISSIVE (text_of q) = Some (groups_of q).
Proof.
  apply (X4_output_strict env_unset ("01.010_Beta-02.r" : str)
           [("post", ".r" : str); ("post_l", "r" : str);
            ("pre", "_beta-02" : str); ("pre_n", "02" : str);
            ("pre_l", "beta" : str); ("release", "01.010" : str)]);
    reflexivity.
Defined.

(** Letters, digits, dots and [+]: what follows the epoch in the canonical
    text. *)
Definition is_tail_char (a : ascii) : bool :=
  is_alnum a || Ascii.eqb a "." || Ascii.eqb a "+".

Lemma digits_tail (w : str) :
  is_run is_digit w = true -> forallb is_tail_char w = true.
Proof.
  intros H. apply is_run_forallb in H. revert H. apply forallb_impl.
  intros a Ha. unfold is_tail_char. rewrite (digit_alnum a Ha). reflexivity.
Qed.

Lemma alnums_tail (w : str) :
  is_run is_alnum w = true -> forallb is_tail_char w = true.
Proof.
  intros H. apply is_run_forallb in H. revert H. apply forallb_impl.
  intros a Ha. unfold is_tail_char. rewrite Ha. reflexivity.
Qed.

Lemma canonical_tail_chars (p : parsed) :
  wf_parsed p = true ->
  forallb is_tail_char
    (c_release p ++ c_pre p ++ c_post p ++ c_dev p ++ c_local p) = true.
Proof.
  destruct p as [e r pre post dev loc]. unfold wf_parsed.
  unfold c_release, c_pre, c_post, c_dev, c_local.
  cbn [p_epoch p_release p_pre p_post p_dev p_local]. intros W.
  apply andb_true_iff in W. destruct W as [W Wl].
  apply andb_true_iff in W. destruct W as [W Wd].
  apply andb_true_iff in W. destruct W as [W Wo].
  apply andb_true_iff in W. destruct W as [W Wp].
  apply andb_true_iff in W. destruct W as [_ Wr].
  rewrite !forallb_app. repeat (apply andb_true_iff; split).
  - apply forallb_join; [reflexivity|].
    destruct r as [|w l]; [discriminate|]. unfold wf_release in Wr.
    revert Wr. apply forallb_map_impl. intros x Hx.
    apply digits_tail, strip_zeros_digits, Hx.
  - destruct pre as [[s1 l s2 n]|]; [|reflexivity].
    unfold opt_wf, wf_pre in Wp. cbn [pre_sep1 pre_l pre_sep2 pre_n] in Wp.
    apply andb_true_iff in Wp. destruct Wp as [_ Wn].
    cbn [opt_text pre_l pre_n].
    rewrite forallb_app, (digits_tail _ (num_or_zero_digits n Wn)).
    destruct (canonical_tag_cases l) as [H|[H|H]]; rewrite H; reflexivity.
  - destruct post as [po|]; [|reflexivity]. cbn [opt_text opt_wf] in *.
    rewrite forallb_app, (digits_tail _ (post_number_digits po Wo)).
    reflexivity.
  - destruct dev as [[s1 s2 n]|]; [|reflexivity].
    unfold opt_wf, wf_dev in Wd. cbn [dev_sep1 dev_sep2 dev_n] in Wd.
    apply andb_true_iff in Wd. destruct Wd as [_ Wn].
    cbn [opt_text dev_n].
    rewrite forallb_app, (digits_tail _ (num_or_zero_digits n Wn)).
    reflexivity.
  - destruct loc as [l|]; [|reflexivity]. cbn [opt_text opt_wf] in *.
    rewrite forallb_app. apply andb_true_iff. split; [reflexivity|].
    apply forallb_join; [reflexivity|].
    generalize (local_segments_wf l Wl). apply forallb_map_impl.
    intros x Hx. apply alnums_tail, norm_segment_alnums, Hx.
Qed.

Lemma tail_no_bang (w : str) :
  forallb is_tail_char w = true -> ~ In "!"%char w.
Proof.
  intros H Hin. rewrite forallb_forall in H. apply H in Hin.
  discriminate Hin.
Qed.

(** X5. For a matched input whose numbers are within the limit of [int]:
    when the epoch takes part in the match, the result starts with its
    number without leading zeros and a [!], and holds no other [!]; when it
    does not, the result holds no [!] at all. *)
Theorem X5_epoch (env : environ) (s : str) (m : groups) :
  re_match VERSION_PERMISSIVE (lower s) = Some m ->
  within_limit m = true ->
  exists rest,
    normalize_version env s =
    Ok (match group m "epoch" with
        | Some e => strip_zeros e ++ "!" ++ rest
        | None => rest
        end) /\
    ~ In "!"%char rest.
Proof.
  intros E L.
  destruct (normalize_within env s m E L) as (p & W & -> & _ & Hn).
  exists (c_release p ++ c_pre p ++ c_post p ++ c_dev p ++ c_local p).
  rewrite group_epoch. split.
  - rewrite Hn. unfold canonical, c_epoch.
    destruct (p_epoch p) as [e|]; [|reflexivity].
    cbn [opt_text]. rewrite <- !app_assoc. reflexivity.
  - apply tail_no_bang, canonical_tail_chars, W.
Qed.

Lemma X5_epoch_witness :
  exists rest,
    normalize_version env_unset "007!1.0" =
    Ok (strip_zeros "007" ++ "!" ++ rest) /\
    ~ In "!"%char rest.
Proof.
  apply (X5_epoch env_unset ("007!1.0" : str)
           [("release", "1.0" : str); ("epoch", "007" : str)]);
    reflexivity.
Defined.

(** X6. When the dev release takes part in the match, its tag is [dev]
    and, the numbers of the input being within the limit of [int], the
    result holds, after the post release and before the local version,
    [.dev] and the number without leading zeros, 0 when the input has
    none. *)
Theorem X6_dev_release (env : environ) (s : str) (m : groups) (tag : str) :
  re_match VERSION_PERMISSIVE (lower s) = Some m ->
  within_limit m = true ->
  group m "dev_l" = Some tag ->
  tag = ("dev" : str) /\
  exists p, wf_parsed p = true /\ m = groups_of p /\
    normalize_version env s =
    Ok (c_epoch p ++ c_release p ++ c_pre p ++ c_post p ++
        (".dev" ++ num_or_zero (group m "dev_n")) ++ c_local p).
Proof.
  intros E L Ht.
  destruct (normalize_within env s m E L) as (p & W & -> & _ & Hn).
  rewrite group_dev_l in Ht. rewrite group_dev_n.
  destruct p as [e r pre post [d|] loc]; [|discriminate Ht].
  cbn [p_dev] in *. injection Ht as <-. split; [reflexivity|].
  exists (Parsed e r pre post (Some d) loc).
  split; [exact W|]. split; [reflexivity|]. exact Hn.
Qed.

Lemma X6_dev_release_witness :
  ("dev" : str) = ("dev" : str) /\
  exists p, wf_parsed p = true /\
    [("dev", "-dev" : str); ("dev_l", "dev" : str);
     ("release", "3" : str)] = groups_of p /\
    normalize_version env_unset "3-DEV" =
    Ok (c_epoch p ++ c_release p ++ c_pre p ++ c_post p ++
        (".dev" ++ num_or_zero None) ++ c_local p).
Proof.
  exact (X6_dev_release env_unset ("3-DEV" : str)
           [("dev", "-dev" : str); ("dev_l", "dev" : str);
            ("release", "3" : str)] ("dev" : str) eq_refl eq_refl eq_refl).
Defined.

(** X7. A release followed by a pre-release in any of its spellings (an
    optional separator, one of the eight tags, an optional separator, an
    optional number) is normalised to the release, the short tag and the
    number, 0 by default: all the spellings of a pre-release give the same
    text, and a number after [-] belongs to the pre-release.  The numbers
    are taken within the limit of [int]. *)
Theorem X7_pre_release_spellings (env : environ) (r : list str)
  (s1 tag s2 : str) (n : option str) :
  wf_release r = true -> is_sep_opt s1 = true ->
  mem tag pre_tags = true -> is_sep_opt s2 = true -> is_num_opt n = true ->
  forallb short r = true -> forallb short (opt_list n) = true ->
  normalize_version env
    (join "." r ++ s1 ++ tag ++ s2 ++ opt_text id_text n) =
  Ok (join "." (map strip_zeros r) ++ canonical_tag tag ++ num_or_zero n).
Proof.
  intros Wr W1 Wt W2 Wn Sr Sn.
  assert (Wp : wf_pre (Pre s1 tag s2 n) = true).
  { unfold wf_pre. cbn [pre_sep1 pre_l pre_sep2 pre_n].
    rewrite W1, Wt, W2, Wn. reflexivity. }
  assert (W : wf_parsed (with_pre r (Pre s1 tag s2 n)) = true).
  { unfold wf_parsed, with_pre.
    cbn [p_epoch p_release p_pre p_post p_dev p_local opt_wf].
    rewrite Wr, Wp. reflexivity. }
  pose proof (normalize_text env _ W
                (re_match_pre_forms r _ Wr Wp)) as H.
  assert (S : small (with_pre r (Pre s1 tag s2 n)) = true).
  { unfold small, ints_of, with_pre.
    cbn [p_epoch p_release p_pre p_post p_dev p_local opt_list opt_ints app].
    unfold pre_ints. cbn [pre_n]. rewrite !forallb_app, Sr, Sn.
    reflexivity. }
  rewrite S in H.
  unfold text_of, canonical, with_pre, c_epoch, c_release, c_pre, c_post,
    c_dev, c_local in H.
  cbn [p_epoch p_release p_pre p_post p_dev p_local opt_text app
       pre_l pre_n] in H.
  rewrite !List.app_nil_r in H. exact H.
Qed.

Lemma X7_pre_release_spellings_witness :
  normalize_version env_unset
    (join "." ["1" : str; "02" : str] ++ ("_" : str) ++ ("preview" : str) ++
     ("-" : str) ++ opt_text id_text (Some ("003" : str))) =
  Ok (join "." (map strip_zeros ["1" : str; "02" : str]) ++
      canonical_tag "preview" ++ num_or_zero (Some ("003" : str))).
Proof.
  apply (X7_pre_release_spellings env_unset ["1" : str; "02" : str]
           ("_" : str) ("preview" : str) ("-" : str)
           (Some ("003" : str))); reflexivity.
Defined.

(** X8. A release followed by a post release in any of its spellings,
    [-N] or an optional separator, post, rev or r, an optional separator
    and an optional number, is normalised to the release, [.post] and the
    number, 0 by default.  The numbers are taken within the limit of
    [int]. *)
Theorem X8_post_release_spellings (env : environ) (r : list str)
  (po : post_t) :
  wf_release r = true -> wf_post po = true ->
  forallb short r = true -> forallb short (post_ints po) = true ->
  normalize_version env (join "." r ++ post_text po) =
  Ok (join "." (map strip_zeros r) ++ ".post" ++ post_number po).
Proof.
  intros Wr Wp Sr Sp.
  assert (W : wf_parsed (with_post r po) = true).
  { unfold wf_parsed, with_post.
    cbn [p_epoch p_release p_pre p_post p_dev p_local opt_wf].
    rewrite Wr, Wp. reflexivity. }
  pose proof (normalize_text env _ W
                (re_match_post_forms r _ Wr Wp)) as H.
  assert (S : small (with_post r po) = true).
  { unfold small, ints_of, with_post.
    cbn [p_epoch p_release p_pre p_post p_dev p_local opt_list opt_ints app].
    rewrite !forallb_app, Sr, Sp. reflexivity. }
  rewrite S in H.
  unfold text_of, canonical, with_post, c_epoch, c_release, c_pre, c_post,
    c_dev, c_local in H.
  cbn [p_epoch p_release p_pre p_post p_dev p_local opt_text app] in H.
  rewrite !List.app_nil_r in H. exact H.
Qed.

Lemma X8_post_release_spellings_witness :
  normalize_version env_unset
    (join "." ["1" : str; "0" : str] ++ post_text (Post1 "007")) =
  Ok (join "." (map strip_zeros ["1" : str; "0" : str]) ++ ".post" ++
      post_number (Post1 "007")) /\
  normalize_version env_unset
    (join "." ["1" : str; "0" : str] ++ post_text (Post2 "_" "r" "." None)) =
  Ok (join "." (map strip_zeros ["1" : str; "0" : str]) ++ ".post" ++
      post_number (Post2 "_" "r" "." None)).
Proof.
  split.
  - apply (X8_post_release_spellings env_unset ["1" : str; "0" : str]
             (Post1 "007")); reflexivity.
  - apply (X8_post_release_spellings env_unset ["1" : str; "0" : str]
             (Post2 "_" "r" "." None)); reflexivity.
Defined.

(** X9. A release followed by a dev release in any of its spellings (an
    optional separator, [dev], an optional separator, an optional number)
    is normalised to the release, [.dev] and the number, 0 by default.  The
    numbers are taken within the limit of [int]. *)
Theorem X9_dev_release_spellings (env : environ) (r : list str)
  (s1 s2 : str) (n : option str) :
  wf_release r = true -> is_sep_opt s1 = true -> is_sep_opt s2 = true ->
  is_num_opt n = true ->
  forallb short r = true -> forallb short (opt_list n) = true ->
  normalize_version env
    (join "." r ++ s1 ++ "dev" ++ s2 ++ opt_text id_text n) =
  Ok (join "." (map strip_zeros r) ++ ".dev" ++ num_or_zero n).
Proof.
  intros Wr W1 W2 Wn Sr Sn.
  assert (Wd : wf_dev (Dev s1 s2 n) = true).
  { unfold wf_dev. cbn [dev_sep1 dev_sep2 dev_n].
    rewrite W1, W2, Wn. reflexivity. }
  assert (W : wf_parsed (with_dev r (Dev s1 s2 n)) = true).
  { unfold wf_parsed, with_dev.
    cbn [p_epoch p_release p_pre p_post p_dev p_local opt_wf].
    rewrite Wr, Wd. reflexivity. }
  pose proof (normalize_text env _ W
                (re_match_dev_forms r _ Wr Wd)) as H.
  assert (S : small (with_dev r (Dev s1 s2 n)) = true).
  { unfold small, ints_of, with_dev.
    cbn [p_epoch p_release p_pre p_post p_dev p_local opt_list opt_ints app].
    unfold dev_ints. cbn [dev_n]. rewrite !forallb_app, Sr, Sn.
    reflexivity. }
  rewrite S in H.
  unfold text_of, canonical, with_dev, c_epoch, c_release, c_pre, c_post,
    c_dev, c_local in H.
  cbn [p_epoch p_release p_pre p_post p_dev p_local opt_text app dev_n] in H.
  rewrite !List.app_nil_r in H. exact H.
Qed.

Lemma X9_dev_release_spellings_witness :
  normalize_version env_unset
    (join "." ["4" : str] ++ ("-" : str) ++ "dev" ++ ("_" : str) ++
     opt_text id_text (Some ("01" : str))) =
  Ok (join "." (map strip_zeros ["4" : str]) ++ ".dev" ++
      num_or_zero (Some ("01" : str))).
Proof.
  apply (X9_dev_release_spellings env_unset ["4" : str] ("-" : str)
           ("_" : str) (Some ("01" : str))); reflexivity.
Defined.

(** X10. A version written in the canonical spellings, whatever the
    leading zeros of its numbers and the separators of its local version,
    is matched piece by piece, all the optional pieces together; it is
    normalised to the canonical text of its pieces when its numbers are
    within the limit of [int], and [ValueError] is raised when one is
    not. *)
Theorem X10_canonical_spellings (env : environ) (q : parsed) :
  wf_parsed q = true -> plain q = true ->
  re_match VERSION_PERMISSIVE (text_of q) = Some (groups_of q) /\
  normalize_version env (text_of q) =
  if small q then Ok (canonical q) else Raise ValueError.
Proof.
  intros W P. pose proof (re_match_plain q W P) as H.
  split; [exact H|]. apply normalize_text; assumption.
Qed.

Lemma X10_canonical_spellings_witness :
  re_match VERSION_PERMISSIVE
    (text_of (Parsed (Some ("01" : str)) ["2" : str; "00" : str]
                (Some (Pre [] "rc" [] (Some ("03" : str))))
                (Some (Post2 "." "post" [] (Some ("4" : str))))
                (Some (Dev "." [] (Some ("05" : str))))
                (Some (Local "ubuntu" [("-"%char, "01" : str)])))) =
  Some (groups_of
          (Parsed (Some ("01" : str)) ["2" : str; "00" : str]
             (Some (Pre [] "rc" [] (Some ("03" : str))))
             (Some (Post2 "." "post" [] (Some ("4" : str))))
             (Some (Dev "." [] (Some ("05" : str))))
             (Some (Local "ubuntu" [("-"%char, "01" : str)])))) /\
  normalize_version env_unset
    (text_of (Parsed (Some ("01" : str)) ["2" : str; "00" : str]
                (Some (Pre [] "rc" [] (Some ("03" : str))))
                (Some (Post2 "." "post" [] (Some ("4" : str))))
                (Some (Dev "." [] (Some ("05" : str))))
                (Some (Local "ubuntu" [("-"%char, "01" : str)])))) =
  Ok (canonical
        (Parsed (Some ("01" : str)) ["2" : str; "00" : str]
           (Some (Pre [] "rc" [] (Some ("03" : str))))
           (Some (Post2 "." "post" [] (Some ("4" : str))))
           (Some (Dev "." [] (Some ("05" : str))))
           (Some (Local "ubuntu" [("-"%char, "01" : str)])))).
Proof.
  apply (X10_canonical_spellings env_unset
           (Parsed (Some ("01" : str)) ["2" : str; "00" : str]
              (Some (Pre [] "rc" [] (Some ("03" : str))))
              (Some (Post2 "." "post" [] (Some ("4" : str))))
              (Some (Dev "." [] (Some ("05" : str))))
              (Some (Local "ubuntu" [("-"%char, "01" : str)]))));
    reflexivity.
Defined.

Lemma norm_segment_fixed (w : str) :
  strict_segment w = true -> norm_segment w = w.
Proof.
  unfold strict_segment, norm_segment.
  destruct (is_run is_digit w); [|reflexivity].
  cbn [negb orb]. apply strip_zeros_fixed.
Qed.

Lemma map_fixed {A : Type} (f : A -> A) (p : A -> bool) (l : list A) :
  (forall x, p x = true -> f x = x) -> forallb p l = true -> map f l = l.
Proof.
  intros Hf. induction l as [|x l IH]; [reflexivity|]. simpl. intros H.
  apply andb_true_iff in H. destruct H as [Hx Hl].
  rewrite (Hf x Hx), (IH Hl). reflexivity.
Qed.

Lemma num_or_zero_some (n : str) :
  no_leading_zero n = true -> num_or_zero (Some n) = n.
Proof. apply strip_zeros_fixed. Qed.

(** The canonical text of a strict version in the canonical spellings is
    its own text. *)
Lemma canonical_strict (q : parsed) :
  wf_parsed q = true -> plain q = true -> strict q = true ->
  canonical q = text_of q.
Proof.
  destruct q as [e r pre post dev loc].
  unfold wf_parsed, plain, strict, canonical, text_of.
  unfold c_epoch, c_release, c_pre, c_post, c_dev, c_local.
  cbn [p_epoch p_release p_pre p_post p_dev p_local]. intros W P S.
  apply andb_true_iff in W. destruct W as [W Wl].
  apply andb_true_iff in W. destruct W as [W Wd].
  apply andb_true_iff in W. destruct W as [W Wo].
  apply andb_true_iff in W. destruct W as [_ Wp].
  apply andb_true_iff in P. destruct P as [P Pd].
  apply andb_true_iff in P. destruct P as [Pp Po].
  apply andb_true_iff in S. destruct S as [S Sl].
  apply andb_true_iff in S. destruct S as [S Sd].
  apply andb_true_iff in S. destruct S as [S So].
  apply andb_true_iff in S. destruct S as [S Sp].
  apply andb_true_iff in S. destruct S as [Se Sr].
  f_equal; [|f_equal; [|f_equal; [|f_equal; [|f_equal]]]].
  - destruct e as [e|]; [|reflexivity]. cbn [opt_text]. unfold epoch_text.
    rewrite (strip_zeros_fixed e Se). reflexivity.
  - f_equal. revert Sr. apply map_fixed. apply strip_zeros_fixed.
  - destruct pre as [pr|]; [|reflexivity]. cbn [opt_wf opt_text] in *.
    destruct (plain_pre_inv pr Pp Wp) as (l & n & -> & Hl & _).
    cbn [pre_l pre_n strict_num opt_wf] in *.
    rewrite (num_or_zero_some n Sp).
    apply mem_cases in Hl. simpl in Hl.
    destruct Hl as [<-|[<-|[<-|[]]]]; reflexivity.
  - destruct post as [po|]; [|reflexivity]. cbn [opt_wf opt_text] in *.
    destruct (plain_post_inv po Po Wo) as (n & -> & _).
    cbn [post_number strict_num opt_wf] in *.
    rewrite (num_or_zero_some n So). reflexivity.
  - destruct dev as [d|]; [|reflexivity]. cbn [opt_wf opt_text] in *.
    destruct (plain_dev_inv d Pd Wd) as (n & -> & _).
    cbn [dev_n strict_num opt_wf] in *.
    rewrite (num_or_zero_some n Sd). reflexivity.
  - destruct loc as [[h t]|]; [|reflexivity]. cbn [opt_wf opt_text] in *.
    cbn [local_head local_tail] in Sl.
    apply andb_true_iff in Sl. destruct Sl as [Sh St].
    unfold local_text, local_label, local_segments.
    cbn [local_head local_tail map]. f_equal.
    rewrite join_cons, (norm_segment_fixed h Sh). f_equal. clear - St.
    induction t as [|[a w] t IH]; [reflexivity|].
    simpl in St. apply andb_true_iff in St. destruct St as [Haw St].
    apply andb_true_iff in Haw. destruct Haw as [Ha Hw].
    apply Ascii.eqb_eq in Ha. subst a.
    cbn [map List.concat fst snd]. rewrite (norm_segment_fixed w Hw).
    rewrite (IH St). reflexivity.
Qed.

(** X11. A version in the canonical spellings whose numbers have no
    leading zero and are within the limit of [int], and whose local version
    uses dots only, is returned as it is: these texts are the fixed points
    among the matched inputs. *)
Theorem X11_strict_fixed (env : environ) (q : parsed) :
  wf_parsed q = true -> plain q = true -> strict q = true ->
  small q = true ->
  normalize_version env (text_of q) = Ok (text_of q).
Proof.
  intros W P S L. rewrite <- (canonical_strict q W P S) at 2.
  rewrite (normalize_text env q W (re_match_plain q W P)), L. reflexivity.
Qed.

Lemma X11_strict_fixed_witness :
  normalize_version env_unset
    (text_of (Parsed None ["10" : str; "0" : str]
                (Some (Pre [] "b" [] (Some ("2" : str)))) None
                (Some (Dev "." [] (Some ("0" : str))))
                (Some (Local "g" [("."%char, "7f3a" : str)])))) =
  Ok (text_of (Parsed None ["10" : str; "0" : str]
                 (Some (Pre [] "b" [] (Some ("2" : str)))) None
                 (Some (Dev "." [] (Some ("0" : str))))
                 (Some (Local "g" [("."%char, "7f3a" : str)])))).
Proof.
  apply X11_strict_fixed; reflexivity.
Defined.

(** [pattern.fullmatch(w)]: a match that uses the whole of [w]. *)
Definition fullmatch (r : regex) (w : str) : option groups :=
  exec r (fun s c => match s with [] => Some c | _ :: _ => None end) w [].

Lemma str_eqb_sym (a b : str) : str_eqb a b = str_eqb b a.
Proof.
  unfold str_eqb.
  destruct (list_eq_dec ascii_dec a b), (list_eq_dec ascii_dec b a);
    congruence.
Qed.

Lemma getitem_missing (k : str) :
  mem k pre_tags = false -> getitem pre_spellings k = Raise (KeyError k).
Proof.
  unfold mem, pre_tags. cbn [existsb]. intros H.
  repeat (apply orb_false_iff in H;
          let H1 := fresh "E" in destruct H as [H1 H];
          rewrite str_eqb_sym in H1).
  unfold pre_spellings. cbn [getitem].
  rewrite E, E0, E1, E2, E3, E4, E5, E6. reflexivity.
Qed.

(** X12. The table [pre_spellings] and the alternation of the pattern
    agree: a word has an entry exactly when the alternation matches the
    whole of it; an entry is a, b or rc, and each of these three has
    itself as its entry; a word without entry gives [KeyError]. *)
Theorem X12_pre_spellings_keys (k : str) :
  (fullmatch PRE_L k <> None <->
   exists v, getitem pre_spellings k = Ok v) /\
  (forall v, getitem pre_spellings k = Ok v ->
     mem v ["a" : str; "b" : str; "rc" : str] = true /\
     getitem pre_spellings v = Ok v) /\
  (fullmatch PRE_L k = None -> getitem pre_spellings k = Raise (KeyError k)).
Proof.
  assert (Hfm : fullmatch PRE_L k <> None <-> mem k pre_tags = true).
  { split.
    - intros H. destruct (fullmatch PRE_L k) as [m|] eqn:E; [|congruence].
      unfold fullmatch in E. apply exec_sound in E.
      destruct E as (w & rest & c' & -> & Hm & Hk).
      destruct rest as [|a rest]; [|discriminate].
      apply matches_PRE_L in Hm. rewrite List.app_nil_r. apply Hm.
    - intros H. apply mem_cases in H. unfold pre_tags in H. simpl in H.
      destruct H as [<-|[<-|[<-|[<-|[<-|[<-|[<-|[<-|[]]]]]]]]];
        discriminate. }
  assert (Hget : mem k pre_tags = true <->
                 exists v, getitem pre_spellings k = Ok v).
  { split.
    - intros H. exists (canonical_tag k). apply getitem_pre_spellings, H.
    - intros [v Hv]. destruct (mem k pre_tags) eqn:E; [reflexivity|].
      rewrite (getitem_missing k E) in Hv. discriminate. }
  split; [|split].
  - rewrite Hfm. exact Hget.
  - intros v Hv.
    assert (Hk : mem k pre_tags = true) by (apply Hget; eauto).
    rewrite (getitem_pre_spellings k Hk) in Hv. injection Hv as <-.
    destruct (canonical_tag_cases k) as [H|[H|H]]; rewrite H;
      split; reflexivity.
  - intros H. apply getitem_missing.
    assert (Hn : mem k pre_tags <> true)
      by (intros E; apply Hfm in E; congruence).
    destruct (mem k pre_tags); congruence.
Qed.

Lemma X12_pre_spellings_keys_witness :
  getitem pre_spellings "dev" = Raise (KeyError "dev") /\
  (mem "rc" ["a" : str; "b" : str; "rc" : str] = true /\
   getitem pre_spellings "rc" = Ok ("rc" : str)).
Proof.
  split.
  - apply (proj2 (proj2 (X12_pre_spellings_keys ("dev" : str)))).
    reflexivity.
  - apply (proj1 (proj2 (X12_pre_spellings_keys ("preview" : str)))).
    reflexivity.
Defined.

(** ** The value of a number *)

Lemma uint_of_chars_of_uint (u : Decimal.uint) :
  uint_of_chars (chars_of_uint u) = Some u.
Proof. induction u; simpl; try rewrite IHu; reflexivity. Qed.

Lemma chars_of_uint_nil (u : Decimal.uint) :
  chars_of_uint u = [] -> u = Decimal.Nil.
Proof. destruct u; simpl; intros H; try discriminate H; reflexivity. Qed.

(** [int(str(n)) == n] *)
Lemma int_str_of_int (n : N) (w : str) :
  str_of_int n = Ok w -> int w = Ok n.
Proof.
  unfold str_of_int, int.
  destruct (Nat.leb (List.length (chars_of_uint (N.to_uint n)))
                    int_max_str_digits) eqn:L; [|discriminate].
  intros H. injection H as <-.
  destruct (chars_of_uint (N.to_uint n)) as [|a w] eqn:E.
  - exfalso. apply chars_of_uint_nil in E.
    apply (DecimalFacts.unorm_nonnil (N.to_uint n)).
    rewrite <- DecimalN.Unsigned.to_of, DecimalN.Unsigned.of_to. exact E.
  - rewrite <- E in L |- *.
    rewrite uint_of_chars_of_uint, L, DecimalN.Unsigned.of_to.
    reflexivity.
Qed.

Lemma int_digits (w : str) :
  is_run is_digit w = true -> short w = true ->
  exists n, int w = Ok n /\ str_of_int n = Ok (strip_zeros w).
Proof.
  intros H S. pose proof (str_int_digits w H S) as Hs.
  unfold str_int in Hs. destruct (int w) as [n|e]; [|discriminate].
  exists n. split; [reflexivity|]. exact Hs.
Qed.

Lemma int_strip_zeros (w : str) :
  is_run is_digit w = true -> short w = true ->
  int (strip_zeros w) = int w.
Proof.
  intros H S. destruct (int_digits w H S) as (n & Hn & Hs).
  rewrite Hn. apply int_str_of_int. exact Hs.
Qed.

Lemma mapM_int_strip (l : list str) :
  forallb (is_run is_digit) l = true -> forallb short l = true ->
  mapM int (map strip_zeros l) = mapM int l /\
  exists ns, mapM int l = Ok ns.
Proof.
  induction l as [|w l IH]; intros H S.
  - split; [reflexivity|]. exists []. reflexivity.
  - cbn [forallb] in H, S.
    apply andb_true_iff in H. destruct H as [Hw Hl].
    apply andb_true_iff in S. destruct S as [Sw Sl].
    destruct (IH Hl Sl) as (IH1 & ns & IH2).
    destruct (int_digits w Hw Sw) as (n & Hn & _).
    cbn [map mapM]. rewrite (int_strip_zeros w Hw Sw), IH1, Hn, IH2.
    split; [reflexivity|]. exists (n :: ns). reflexivity.
Qed.

(** X13. Normalising keeps the value of every number of a release whose
    numbers are within the limit of [int]: the numbers of the result, read
    by [int], are the numbers of the input, and none of them is written
    with a leading zero. *)
Theorem X13_release_values (env : environ) (r : list str) :
  wf_release r = true -> forallb short r = true ->
  exists r' ns,
    normalize_version env (join "." r) = Ok (join "." r') /\
    mapM int r = Ok ns /\ mapM int r' = Ok ns /\
    forallb no_leading_zero r' = true.
Proof.
  intros W S. assert (Hl : forallb (is_run is_digit) r = true).
  { destruct r; [discriminate|exact W]. }
  destruct (mapM_int_strip r Hl S) as (H1 & ns & H2).
  exists (map strip_zeros r), ns.
  split; [rewrite (normalize_bare env r W), S; reflexivity|].
  split; [exact H2|]. split; [rewrite H1; exact H2|].
  clear. induction r as [|w r IH]; [reflexivity|]. simpl.
  rewrite strip_zeros_no_leading_zero. exact IH.
Qed.

Lemma X13_release_values_witness :
  exists r' ns,
    normalize_version env_unset (join "." ["2024" : str; "01" : str; "000" : str])
    = Ok (join "." r') /\
    mapM int ["2024" : str; "01" : str; "000" : str] = Ok ns /\
    mapM int r' = Ok ns /\
    forallb no_leading_zero r' = true.
Proof.
  apply (X13_release_values env_unset
           ["2024" : str; "01" : str; "000" : str]); reflexivity.
Defined.

(** * The end of a version and its two marks *)

Lemma first_outside {A : Type} (P : A -> bool) (l1 l2 : list A)
    (a1 a2 : A) (r1 r2 : list A) :
  forallb P l1 = true -> forallb P l2 = true ->
  P a1 = false -> P a2 = false ->
  l1 ++ a1 :: r1 = l2 ++ a2 :: r2 -> a1 = a2.
Proof.
  revert l2. induction l1 as [|x l1 IH]; intros [|y l2] H1 H2 N1 N2 E;
    simpl in *.
  - congruence.
  - injection E as -> _. apply andb_true_iff in H2. destruct H2; congruence.
  - injection E as -> _. apply andb_true_iff in H1. destruct H1; congruence.
  - injection E as _ E. apply andb_true_iff in H1, H2.
    destruct H1, H2. eapply IH; eauto.
Qed.

Lemma forallb_rev {A : Type} (P : A -> bool) (l : list A) :
  forallb P l = true -> forallb P (rev l) = true.
Proof.
  rewrite !forallb_forall. intros H x Hx. apply H, in_rev. exact Hx.
Qed.

Lemma last_outside {A : Type} (P : A -> bool) (l1 l2 : list A)
    (a1 a2 : A) (r1 r2 : list A) :
  forallb P r1 = true -> forallb P r2 = true ->
  P a1 = false -> P a2 = false ->
  l1 ++ a1 :: r1 = l2 ++ a2 :: r2 -> a1 = a2.
Proof.
  intros H1 H2 N1 N2 E. apply (f_equal (@rev A)) in E.
  rewrite !rev_app_distr in E. simpl in E. rewrite <- !app_assoc in E.
  simpl in E.
  apply (first_outside P (rev r1) (rev r2) a1 a2 (rev l1) (rev l2));
    auto using forallb_rev.
Qed.

Lemma word_last (w : str) :
  forallb is_word_char w = true -> w <> [] ->
  exists t z, w = t ++ [z] /\ is_word_char z = true.
Proof.
  intros H N. destruct (exists_last N) as (t & z & ->).
  exists t, z. split; [reflexivity|].
  rewrite forallb_app in H. apply andb_true_iff in H. destruct H as [_ H].
  simpl in H. rewrite andb_true_r in H. exact H.
Qed.

Lemma word_not_space a : is_word_char a = true -> is_space a = false.
Proof. ascii_cases a; intros H; try discriminate H; reflexivity. Qed.

(** A version ends with a letter, a digit or a separator. *)
Lemma text_last (p : parsed) :
  wf_parsed p = true ->
  exists t z, text_of p = t ++ [z] /\ is_word_char z = true.
Proof.
  intros W. rewrite text_of_middle.
  destruct (middle_word p W) as [Hm Nm].
  unfold wf_parsed in W. apply andb_true_iff in W. destruct W as [_ Wl].
  destruct (p_local p) as [l|]; cbn [opt_text opt_wf] in *.
  - destruct (local_label_word l Wl) as [Hl Nl].
    destruct (word_last _ Hl Nl) as (t & z & E & Hz).
    exists (opt_text epoch_text (p_epoch p) ++ middle_text p ++ "+" ++ t), z.
    split; [|exact Hz]. unfold local_text. rewrite E.
    rewrite <- !app_assoc. reflexivity.
  - destruct (word_last _ Hm Nm) as (t & z & E & Hz).
    exists (opt_text epoch_text (p_epoch p) ++ t), z.
    split; [|exact Hz]. rewrite E, List.app_nil_r, <- !app_assoc.
    reflexivity.
Qed.

(** X14. The version pattern is anchored at the end: an input whose last
    character before its trailing blanks is not a letter, a digit or one of
    the separators [.], [-], [_] (so one that ends with [+] or [!], as
    [1.0+] does) does not match, whatever comes before, and is refused or,
    with the override, returned lower-cased. *)
Theorem X14_last_character (env : environ) (t : str) (a : ascii) (w : str) :
  forallb is_space w = true ->
  is_space (lower_char a) || is_word_char (lower_char a) = false ->
  re_match VERSION_PERMISSIVE (lower (t ++ a :: w)) = None /\
  normalize_version env (t ++ a :: w) =
  if allow_invalid env then Ok (lower (t ++ a :: w))
  else Raise (InvalidVersion (t ++ a :: w)).
Proof.
  intros Hw Hc.
  assert (E : re_match VERSION_PERMISSIVE (lower (t ++ a :: w)) = None).
  { destruct (re_match VERSION_PERMISSIVE (lower (t ++ a :: w))) as [m|] eqn:E;
      [|reflexivity]. exfalso.
    destruct (match_shape _ _ E)
      as (ws1 & v & p & ws2 & Hs & _ & _ & W & _ & H2).
    destruct (text_last p W) as (u & z & Hu & Hz).
    apply orb_false_iff in Hc. destruct Hc as [Hsp Hwc].
    rewrite lower_app in Hs. change (lower (a :: w)) with
      (lower_char a :: lower w) in Hs.
    rewrite (lower_blanks w Hw), Hu in Hs.
    replace (ws1 ++ v ++ (u ++ [z]) ++ ws2)
      with ((ws1 ++ v ++ u) ++ z :: ws2) in Hs
      by (rewrite <- !app_assoc; reflexivity).
    apply (last_outside is_space) in Hs;
      [|exact Hw|exact H2|exact Hsp|apply word_not_space; exact Hz].
    congruence. }
  split; [exact E|]. apply normalize_unmatched. exact E.
Qed.

Lemma X14_last_character_witness :
  re_match VERSION_PERMISSIVE (lower ("1.0" ++ "+"%char :: " ")) = None /\
  normalize_version env_unset ("1.0" ++ "+"%char :: " ") =
  if allow_invalid env_unset then Ok (lower ("1.0" ++ "+"%char :: " "))
  else Raise (InvalidVersion ("1.0" ++ "+"%char :: " ")).
Proof.
  apply (X14_last_character env_unset ("1.0" : str) "+" (" " : str));
    reflexivity.
Defined.

(** ** The two marks *)

(** [str.count] for one character. *)
Definition count (x : ascii) (s : str) : nat :=
  List.length (filter (Ascii.eqb x) s).

Lemma count_app (x : ascii) (s t : str) :
  count x (s ++ t) = count x s + count x t.
Proof. unfold count. rewrite filter_app, length_app. reflexivity. Qed.

Lemma count_none (P : ascii -> bool) (x : ascii) (s : str) :
  P x = false -> forallb P s = true -> count x s = 0.
Proof.
  intros Hx. unfold count. induction s as [|a s IH]; [reflexivity|].
  simpl. intros H. apply andb_true_iff in H. destruct H as [Ha Hs].
  destruct (Ascii.eqb_spec x a) as [<-|_]; [congruence|]. apply IH, Hs.
Qed.

Lemma count_lower (x : ascii) (s : str) :
  (forall a, Ascii.eqb x (lower_char a) = Ascii.eqb x a) ->
  count x (lower s) = count x s.
Proof.
  intros H. unfold count. induction s as [|a s IH]; [reflexivity|].
  change (lower (a :: s)) with (lower_char a :: lower s).
  simpl. rewrite H. destruct (Ascii.eqb x a); simpl; rewrite IH; reflexivity.
Qed.

Lemma lower_bang a : Ascii.eqb "!" (lower_char a) = Ascii.eqb "!" a.
Proof. ascii_cases a; reflexivity. Qed.

Lemma lower_plus a : Ascii.eqb "+" (lower_char a) = Ascii.eqb "+" a.
Proof. ascii_cases a; reflexivity. Qed.

Lemma count_v (x : ascii) (v : str) :
  is_word_char x = false -> v = [] \/ v = ("v" : str) -> count x v = 0.
Proof.
  intros Hx [-> | ->]; [reflexivity|].
  apply (count_none is_word_char); [exact Hx|reflexivity].
Qed.

(** X15. In a matched input the mark [!] stands once when there is an epoch
    and not at all otherwise, and the mark [+] stands once when there is a
    local version and not at all otherwise: [normalize_version] reads the two
    groups off these marks. *)
Theorem X15_marks (s : str) (m : groups) :
  re_match VERSION_PERMISSIVE (lower s) = Some m ->
  count "!" s = match group m "epoch" with Some _ => 1 | None => 0 end /\
  count "+" s = match group m "local" with Some _ => 1 | None => 0 end.
Proof.
  intros E.
  destruct (match_shape _ _ E)
    as (ws1 & v & p & ws2 & Hs & H1 & Hv & W & -> & H2).
  rewrite group_epoch, group_local.
  rewrite <- (count_lower "!" s lower_bang), <- (count_lower "+" s lower_plus).
  rewrite Hs, text_of_middle, !count_app.
  destruct (middle_word p W) as [Hm _].
  rewrite !(count_none is_space _ ws1), !(count_none is_space _ ws2),
    !(count_none is_word_char _ (middle_text p)),
    (count_v "!" v), (count_v "+" v)
    by (try reflexivity; assumption).
  unfold wf_parsed in W.
  apply andb_true_iff in W. destruct W as [W Wl].
  apply andb_true_iff in W. destruct W as [W _].
  apply andb_true_iff in W. destruct W as [W _].
  apply andb_true_iff in W. destruct W as [W _].
  apply andb_true_iff in W. destruct W as [We _].
  destruct (p_epoch p) as [e|], (p_local p) as [l|];
    cbn [opt_text opt_wf] in *; unfold epoch_text, local_text;
    rewrite ?count_app;
    try (destruct (local_label_word l Wl) as [Hl _]);
    try (pose proof (digits_word e We) as He);
    rewrite ?(count_none is_word_char _ e),
      ?(count_none is_word_char _ (local_label l))
      by (try reflexivity; assumption);
    split; reflexivity.
Qed.

Lemma X15_marks_witness :
  count "!" "2!1.0+Ubuntu.1" =
    match group (groups_of (Parsed (Some ("2" : str))
                   [("1" : str); ("0" : str)] None None None
                   (Some (Local ("ubuntu" : str) [("."%char, ("1" : str))]))))
            "epoch" with Some _ => 1 | None => 0 end /\
  count "+" "2!1.0+Ubuntu.1" =
    match group (groups_of (Parsed (Some ("2" : str))
                   [("1" : str); ("0" : str)] None None None
                   (Some (Local ("ubuntu" : str) [("."%char, ("1" : str))]))))
            "local" with Some _ => 1 | None => 0 end.
Proof.
  apply (X15_marks ("2!1.0+Ubuntu.1" : str)). reflexivity.
Defined.

(** * The numbers of a match in the input *)













